(** * Outbound file delivery of the contact-conversion bot

    A shallow embedding of the two components of [bot.js] that carry the
    delivery logic:

    - [class RateLimiter] (bot.js 23-83): a queue of retryable tasks served by
      one self-rescheduling [process()] chain;
    - [sendFilesInGroups] (bot.js 89-170): the grouped sender built on the
      module-level instance [rateLimiter = new RateLimiter(3000)].

    The JavaScript code is asynchronous and talks to collaborators: the
    clock, the random source, the Telegram transport, the reply sink and the
    file system.  Here the collaborators are an environment [Env] of oracles
    that answer the n-th call, and everything the code does to them is
    recorded in a [World] that is passed along.

    - Time.  A timed wait never changes what the code does next; only
      [Date.now()] does.  Every awaited [setTimeout] is recorded with its
      site and delay, and the clock readings come from the environment.
    - Numbers.  Delays are rationals.  The code computes them in doubles;
      the backoffs are an integer number of ms times 3^k / 2^k, which doubles
      hold exactly.  The sum of a backoff or an interval and a jitter is
      rounded by the code to a double: for the delays of this program,
      all below a minute, that is less than 10^-11 ms away from the
      rational kept here, and never beyond the bounds of the jitter, which
      it can reach.
    - Scheduling.  The limiter is a state machine with two transitions:
      the synchronous part of [add], and one call of [process()].  Other
      producers may act between two transitions.  An [add] made while a task
      is awaited lands behind the items already queued and before the
      re-enqueued head, like one made before that call of [process()].
    - The sender is modelled for a limiter that it alone uses.  There
      [await rateLimiter.add(task)] runs the chain until the queue is empty:
      the wait the chain still makes after it settles the promise overlaps
      with the caller in JavaScript and comes before it here, which changes
      no value the caller sees.
    - Awaited collaborator calls end, by returning or by throwing. *)

(** What the bot delivers is computed by pure code, embedded further down
    as functions:

    - the phone-number rule, the parsers of text, CSV and vCard files, the
      vCard writer and the file-name sanitizer (bot.js 173-195, 226-322);
    - what the commands compute from the contacts of the session: the split
      of [/cv], [/pt] and [/pv] and the files they write, the groups of
      [/an], the dialogue of [/anc] (bot.js 452-792, 1105-1150);
    - [/add] and [/remove] on the user list (bot.js 400-449).

    - Text.  A JavaScript string is its sequence of UTF-16 code units.  The
      regular expressions of the code are embedded as the scans they
      perform; under the [i] flag only ASCII letters have a second case that
      matches the ASCII patterns used.
    - Counters and sizes are naturals, rendered in decimal as JavaScript
      renders the integers an array can count.  The split count and the
      start number that a command reads from its text are doubles that can
      lie beyond those: they are binary naturals here, and the embedding
      says what happens where they pass 2^53, the last integer up to which
      a double counts one by one.
    - [processExcelFile] reads its cells through the XLSX library and is
      not embedded. *)

From Stdlib Require Import ZArith QArith Qpower Qabs Lqa Lia Sorted.
From stdpp Require Import base list gmap strings pretty.

Local Open Scope Z_scope.
Local Open Scope nat_scope.

(** ** JavaScript values that cross the modelled interfaces *)

(** What a promise resolves with, and what a [throw] carries. *)
Inductive value : Type :=
  | Undefined
  | Str (s : string)
  | TypeError (msg : string).

(** How an awaited call ends. *)
Inductive outcome : Type :=
  | Returns (v : value)
  | Throws (e : value).

(** A caller-built file reference, [{ path: outputPath, count: group.length }]
    (bot.js 507); the test passes [{ path }] alone. *)
Record FileRef : Type := { path : string; count : option nat }.

(** An array slot of [files]: [None] is a [null]/[undefined] entry, on which
    [file.path] throws a TypeError. *)
Definition Slot : Type := option FileRef.

(** One entry of the media group, [{ type: 'document', media: { source } }]. *)
Record Media : Type := { mtype : string; source : string }.

(** The three notifications of [sendFilesInGroups] (bot.js 131, 135, 156),
    with the values their template literals interpolate. *)
Inductive Message : Type :=
  | Progress (sent total : nat)
  | GroupFailed (ordinal : nat)
  | Summary (ok failed groups : nat).

(** The texts the reply sink receives: the template literals of bot.js 131,
    135 and 157-161. *)
Definition nl : string := String (Ascii.ascii_of_nat 10) EmptyString.

Definition render (m : Message) : string :=
  match m with
  | Progress sent total =>
      "📤 Progress: " +:+ pretty sent +:+ "/" +:+ pretty total +:+ " file terkirim..."
  | GroupFailed ordinal =>
      "⚠️ Gagal mengirim grup file ke-" +:+ pretty ordinal +:+ ". Mencoba melanjutkan..."
  | Summary ok failed groups =>
      "📊 Ringkasan Pengiriman:" +:+ nl +:+
      "✅ Berhasil: " +:+ pretty ok +:+ " file" +:+ nl +:+
      "❌ Gagal: " +:+ pretty failed +:+ " file" +:+ nl +:+
      "📦 Total Grup: " +:+ pretty groups +:+ nl +:+
      (if 0 <? failed
       then nl +:+ "Silakan coba kembali untuk file yang gagal."
       else EmptyString)
  end.

(** The [console.error] calls of the two components. *)
Inductive LogEntry : Type :=
  | RateLimiterError (e : value)
  | RetryLog (retryCount maxRetries : nat) (e : value)
  | GroupSendError (e : value)
  | FileCleanupError (e : value)
  | SendFilesError (e : value).

(** The [setTimeout] sites, in source order. *)
Inductive TimerSite : Type :=
  | QueueBackoff      (* bot.js 75 *)
  | QueueInterval     (* bot.js 80 *)
  | WarmUp            (* bot.js 96 *)
  | SendDelay         (* bot.js 114 *)
  | RetryWait         (* bot.js 124 *)
  | InterGroup.       (* bot.js 153 *)

(** ** Environment and world *)

(** The collaborators.  Each oracle answers the n-th call. *)
Record Env : Type := {
  date_now : nat -> Z;                          (* Date.now(), in ms *)
  math_random : nat -> Q;                       (* Math.random() *)
  sendMediaGroup : nat -> list Media -> outcome; (* ctx.telegram.sendMediaGroup *)
  reply : nat -> Message -> outcome;            (* ctx.reply *)
  unlinkSync_error : string -> option value     (* fs.unlinkSync throws on this path *)
}.

(** Everything the code has done to its collaborators so far. *)
Record World : Type := {
  clock_reads : nat;                      (* calls of Date.now() *)
  random_draws : nat;                     (* calls of Math.random() *)
  promises : nat;                         (* promises created by add *)
  settled : list (nat * outcome);         (* resolve(v) / reject(e), per promise *)
  timers : list (TimerSite * Q);          (* awaited setTimeout delays, in ms *)
  console : list LogEntry;
  sends : list (list Media * outcome);    (* calls of sendMediaGroup *)
  replies : list (Message * outcome);     (* calls of ctx.reply *)
  disk : gset string;                     (* paths for which existsSync is true *)
  unlinks : list (string * bool)          (* calls of unlinkSync, true = removed *)
}.

Definition initial_world (d : gset string) : World :=
  {| clock_reads := 0; random_draws := 0; promises := 0; settled := [];
     timers := []; console := []; sends := []; replies := [];
     disk := d; unlinks := [] |}.

Section Effects.
Variable env : Env.

Definition Date_now (w : World) : Z * World :=
  (date_now env (clock_reads w),
   {| clock_reads := S (clock_reads w); random_draws := random_draws w;
      promises := promises w; settled := settled w; timers := timers w;
      console := console w; sends := sends w; replies := replies w;
      disk := disk w; unlinks := unlinks w |}).

Definition Math_random (w : World) : Q * World :=
  (math_random env (random_draws w),
   {| clock_reads := clock_reads w; random_draws := S (random_draws w);
      promises := promises w; settled := settled w; timers := timers w;
      console := console w; sends := sends w; replies := replies w;
      disk := disk w; unlinks := unlinks w |}).

Definition new_promise (w : World) : nat * World :=
  (promises w,
   {| clock_reads := clock_reads w; random_draws := random_draws w;
      promises := S (promises w); settled := settled w; timers := timers w;
      console := console w; sends := sends w; replies := replies w;
      disk := disk w; unlinks := unlinks w |}).

Definition settle (p : nat) (o : outcome) (w : World) : World :=
  {| clock_reads := clock_reads w; random_draws := random_draws w;
     promises := promises w; settled := settled w ++ [(p, o)];
     timers := timers w; console := console w; sends := sends w;
     replies := replies w; disk := disk w; unlinks := unlinks w |}.

(** [await new Promise(resolve => setTimeout(resolve, ms))] *)
Definition setTimeout (site : TimerSite) (ms : Q) (w : World) : World :=
  {| clock_reads := clock_reads w; random_draws := random_draws w;
     promises := promises w; settled := settled w;
     timers := timers w ++ [(site, ms)]; console := console w;
     sends := sends w; replies := replies w; disk := disk w;
     unlinks := unlinks w |}.

Definition console_error (l : LogEntry) (w : World) : World :=
  {| clock_reads := clock_reads w; random_draws := random_draws w;
     promises := promises w; settled := settled w; timers := timers w;
     console := console w ++ [l]; sends := sends w; replies := replies w;
     disk := disk w; unlinks := unlinks w |}.

(** [await ctx.telegram.sendMediaGroup(ctx.chat.id, mediaGroup)] *)
Definition telegram_sendMediaGroup (m : list Media) (w : World)
  : outcome * World :=
  let o := sendMediaGroup env (length (sends w)) m in
  (o,
   {| clock_reads := clock_reads w; random_draws := random_draws w;
      promises := promises w; settled := settled w; timers := timers w;
      console := console w; sends := sends w ++ [(m, o)];
      replies := replies w; disk := disk w; unlinks := unlinks w |}).

(** [await ctx.reply(text)], for the text [render m] *)
Definition ctx_reply (m : Message) (w : World) : outcome * World :=
  let o := reply env (length (replies w)) m in
  (o,
   {| clock_reads := clock_reads w; random_draws := random_draws w;
      promises := promises w; settled := settled w; timers := timers w;
      console := console w; sends := sends w;
      replies := replies w ++ [(m, o)]; disk := disk w;
      unlinks := unlinks w |}).

(** [fs.existsSync(p)] *)
Definition existsSync (p : string) (w : World) : bool :=
  bool_decide (p ∈ disk w).

(** [fs.unlinkSync(p)]: [Some e] when it throws [e]; a missing path throws
    ENOENT. *)
Definition unlinkSync (p : string) (w : World) : option value * World :=
  match unlinkSync_error env p with
  | Some e =>
      (Some e,
       {| clock_reads := clock_reads w; random_draws := random_draws w;
          promises := promises w; settled := settled w; timers := timers w;
          console := console w; sends := sends w; replies := replies w;
          disk := disk w; unlinks := unlinks w ++ [(p, false)] |})
  | None =>
      if bool_decide (p ∈ disk w) then
        (None,
         {| clock_reads := clock_reads w; random_draws := random_draws w;
            promises := promises w; settled := settled w; timers := timers w;
            console := console w; sends := sends w; replies := replies w;
            disk := disk w ∖ {[p]}; unlinks := unlinks w ++ [(p, true)] |})
      else
        (Some (Str "ENOENT"),
         {| clock_reads := clock_reads w; random_draws := random_draws w;
            promises := promises w; settled := settled w; timers := timers w;
            console := console w; sends := sends w; replies := replies w;
            disk := disk w; unlinks := unlinks w ++ [(p, false)] |})
  end.
End Effects.

(** A task is a zero-argument asynchronous operation: run against the world
    it either returns or throws.  A closure may keep private state between
    calls; the model hands it the number of its earlier invocations. *)
Definition Task : Type := nat -> World -> outcome * World.

(** ** The rate limiter (bot.js 23-83) *)

Module RateLimiter.

(** A queue entry (bot.js 35-42).  [resolve]/[reject] are the two handles of
    the promise numbered [promise].  An item is attempted again only after
    a failure, which increments [retries]: [retries] is also the number of
    earlier invocations of [task]. *)
Record Item : Type := {
  task : Task;
  promise : nat;
  retries : nat;
  backoffTime : Q;
  startTime : Z
}.

Record t : Type := {
  queue : list Item;
  processing : bool;
  interval : Q;
  maxRetries : nat;
  backoffMultiplier : Q;
  timeout : Z
}.

(** [constructor(interval = 3000)] *)
Definition new (interval : Q) : t :=
  {| queue := []; processing := false; interval := interval;
     maxRetries := 5; backoffMultiplier := 3 # 2; timeout := 30000 |}.

Definition with_queue (q : list Item) (rl : t) : t :=
  {| queue := q; processing := processing rl; interval := interval rl;
     maxRetries := maxRetries rl; backoffMultiplier := backoffMultiplier rl;
     timeout := timeout rl |}.

Definition with_processing (b : bool) (rl : t) : t :=
  {| queue := queue rl; processing := b; interval := interval rl;
     maxRetries := maxRetries rl; backoffMultiplier := backoffMultiplier rl;
     timeout := timeout rl |}.

Definition with_retries (n : nat) (it : Item) : Item :=
  {| task := task it; promise := promise it; retries := n;
     backoffTime := backoffTime it; startTime := startTime it |}.

Definition with_backoffTime (b : Q) (it : Item) : Item :=
  {| task := task it; promise := promise it; retries := retries it;
     backoffTime := b; startTime := startTime it |}.

Section WithEnv.
Variable env : Env.

(** The synchronous part of [add] (bot.js 34-42): create the promise and
    push the item. *)
Definition enqueue (tk : Task) (rl : t) (w : World) : nat * t * World :=
  let (p, w1) := new_promise w in
  let (now, w2) := Date_now env w1 in
  let item := {| task := tk; promise := p; retries := 0;
                 backoffTime := interval rl; startTime := now |} in
  (p, with_queue (queue rl ++ [item]) rl, w2).

(** [this.queue[0].backoffTime = this.interval] when the queue is not
    empty (bot.js 62-64). *)
Definition reset_head (rl : t) (q : list Item) : list Item :=
  match q with
  | [] => []
  | nxt :: tl => with_backoffTime (interval rl) nxt :: tl
  end.

(** [item.retries >= this.maxRetries || Date.now() - item.startTime >
    this.timeout] (bot.js 69); the clock is read only when the first
    disjunct is false. *)
Definition gives_up (rl : t) (it : Item) (w : World) : bool * World :=
  if (maxRetries rl <=? retries it)%nat then (true, w)
  else
    let (now, w1) := Date_now env w in
    ((timeout rl <? now - startTime it)%Z, w1).

(** The item after a failed attempt that is retried (bot.js 67, 73). *)
Definition retried (rl : t) (it : Item) : Item :=
  with_backoffTime (backoffTime it * backoffMultiplier rl)%Q
    (with_retries (S (retries it)) it).

(** The [catch] block of [process] (bot.js 65-77), for the item at the
    head of the queue [it :: rest]. *)
Definition on_failure (rl : t) (it : Item) (rest : list Item)
    (e : value) (w : World) : t * World :=
  let w1 := console_error (RateLimiterError e) w in
  let it1 := with_retries (S (retries it)) it in
  let (stop, w2) := gives_up rl it1 w1 in
  if stop then
    (with_queue rest rl, settle (promise it) (Throws e) w2)
  else
    let it2 := retried rl it in
    (with_queue (rest ++ [it2]) rl,
     setTimeout QueueBackoff (backoffTime it2) w2).

(** One call of [process()] up to its tail call (bot.js 49-81).  The
    boolean tells whether the tail call [this.process()] is reached. *)
Definition process_step (rl : t) (w : World) : t * World * bool :=
  match queue rl with
  | [] => (with_processing false rl, w, false)
  | it :: rest =>
      let rl1 := with_processing true rl in
      let (o, w1) := task it (retries it) w in
      let '(rl2, w2) :=
        match o with
        | Returns v =>
            (with_queue (reset_head rl1 rest) rl1,
             settle (promise it) (Returns v) w1)
        | Throws e => on_failure rl1 it rest e w1
        end in
      let (r, w3) := Math_random env w2 in
      let jitter := (r * 1000)%Q in
      (rl2, setTimeout QueueInterval (interval rl2 + jitter)%Q w3, true)
  end.

(** The chain of [process()] calls. *)
Fixpoint process (fuel : nat) (rl : t) (w : World) : t * World :=
  match fuel with
  | O => (rl, w)
  | S n =>
      let '(rl1, w1, again) := process_step rl w in
      if again then process n rl1 w1 else (rl1, w1)
  end.

(** Calls of [process()] that empty the queue: every item is attempted at
    most [maxRetries] times, and one more call finds the queue empty. *)
Definition process_fuel (rl : t) : nat :=
  S (length (queue rl) * maxRetries rl).

(** [add(task)] (bot.js 33-47): the promise, and the limiter and world
    once the chain that [add] may start has run out of work. *)
Definition add (tk : Task) (rl : t) (w : World) : nat * t * World :=
  let '(p, rl1, w1) := enqueue tk rl w in
  if processing rl then (p, rl1, w1)
  else
    let (rl2, w2) := process (process_fuel rl1) rl1 w1 in
    (p, rl2, w2).
End WithEnv.

(** How promise [p] was settled, if it was (the latest entry for [p]). *)
Definition settlement (p : nat) (w : World) : option outcome :=
  snd <$> find (fun s => Nat.eqb (fst s) p) (rev (settled w)).

End RateLimiter.

(** ** The grouped sender (bot.js 86-170) *)

(** [const rateLimiter = new RateLimiter(3000)] *)
Definition rateLimiter : RateLimiter.t := RateLimiter.new 3000.

Module Delivery.

Definition maxRetries : nat := 5.
Definition groupSize : nat := 10.

(** [let successCount = 0; let failedFiles = []] *)
Record Vars : Type := { successCount : nat; failedFiles : list Slot }.

(** How the call ends: [return { successCount, failedFiles }] (bot.js 164)
    or the rethrow of the outer [catch] (bot.js 168). *)
Inductive Completion : Type :=
  | Returned (v : Vars)
  | Thrown (e : value).

(** [files.slice(i, i + groupSize)] *)
Definition slice {A} (l : list A) (i j : nat) : list A :=
  take (j - i) (drop i l).

(** [Math.ceil(n / d)] on naturals. *)
Definition ceil_div (n d : nat) : nat :=
  n / d + (if n mod d =? 0 then 0 else 1).

Definition null_path : value :=
  TypeError "Cannot read properties of null (reading 'path')".

(** [fileGroup.map(file => ({ type: 'document', media: { source: file.path }
    }))] (bot.js 102-105): throws at a [null] slot. *)
Fixpoint build_mediaGroup (g : list Slot) : value + list Media :=
  match g with
  | [] => inr []
  | None :: _ => inl null_path
  | Some f :: tl =>
      match build_mediaGroup tl with
      | inl e => inl e
      | inr ms => inr ({| mtype := "document"; source := path f |} :: ms)
      end
  end.

Section WithEnv.
Variable env : Env.

(** The task handed to the limiter (bot.js 113-116). *)
Definition send_task (mediaGroup : list Media) : Task :=
  fun _ w =>
    let w1 := setTimeout SendDelay 500 w in
    let (o, w2) := telegram_sendMediaGroup env mediaGroup w1 in
    match o with
    | Returns _ => (Returns Undefined, w2)
    | Throws e => (Throws e, w2)
    end.

(** [await rateLimiter.add(task)]: [None] when the promise is never
    settled, so that the caller never resumes. *)
Definition await_add (tk : Task) (rl : RateLimiter.t) (w : World)
  : option (outcome * RateLimiter.t * World) :=
  let '(p, rl1, w1) := RateLimiter.add env tk rl w in
  o ← RateLimiter.settlement p w1;
  Some (o, rl1, w1).

(** The [while (!success && retryCount < maxRetries)] loop (bot.js
    111-126); it is entered with [fuel + retryCount = maxRetries].  The
    result is the final value of [success].  The delay awaited after a
    rejection is kept as the exact sum of backoff and jitter, which the
    code rounds to a double. *)
Fixpoint retry_loop (fuel : nat) (mediaGroup : list Media)
    (retryCount : nat) (backoffTime : Q) (rl : RateLimiter.t) (w : World)
  : option (bool * RateLimiter.t * World) :=
  match fuel with
  | O => Some (false, rl, w)
  | S n =>
      if retryCount <? maxRetries then
        '(o, rl1, w1) ← await_add (send_task mediaGroup) rl w;
        match o with
        | Returns _ => Some (true, rl1, w1)
        | Throws e =>
            let retryCount1 := S retryCount in
            let w2 := console_error (RetryLog retryCount1 maxRetries e) w1 in
            let backoffTime1 := (backoffTime * (3 # 2))%Q in
            let (r, w3) := Math_random env w2 in
            let jitter := (r * 1000)%Q in
            let w4 := setTimeout RetryWait (backoffTime1 + jitter)%Q w3 in
            retry_loop n mediaGroup retryCount1 backoffTime1 rl1 w4
        end
      else Some (false, rl, w)
  end.

(** What an awaited call throws, if it throws. *)
Definition thrown_of (o : outcome) : option value :=
  match o with
  | Returns _ => None
  | Throws e => Some e
  end.

(** The [if (success) ... else ...] block (bot.js 128-136): the exception
    it ends with, if any, and the variables it leaves. *)
Definition report_group (files : list Slot) (i : nat) (fileGroup : list Slot)
    (v : Vars) (success : bool) (w : World) : option value * Vars * World :=
  if success then
    let v1 := {| successCount := successCount v + length fileGroup;
                 failedFiles := failedFiles v |} in
    if (successCount v1 mod 30 =? 0) || (length files <=? i + groupSize)
    then
      let (o, w1) :=
        ctx_reply env (Progress (successCount v1) (length files)) w in
      (thrown_of o, v1, w1)
    else (None, v1, w)
  else
    let v1 := {| successCount := successCount v;
                 failedFiles := failedFiles v ++ fileGroup |} in
    let (o, w1) := ctx_reply env (GroupFailed (i / groupSize + 1)) w in
    (thrown_of o, v1, w1).

(** The inner [try] block (bot.js 101-137). *)
Definition try_group (files : list Slot) (i : nat) (fileGroup : list Slot)
    (v : Vars) (rl : RateLimiter.t) (w : World)
  : option (option value * Vars * RateLimiter.t * World) :=
  match build_mediaGroup fileGroup with
  | inl e => Some (Some e, v, rl, w)
  | inr mediaGroup =>
      '(success, rl1, w1) ← retry_loop maxRetries mediaGroup 0 3000 rl w;
      let '(thrown, v1, w2) := report_group files i fileGroup v success w1 in
      Some (thrown, v1, rl1, w2)
  end.

(** The [catch] block (bot.js 138-140). *)
Definition catch_group (fileGroup : list Slot) (e : value) (v : Vars)
    (w : World) : Vars * World :=
  ({| successCount := successCount v;
      failedFiles := failedFiles v ++ fileGroup |},
   console_error (GroupSendError e) w).

(** The callback of the [finally] block (bot.js 142-150). *)
Definition cleanup_file (s : Slot) (w : World) : World :=
  match s with
  | None => console_error (FileCleanupError null_path) w
  | Some f =>
      if existsSync (path f) w then
        match unlinkSync env (path f) w with
        | (None, w1) => w1
        | (Some e, w1) => console_error (FileCleanupError e) w1
        end
      else w
  end.

(** [fileGroup.forEach(...)] *)
Definition cleanup (fileGroup : list Slot) (w : World) : World :=
  foldl (fun w s => cleanup_file s w) w fileGroup.

(** How an iteration ends once the [try] block is left: [catch] if it
    threw, [finally], and the wait before the next group (bot.js
    138-153). *)
Definition close_group (fileGroup : list Slot) (thrown : option value)
    (v : Vars) (w : World) : Vars * World :=
  let (v1, w1) :=
    match thrown with
    | None => (v, w)
    | Some e => catch_group fileGroup e v w
    end in
  (v1, setTimeout InterGroup 3000 (cleanup fileGroup w1)).

(** One iteration of the [for] loop (bot.js 99-153). *)
Definition group_iteration (files : list Slot) (i : nat) (v : Vars)
    (rl : RateLimiter.t) (w : World)
  : option (Vars * RateLimiter.t * World) :=
  let fileGroup := slice files i (i + groupSize) in
  '(thrown, v1, rl1, w1) ← try_group files i fileGroup v rl w;
  let (v2, w2) := close_group fileGroup thrown v1 w1 in
  Some (v2, rl1, w2).

(** [for (let i = 0; i < files.length; i += groupSize)], from index [i]. *)
Fixpoint groups_loop (fuel : nat) (files : list Slot) (i : nat) (v : Vars)
    (rl : RateLimiter.t) (w : World)
  : option (Vars * RateLimiter.t * World) :=
  match fuel with
  | O => Some (v, rl, w)
  | S n =>
      if i <? length files then
        '(v1, rl1, w1) ← group_iteration files i v rl w;
        groups_loop n files (i + groupSize) v1 rl1 w1
      else Some (v, rl, w)
  end.

(** [sendFilesInGroups(ctx, files, caption = '')] (bot.js 89-170); the
    code never reads [caption].  The loop runs at most once per file, so
    [length files] iterations suffice. *)
Definition sendFilesInGroups (files : list Slot) (rl : RateLimiter.t)
    (w : World) : option (Completion * RateLimiter.t * World) :=
  let w0 := setTimeout WarmUp 1000 w in
  '(v, rl1, w1) ←
    groups_loop (length files) files 0
      {| successCount := 0; failedFiles := [] |} rl w0;
  let summary :=
    Summary (successCount v) (length (failedFiles v))
      (ceil_div (length files) groupSize) in
  let (o, w2) := ctx_reply env summary w1 in
  match o with
  | Returns _ => Some (Returned v, rl1, w2)
  | Throws e => Some (Thrown e, rl1, console_error (SendFilesError e) w2)
  end.
End WithEnv.

End Delivery.

(** ** JavaScript strings *)

Module Js.

(** A string is its sequence of UTF-16 code units, which is what
    [s.length], the character classes, [split] and [trim] work on. *)
Abbreviation str := (list N).

(** A literal of the source that holds ASCII characters only. *)
Definition lit (s : string) : str :=
  Ascii.N_of_ascii <$> String.list_ascii_of_string s.

(** ['\n'] *)
Definition nl : str := [10%N].

(** [\d] *)
Definition is_digit (c : N) : bool := (48 <=? c)%N && (c <=? 57)%N.

(** LineTerminator: what [.] does not match. *)
Definition is_line_terminator (c : N) : bool :=
  (c =? 10)%N || (c =? 13)%N || (c =? 0x2028)%N || (c =? 0x2029)%N.

(** WhiteSpace and LineTerminator: what [\s] matches and [trim()] strips. *)
Definition is_space (c : N) : bool :=
  (c =? 9)%N || (c =? 11)%N || (c =? 12)%N || (c =? 32)%N || (c =? 0xA0)%N ||
  (c =? 0x1680)%N || ((0x2000 <=? c)%N && (c <=? 0x200A)%N) ||
  (c =? 0x202F)%N || (c =? 0x205F)%N || (c =? 0x3000)%N || (c =? 0xFEFF)%N ||
  is_line_terminator c.

Fixpoint trimStart (s : str) : str :=
  match s with
  | [] => []
  | c :: s' => if is_space c then trimStart s' else s
  end.

Definition trimEnd (s : str) : str := reverse (trimStart (reverse s)).

(** [s.trim()] *)
Definition trim (s : str) : str := trimEnd (trimStart s).

(** [s.startsWith(p)] *)
Fixpoint startsWith (p s : str) : bool :=
  match p, s with
  | [], _ => true
  | a :: p', c :: s' => (c =? a)%N && startsWith p' s'
  | _ :: _, [] => false
  end.

(** [s.split(sep)] for a separator that is not empty: the pieces between
    the occurrences of [sep], found from the left and not overlapping.
    [skip] counts the code units of a found separator still to pass. *)
Fixpoint split_from (sep : str) (skip : nat) (s : str) : list str :=
  match s with
  | [] => [[]]
  | c :: s' =>
      match skip with
      | S k => split_from sep k s'
      | O =>
          if startsWith sep s then [] :: split_from sep (length sep - 1) s'
          else
            match split_from sep 0 s' with
            | piece :: pieces => (c :: piece) :: pieces
            | [] => [[c]]
            end
      end
  end.

Definition split (sep s : str) : list str := split_from sep 0 s.

(** [pieces.join(sep)] *)
Fixpoint join (sep : str) (pieces : list str) : str :=
  match pieces with
  | [] => []
  | [p] => p
  | p :: rest => p ++ sep ++ join sep rest
  end.

(** [`${n}`] for an array index or a counter. *)
Definition dec (n : nat) : str := lit (pretty n).

(** [`${n}`] for an integer up to 2^53 held in a double, which JavaScript
    prints digit by digit like a counter. *)
Definition dec_N (n : N) : str := lit (pretty n).

(** [s.substring(1)] *)
Definition substring1 (s : str) : str := drop 1 s.

(** What a code unit is compared as under the [i] flag, for the patterns of
    this program, whose letters are ASCII: a code unit beyond ASCII never
    compares equal to an ASCII one. *)
Definition canon (c : N) : N :=
  if (97 <=? c)%N && (c <=? 122)%N then (c - 32)%N else c.

(** The upper-case ASCII word [pat] matches at the start of [s], under the
    [i] flag. *)
Fixpoint ci_startsWith (pat s : str) : bool :=
  match pat, s with
  | [], _ => true
  | a :: pat', c :: s' => (canon c =? a)%N && ci_startsWith pat' s'
  | _ :: _, [] => false
  end.

(** The capture group [.*] at the start of [s]: up to the line terminator. *)
Fixpoint rest_of_line (s : str) : str :=
  match s with
  | [] => []
  | c :: s' => if is_line_terminator c then [] else c :: rest_of_line s'
  end.

End Js.

(** ** Contacts and the file formats (bot.js 173-322) *)

(** The functions take strings: the calls of bot.js pass nothing else,
    and the parsers throw on any other argument. *)

Module Contacts.

Record Contact : Type := { name : Js.str; phone : Js.str }.

(** [value.toString().replace(/[^\d]/g, '')] *)
Definition digits (value : Js.str) : Js.str :=
  filter (fun c => Js.is_digit c) value.

(** [isValidPhoneNumber(value)] (bot.js 283-287), for a string. *)
Definition isValidPhoneNumber (value : Js.str) : bool :=
  match value with
  | [] => false
  | _ =>
      let cleaned := digits value in
      (10 <=? length cleaned) && (length cleaned <=? 15)
  end.

(** [formatPhoneNumber(value)] (bot.js 289-294), for a string; [None] is
    [null]. *)
Definition formatPhoneNumber (value : Js.str) : option Js.str :=
  match value with
  | [] => None
  | _ =>
      let phone := digits value in
      if (length phone <? 10) || (15 <? length phone) then None
      else Some (Js.lit "+" ++ phone)
  end.

(** The loop body shared by the parsers: [contacts.push({ name:
    `${prefix} ${counter++}`, phone })] when the text yields a phone.  The
    state is [(contacts, counter)]. *)
Definition push_numbered (prefix : Js.str) (st : list Contact * nat)
    (text : Js.str) : list Contact * nat :=
  match formatPhoneNumber text with
  | Some p =>
      (st.1 ++ [ {| name := prefix ++ Js.lit " " ++ Js.dec st.2; phone := p |} ],
       S st.2)
  | None => st
  end.

(** [/\d/.test(line)] *)
Definition has_digit (line : Js.str) : bool := existsb Js.is_digit line.

(** The default of the parameter [prefix]. *)
Definition default_prefix : Js.str := Js.lit "Contact".

(** [processTxtFile(content, prefix)] (bot.js 173-195), for a string. *)
Definition processTxtFile (content prefix : Js.str) : list Contact :=
  let lines :=
    filter (fun line => line <> [] /\ has_digit line)
      (Js.trim <$> Js.split Js.nl content) in
  (foldl (push_numbered prefix) ([], 1) lines).1.

(** [processCsvContent(content, prefix)] (bot.js 226-252), for a string. *)
Definition processCsvContent (content prefix : Js.str) : list Contact :=
  let lines :=
    filter (fun line => line <> []) (Js.trim <$> Js.split Js.nl content) in
  (foldl
     (fun st line =>
        let values := Js.trim <$> Js.split (Js.lit ",") line in
        foldl (push_numbered prefix) st values)
     ([], 1) lines).1.

(** The tail of the pattern, [[^:]*:] and the capture group [.*]: the rest
    of the line after the first colon. *)
Fixpoint after_colon (s : Js.str) : option Js.str :=
  match s with
  | [] => None
  | c :: s' => if (c =? 58)%N then Some (Js.rest_of_line s') else after_colon s'
  end.

(** [vcard.match(...)] for the pattern [TEL[^:]*:] followed by a capture
    group [.*], with the [i] flag: the capture of the leftmost match. *)
Fixpoint match_TEL (s : Js.str) : option Js.str :=
  match s with
  | [] => None
  | _ :: s' =>
      if Js.ci_startsWith (Js.lit "TEL") s then
        match after_colon (drop 3 s) with
        | Some phone => Some phone
        | None => match_TEL s'
        end
      else match_TEL s'
  end.

(** [vcard.match(...)] for the pattern [FN:] followed by a capture group
    [.*], with the [i] flag: the capture of the leftmost match. *)
Fixpoint match_FN (s : Js.str) : option Js.str :=
  match s with
  | [] => None
  | _ :: s' =>
      if Js.ci_startsWith (Js.lit "FN:") s
      then Some (Js.rest_of_line (drop 3 s))
      else match_FN s'
  end.

(** The callback of [vcards.forEach] (bot.js 263-278). *)
Definition add_vcard (contacts : list Contact) (vcard : Js.str)
  : list Contact :=
  match Js.trim vcard with
  | [] => contacts
  | _ =>
      match match_TEL vcard with
      | Some phoneMatch =>
          let nameMatch := match_FN vcard in
          match formatPhoneNumber phoneMatch with
          | Some p =>
              let fallback := Js.lit "Contact " ++ Js.dec (length contacts + 1) in
              let n :=
                match Js.trim <$> nameMatch with
                | Some (c :: n') => c :: n'
                | _ => fallback
                end in
              contacts ++ [ {| name := n; phone := p |} ]
          | None => contacts
          end
      | None => contacts
      end
  end.

(** [processVcfFile(content)] (bot.js 254-281), for a string. *)
Definition processVcfFile (content : Js.str) : list Contact :=
  foldl add_vcard [] (Js.split (Js.lit "BEGIN:VCARD") content).

(** [[\u0000-\u001F\u007F-\u009F]] *)
Definition is_control (c : N) : bool :=
  (c <=? 0x1F)%N || ((0x7F <=? c)%N && (c <=? 0x9F)%N).

(** The three [replace] calls on the name (bot.js 301-304). *)
Definition escape_name (n : Js.str) : Js.str :=
  let escaped :=
    n ≫= (fun c => if (c =? 92)%N || (c =? 44)%N || (c =? 59)%N
                    then [92%N; c] else [c]) in
  let one_line := (fun c => if (c =? 10)%N then 32%N else c) <$> escaped in
  filter (fun c => negb (is_control c)) one_line.

(** The callback of [contacts.forEach] (bot.js 299-311): the content with
    the card of one contact appended. *)
Definition append_card (vcfContent : Js.str) (contact : Contact) : Js.str :=
  let escapedName := escape_name (name contact) in
  let vcfContent := vcfContent ++ Js.lit "BEGIN:VCARD" ++ Js.nl in
  let vcfContent := vcfContent ++ Js.lit "VERSION:3.0" ++ Js.nl in
  let vcfContent := vcfContent ++ Js.lit "FN:" ++ escapedName ++ Js.nl in
  let vcfContent :=
    vcfContent ++ Js.lit "TEL;TYPE=CELL:" ++ phone contact ++ Js.nl in
  vcfContent ++ Js.lit "END:VCARD" ++ Js.nl.

(** [generateVcf(contacts)] (bot.js 296-314). *)
Definition generateVcf (contacts : list Contact) : Js.str :=
  foldl append_card [] contacts.

(** The class of [sanitizeFileName]: the characters [<], [>], [:], the
    double quote, [/], the backslash, [|], [?], the asterisk, and the
    controls below U+0020. *)
Definition is_reserved (c : N) : bool :=
  (c =? 60)%N || (c =? 62)%N || (c =? 58)%N || (c =? 34)%N || (c =? 47)%N ||
  (c =? 92)%N || (c =? 124)%N || (c =? 63)%N || (c =? 42)%N || (c <=? 0x1F)%N.

(** [sanitizeFileName(fileName)] (bot.js 317-322). *)
Definition sanitizeFileName (fileName : Js.str) : Js.str :=
  Js.trim (filter (fun c => negb (is_reserved c)) fileName).

End Contacts.

(** ** What the conversion commands compute (bot.js 452-792, 1105-1150) *)

Module Commands.
Import Contacts.

(** One turn of the split loop of [/cv], [/pt] and [/pv] (bot.js 489-495,
    690-696, 756-762).  The state is [(contactGroups, currentIndex)]. *)
Definition split_step {A} (contacts : list A)
    (contactsPerFile remainingContacts : nat)
    (st : list (list A) * nat) (i : nat) : list (list A) * nat :=
  let groupSize :=
    contactsPerFile + (if i <? remainingContacts then 1 else 0) in
  if 0 <? groupSize then
    (st.1 ++ [Delivery.slice contacts st.2 (st.2 + groupSize)], st.2 + groupSize)
  else st.

(** The largest value the counter of a [for] loop reaches: a double holds
    every integer up to 2^53, and [i++] leaves 2^53 as it is. *)
Definition max_counter : N := 2 ^ 53.

(** The loop run for [turns] values of [i], for a split count that it
    reaches. *)
Definition split_loop {A} (contacts : list A) (turns : nat) : list (list A) :=
  let contactsPerFile := length contacts / turns in
  let remainingContacts := length contacts mod turns in
  (foldl (split_step contacts contactsPerFile remainingContacts) ([], 0)
     (seq 0 turns)).1.

(** The value of [contactGroups] after the loop (bot.js 483-495), for the
    split count [parseInt(match[2])].  The commands reject [splitCount < 1]
    before they reach it.  The count is a double: the integer nearest to the
    digits that a double holds, or [Infinity] when the digits run past the
    largest double; any number above 2^53 stands for that here, as the loop
    treats them alike.  Up to 2^53 the counter [i] takes the values 0, 1,
    ... one by one and the loop ends after [splitCount] turns, the quotient
    and the remainder of the array length being those of the integers.
    Above 2^53 the counter stops at 2^53, [i < splitCount] stays true and
    the loop never ends: the result is [None], and the command never
    replies. *)
Definition contactGroups {A} (contacts : list A) (splitCount : N)
  : option (list (list A)) :=
  if (max_counter <? splitCount)%N then None
  else Some (split_loop contacts (N.to_nat splitCount)).

(** [group.map((contact, idx) => ({ name: `${prefix} ${idx + 1}`, phone:
    contact.phone }))] (bot.js 500-503, 571-574, 613-621). *)
Definition renumber (prefix : Js.str) (group : list Contact) : list Contact :=
  imap
    (fun idx contact =>
       {| name := prefix ++ Js.lit " " ++ Js.dec (idx + 1);
          phone := phone contact |})
    group.

(** [contacts.map(contact => contact.phone.substring(1)).join('\n')]
    (bot.js 702, 817, 904, 935, 966). *)
Definition txt_content (contacts : list Contact) : Js.str :=
  Js.join Js.nl ((fun contact => Js.substring1 (phone contact)) <$> contacts).

(** A file a command writes with [fs.writeFileSync(outputPath, content)]
    and hands to [sendFilesInGroups] as [{ path: outputPath, count:
    group.length }]. *)
Record OutputFile : Type :=
  { path : Js.str; content : Js.str; count : nat }.

(** [vcfFiles] of [/cv] (bot.js 499-508), for the start number
    [parseInt(match[4])], a double like the split count.  [startNumber + i]
    is a sum of doubles: it is the sum of the integers, and its text in the
    template literal the decimal of that integer, as long as it does not
    pass 2^53.  Past 2^53 the sum is rounded, so that two groups can get
    the same number, and it is printed in the shortest digits that give the
    double back.  The files are given here when every file number stays
    within 2^53; [None] stands for the other inputs, on which the code is
    not embedded. *)
Definition cv_files (contactPrefix fileName : Js.str) (startNumber : N)
    (groups : list (list Contact)) : option (list OutputFile) :=
  if forallb (fun i => (startNumber + N.of_nat i <=? max_counter)%N)
       (seq 0 (length groups))
  then
    Some
      (imap
         (fun i group =>
            let fileNumber := (startNumber + N.of_nat i)%N in
            let vcfContent := generateVcf (renumber contactPrefix group) in
            let safeFileName :=
              sanitizeFileName (fileName ++ Js.lit " " ++ Js.dec_N fileNumber) in
            let outputPath := Js.lit "./" ++ safeFileName ++ Js.lit ".vcf" in
            {| path := outputPath; content := vcfContent;
               count := length group |})
         groups)
  else None.

(** [txtFiles] of [/pt] (bot.js 700-705). *)
Definition pt_files (fileName : Js.str) (groups : list (list Contact))
  : list OutputFile :=
  imap
    (fun i group =>
       let safeFileName :=
         sanitizeFileName (fileName ++ Js.lit " " ++ Js.dec (i + 1)) in
       let outputPath := Js.lit "./" ++ safeFileName ++ Js.lit ".txt" in
       let content := txt_content group in
       {| path := outputPath; content := content; count := length group |})
    groups.

(** [vcfFiles] of [/pv] (bot.js 766-774). *)
Definition pv_files (fileName : Js.str) (groups : list (list Contact))
  : list OutputFile :=
  imap
    (fun i group =>
       let safeFileName :=
         sanitizeFileName (fileName ++ Js.lit " " ++ Js.dec (i + 1)) in
       let vcfContent :=
         generateVcf
           ((fun c => {| name := name c; phone := phone c |}) <$> group) in
       let outputPath := Js.lit "./" ++ safeFileName ++ Js.lit ".vcf" in
       {| path := outputPath; content := vcfContent; count := length group |})
    groups.

(** The two-group form of [/an] (bot.js 603-623): [None] when the command
    replies with an error instead. *)
Definition an_dual (adminPrefix : Js.str) (adminCount : nat)
    (navyPrefix : Js.str) (navyCount : nat) (contacts : list Contact)
  : option (list Contact) :=
  if (adminCount <? 1) || (navyCount <? 1) then None
  else
    let totalNeeded := adminCount + navyCount in
    if length contacts <? totalNeeded then None
    else
      let adminContacts :=
        renumber adminPrefix (Delivery.slice contacts 0 adminCount) in
      let navyContacts :=
        renumber navyPrefix
          (Delivery.slice contacts adminCount (adminCount + navyCount)) in
      Some (adminContacts ++ navyContacts).

(** [text.split(...)] for the pattern of a newline after an optional
    carriage return (bot.js 1116): a carriage return right before a
    newline belongs to the separator. *)
Fixpoint split_lines (s : Js.str) : list Js.str :=
  match s with
  | [] => [[]]
  | c :: s' =>
      if (c =? 10)%N then [] :: split_lines s'
      else if (c =? 13)%N && Js.startsWith Js.nl s' then split_lines s'
      else
        match split_lines s' with
        | piece :: pieces => (c :: piece) :: pieces
        | [] => [[c]]
        end
  end.

(** Step 1 of the dialogue of [/anc]: the numbers kept (bot.js
    1116-1118); the step is repeated when there is none. *)
Definition anc_numbers (text : Js.str) : list Js.str :=
  let numbers := filter (fun n => n <> []) (Js.trim <$> split_lines text) in
  let numbers :=
    (fun n => filter (fun c => Js.is_digit c || (c =? 43)%N) n) <$> numbers in
  filter (fun n => 10 <= length n /\ length n <= 15) numbers.

(** Step 3 of the dialogue: the contacts written (bot.js 1139-1142). *)
Definition anc_contacts (numbers : list Js.str) (contactName : Js.str)
  : list Contact :=
  imap
    (fun idx num =>
       {| name := contactName ++ Js.lit " " ++ Js.dec (idx + 1);
          phone := if Js.startsWith (Js.lit "+") num then num
                   else Js.lit "+" ++ num |})
    numbers.

End Commands.

(** ** User management (bot.js 400-449) *)

Module Users.

(** [userData]; the entries of [users.json] are strings. *)
Record UserData : Type := { admins : list Js.str; users : list Js.str }.

(** [isAdmin(userId)] (bot.js 400-402), for the number [ctx.from.id]. *)
Definition isAdmin (userData : UserData) (userId : nat) : bool :=
  bool_decide (Js.dec userId ∈ admins userData).

(** The longest run of digits at the start of [s]. *)
Fixpoint leading_digits (s : Js.str) : Js.str :=
  match s with
  | c :: s' => if Js.is_digit c then c :: leading_digits s' else []
  | [] => []
  end.

(** [text.match(...)] for the pattern of [command] at the start of the
    text, then white space, then a captured run of digits (bot.js 415,
    435): the capture. *)
Definition match_user_id (command text : Js.str) : option Js.str :=
  if Js.startsWith command text then
    match drop (length command) text with
    | c :: rest =>
        if Js.is_space c then
          match leading_digits (Js.trimStart rest) with
          | [] => None
          | d :: ds => Some (d :: ds)
          end
        else None
    | [] => None
    end
  else None.

(** What a command ends with: one of its replies, or the exception of
    [fs.writeFileSync], which leaves the reply unsent. *)
Inductive Ending : Type :=
  | AdminOnly
  | Usage
  | Added (userId : Js.str)
  | AlreadyRegistered (userId : Js.str)
  | Removed (userId : Js.str)
  | NotFound (userId : Js.str)
  | WriteFailed.

(** [/add] (bot.js 410-428), from the user [from_id] with the message
    [text]; [write_ok] tells whether [fs.writeFileSync] returns. *)
Definition add (write_ok : bool) (userData : UserData) (from_id : nat)
    (text : Js.str) : Ending * UserData :=
  if negb (isAdmin userData from_id) then (AdminOnly, userData)
  else
    match match_user_id (Js.lit "/add") text with
    | None => (Usage, userData)
    | Some userId =>
        if negb (bool_decide (userId ∈ users userData)) then
          let pushed :=
            {| admins := admins userData;
               users := users userData ++ [userId] |} in
          if write_ok then (Added userId, pushed) else (WriteFailed, pushed)
        else (AlreadyRegistered userId, userData)
    end.

(** [/remove] (bot.js 430-449). *)
Definition remove (write_ok : bool) (userData : UserData) (from_id : nat)
    (text : Js.str) : Ending * UserData :=
  if negb (isAdmin userData from_id) then (AdminOnly, userData)
  else
    match match_user_id (Js.lit "/remove") text with
    | None => (Usage, userData)
    | Some userId =>
        match list_find (fun u => u = userId) (users userData) with
        | Some (index, _) =>
            let spliced :=
              {| admins := admins userData;
                 users := delete index (users userData) |} in
            if write_ok then (Removed userId, spliced)
            else (WriteFailed, spliced)
        | None => (NotFound userId, userData)
        end
    end.

End Users.


(** ** Vocabulary of the statements *)

#[global] Instance TimerSite_eq_dec : EqDecision TimerSite.
Proof. solve_decision. Defined.

(** The delays awaited at one [setTimeout] site, in order. *)
Definition waits (site : TimerSite) (w : World) : list Q :=
  (filter (fun t => t.1 = site) (timers w)).*2.

(** [b], multiplied [i] times by 1.5 as the code does it. *)
Fixpoint backoff_pow (b : Q) (i : nat) : Q :=
  match i with
  | O => b
  | S j => (backoff_pow b j * (3 # 2))%Q
  end.

(** Every state a limiter built by [new RateLimiter(iv)] can be in. *)
Definition limiter (iv : Q) (busy : bool) (q : list RateLimiter.Item)
  : RateLimiter.t :=
  RateLimiter.with_queue q (RateLimiter.with_processing busy (RateLimiter.new iv)).

(** The attempts the queued items may still make before they are given up. *)
Definition work (rl : RateLimiter.t) : nat :=
  sum_list_with
    (fun it => RateLimiter.maxRetries rl - RateLimiter.retries it)
    (RateLimiter.queue rl).

(** Every queued item has retries left, as holds for whatever [add] pushes
    and [process] re-enqueues. *)
Definition retries_left (rl : RateLimiter.t) : Prop :=
  Forall (fun it => RateLimiter.retries it < RateLimiter.maxRetries rl)
    (RateLimiter.queue rl).

(** A task that stays clear of the limiter's own bookkeeping: it settles no
    promise of the queue, it does not read the clock (the readings are
    numbered, so a task that read it would renumber those of the limiter),
    and it does not await at the limiter's backoff site. *)
Definition queue_blind (tk : Task) : Prop :=
  forall n w,
    settled (tk n w).2 = settled w /\
    clock_reads (tk n w).2 = clock_reads w /\
    waits QueueBackoff (tk n w).2 = waits QueueBackoff w.

(** Between the states [before] and [after] of limiter and world lies a
    call of [process()] that attempted the item [it]: the item was at the
    head of the queue, with whatever backoff time; its task was invoked in
    the world of [before], as invocation number [retries it]; and [after]
    holds what the task did, and what the limiter made of the way it
    ended: the promise resolved with the value returned, or the error
    logged and the promise rejected with it or left pending. *)
Definition attempts (before after : RateLimiter.t * World)
    (it : RateLimiter.Item) : Prop :=
  let ran := RateLimiter.task it (RateLimiter.retries it) before.2 in
  (exists b,
     head (RateLimiter.queue before.1) =
       Some (RateLimiter.with_backoffTime b it)) /\
  sends after.2 = sends ran.2 /\
  replies after.2 = replies ran.2 /\
  match ran.1 with
  | Returns v =>
      settled after.2 =
        settled ran.2 ++ [(RateLimiter.promise it, Returns v)] /\
      console after.2 = console ran.2
  | Throws e =>
      console after.2 = console ran.2 ++ [RateLimiterError e] /\
      (settled after.2 = settled ran.2 \/
       settled after.2 =
         settled ran.2 ++ [(RateLimiter.promise it, Throws e)])
  end.

(** A property of the world that the limiter's own effects keep. *)
Definition limiter_stable (env : Env) (R : World -> Prop) : Prop :=
  forall w, R w ->
    R (Date_now env w).2 /\
    R (Math_random env w).2 /\
    (forall p o, R (settle p o w)) /\
    (forall ms, R (setTimeout QueueBackoff ms w)) /\
    (forall ms, R (setTimeout QueueInterval ms w)) /\
    (forall e, R (console_error (RateLimiterError e) w)).

(** A task keeps [R]. *)
Definition task_keeps (R : World -> Prop) (tk : Task) : Prop :=
  forall n w, R w -> R (tk n w).2.

(** A property of the world that submitting a send keeps: the limiter's
    effects and those of the task and of the retry loop around it. *)
Definition sending_stable (env : Env) (R : World -> Prop) : Prop :=
  limiter_stable env R /\
  forall w, R w ->
    R (new_promise w).2 /\
    (forall m, R (telegram_sendMediaGroup env m w).2) /\
    (forall ms, R (setTimeout SendDelay ms w)) /\
    (forall ms, R (setTimeout RetryWait ms w)) /\
    (forall n m e, R (console_error (RetryLog n m e) w)).

(** What follows a rejected submission in the sender's retry loop (bot.js
    119-125), after [rc] earlier rejections and with backoff [b]. *)
Definition after_rejection (env : Env) (rc : nat) (b : Q) (e : value)
    (w : World) : World :=
  let w2 := console_error (RetryLog (S rc) Delivery.maxRetries e) w in
  setTimeout RetryWait (b * (3 # 2) + (Math_random env w2).1 * 1000)%Q
    (Math_random env w2).2.


(** What the limiter and the transport never touch: the reply sink, the file
    system, and the waits of the sender's own loop over the groups. *)
Definition beyond_sending (w : World)
  : list (Message * outcome) * gset string * list (string * bool) * list Q * list Q :=
  (replies w, disk w, unlinks w, waits WarmUp w, waits InterGroup w).

(** The file-system part of the world. *)
Definition fs_of (w : World) : gset string * list (string * bool) :=
  (disk w, unlinks w).

(** How many of the unlink calls [us] removed the path [p]. *)
Definition removals (p : string) (us : list (string * bool)) : nat :=
  length (filter (fun u => u = (p, true)) us).

(** 1 when the path exists, 0 otherwise. *)
Definition on_disk (p : string) (d : gset string) : nat :=
  if bool_decide (p ∈ d) then 1 else 0.

(** The consecutive groups [files.slice(i, i + groupSize)] the loop visits. *)
Definition groups (files : list Slot) : list (list Slot) :=
  (fun g => Delivery.slice files (g * Delivery.groupSize)
              (g * Delivery.groupSize + Delivery.groupSize))
    <$> seq 0 (Delivery.ceil_div (length files) Delivery.groupSize).

(** The two ways a group is accounted for. *)
Definition account (sent : bool) (g : list Slot) (v : Delivery.Vars)
  : Delivery.Vars :=
  if sent then
    {| Delivery.successCount := Delivery.successCount v + length g;
       Delivery.failedFiles := Delivery.failedFiles v |}
  else
    {| Delivery.successCount := Delivery.successCount v;
       Delivery.failedFiles := Delivery.failedFiles v ++ g |}.

(** The variables after the groups [gs] met the fates [fates], in order. *)
Fixpoint tally (fates : list bool) (gs : list (list Slot)) (v : Delivery.Vars)
  : Delivery.Vars :=
  match fates, gs with
  | b :: fates', g :: gs' => tally fates' gs' (account b g v)
  | _, _ => v
  end.

(** The contacts with the phones [phones], named [prefix 1], [prefix 2],
    ... in order. *)
Definition numbered (prefix : Js.str) (phones : list Js.str)
  : list Contacts.Contact :=
  imap
    (fun i p =>
       {| Contacts.name := prefix ++ Js.lit " " ++ Js.dec (i + 1);
          Contacts.phone := p |})
    phones.

(** A phone number in the form [formatPhoneNumber] returns. *)
Definition formatted (p : Js.str) : Prop :=
  Contacts.formatPhoneNumber p = Some p.

(** The card [generateVcf] appends for one contact (bot.js 306-310). *)
Definition vcard (c : Contacts.Contact) : Js.str :=
  (Js.lit "BEGIN:VCARD" ++ Js.nl) ++
  (Js.lit "VERSION:3.0" ++ Js.nl) ++
  (Js.lit "FN:" ++ Contacts.escape_name (Contacts.name c) ++ Js.nl) ++
  (Js.lit "TEL;TYPE=CELL:" ++ Contacts.phone c ++ Js.nl) ++
  (Js.lit "END:VCARD" ++ Js.nl).

(** The five lines of that card. *)
Definition vcard_lines (c : Contacts.Contact) : list Js.str :=
  [ Js.lit "BEGIN:VCARD";
    Js.lit "VERSION:3.0";
    Js.lit "FN:" ++ Contacts.escape_name (Contacts.name c);
    Js.lit "TEL;TYPE=CELL:" ++ Contacts.phone c;
    Js.lit "END:VCARD" ].

(** A code unit that [generateVcf] keeps and that the patterns of
    [processVcfFile] read as part of a name: no control, no line
    terminator, no colon. *)
Definition readable (c : N) : bool :=
  negb (Contacts.is_control c) && negb (Js.is_line_terminator c) &&
  negb (c =? 58)%N.

(** A name made of such code units that is not empty and has no white
    space around it. *)
Definition readable_name (n : Js.str) : Prop :=
  n <> [] /\ Js.trim n = n /\ Forall (fun c => readable c = true) n.

(** A readable code unit that [generateVcf] does not escape either: none
    of [\ , ;]. *)
Definition plain (c : N) : bool :=
  readable c && negb ((c =? 92)%N || (c =? 44)%N || (c =? 59)%N).

Definition plain_name (n : Js.str) : Prop :=
  n <> [] /\ Js.trim n = n /\ Forall (fun c => plain c = true) n.

(** A contact under the name [generateVcf] writes for it. *)
Definition escaped (c : Contacts.Contact) : Contacts.Contact :=
  {| Contacts.name := Contacts.escape_name (Contacts.name c);
     Contacts.phone := Contacts.phone c |}.

(** What is left of a card once [split('BEGIN:VCARD')] has removed its
    first line's text. *)
Definition card_body (n p : Js.str) : Js.str :=
  Js.nl ++ (Js.lit "VERSION:3.0" ++ Js.nl) ++ (Js.lit "FN:" ++ n ++ Js.nl) ++
  (Js.lit "TEL;TYPE=CELL:" ++ p ++ Js.nl) ++ (Js.lit "END:VCARD" ++ Js.nl).

(** [piece] put in front of the first of [pieces]. *)
Definition prepend (piece : Js.str) (pieces : list Js.str) : list Js.str :=
  match pieces with
  | p :: ps => (piece ++ p) :: ps
  | [] => [piece]
  end.

(** ** Concrete collaborators and tasks used to exercise the statements *)

Module Scenario.

(** Every collaborator answers at once and without error. *)
Definition quiet : Env :=
  {| date_now := fun _ => 0%Z;
     math_random := fun _ => 0%Q;
     sendMediaGroup := fun _ _ => Returns Undefined;
     reply := fun _ _ => Returns Undefined;
     unlinkSync_error := fun _ => None |}.

(** A task that throws on its first [k] invocations and then returns. *)
Definition flaky (k : nat) : Task :=
  fun n w =>
    if n <? k then (Throws (Str "busy"), w) else (Returns (Str "Success"), w).

(** A clock that shows the time the waits alone take: the item is enqueued
    and first attempted at 0 ms, and with [interval = 3000] and no jitter
    the next attempts come 4500 + 3000, 6750 + 3000 and 10125 + 3000 ms
    later. *)
Definition waiting_clock : Env :=
  {| date_now := fun n => nth n [0; 0; 7500; 17250; 30375]%Z 30375%Z;
     math_random := fun _ => 0%Q;
     sendMediaGroup := fun _ _ => Returns Undefined;
     reply := fun _ _ => Returns Undefined;
     unlinkSync_error := fun _ => None |}.

(** The item [add] builds for promise [p] after [r] failed attempts that
    left the backoff untouched. *)
Definition item (tk : Task) (p r : nat) : RateLimiter.Item :=
  {| RateLimiter.task := tk; RateLimiter.promise := p;
     RateLimiter.retries := r; RateLimiter.backoffTime := 3000;
     RateLimiter.startTime := 0 |}.

(** Two submissions to the shared limiter: the first fails twice, the
    second succeeds at once. *)
Definition two_submissions : RateLimiter.t * World :=
  let '(_, rl1, w1) :=
    RateLimiter.enqueue quiet (flaky 2) rateLimiter (initial_world ∅) in
  let '(_, rl2, w2) := RateLimiter.enqueue quiet (flaky 0) rl1 w1 in
  RateLimiter.process quiet (RateLimiter.process_fuel rl2) rl2 w2.

(** A reply sink that refuses progress messages. *)
Definition muted : Env :=
  {| date_now := fun _ => 0%Z;
     math_random := fun _ => 0%Q;
     sendMediaGroup := fun _ _ => Returns Undefined;
     reply := fun _ m =>
       match m with
       | Progress _ _ => Throws (Str "blocked")
       | _ => Returns Undefined
       end;
     unlinkSync_error := fun _ => None |}.

(** A reply sink that refuses the summary. *)
Definition no_summary : Env :=
  {| date_now := fun _ => 0%Z;
     math_random := fun _ => 0%Q;
     sendMediaGroup := fun _ _ => Returns Undefined;
     reply := fun _ m =>
       match m with
       | Summary _ _ _ => Throws (Str "blocked")
       | _ => Returns Undefined
       end;
     unlinkSync_error := fun _ => None |}.

(** A reply sink that refuses everything. *)
Definition deaf : Env :=
  {| date_now := fun _ => 0%Z;
     math_random := fun _ => 0%Q;
     sendMediaGroup := fun _ _ => Returns Undefined;
     reply := fun _ _ => Throws (Str "blocked");
     unlinkSync_error := fun _ => None |}.

(** A file system that refuses every deletion. *)
Definition locked : Env :=
  {| date_now := fun _ => 0%Z;
     math_random := fun _ => 0%Q;
     sendMediaGroup := fun _ _ => Returns Undefined;
     reply := fun _ _ => Returns Undefined;
     unlinkSync_error := fun _ => Some (Str "EBUSY") |}.

(** A transport that refuses every send; the jitter is always 500 ms. *)
Definition offline : Env :=
  {| date_now := fun _ => 0%Z;
     math_random := fun _ => (1 # 2)%Q;
     sendMediaGroup := fun _ _ => Throws (Str "429");
     reply := fun _ _ => Returns Undefined;
     unlinkSync_error := fun _ => None |}.

Definition file (p : string) : Slot := Some {| path := p; count := None |}.

Definition three_files : list Slot :=
  [file "1.vcf"; file "2.vcf"; file "3.vcf"].

Definition three_media : list Media :=
  [ {| mtype := "document"; source := "1.vcf" |};
    {| mtype := "document"; source := "2.vcf" |};
    {| mtype := "document"; source := "3.vcf" |} ].


Definition on_disk_3 : World := initial_world {[ "1.vcf"; "2.vcf"; "3.vcf" ]}.

(** The world once the three files have been sent, on the muted sink. *)
Definition sent_3 : World :=
  match Delivery.retry_loop muted Delivery.maxRetries three_media 0 3000
          rateLimiter on_disk_3 with
  | Some (_, _, w) => w
  | None => on_disk_3
  end.

(** A task that throws at every invocation, each time another error. *)
Definition failing : Task :=
  fun n w => (Throws (Str ("busy " +:+ pretty n)), w).

(** Two queued items: the first fails once, the second succeeds at once. *)
Definition retry_queue : list RateLimiter.Item :=
  [item (flaky 1) 0 0; item (flaky 0) 1 0].

(** The limiter and the world after [n] calls of [process()] on them. *)
Definition after_calls (n : nat) : RateLimiter.t * World :=
  RateLimiter.process quiet n (limiter 3000 false retry_queue) (initial_world ∅).

(** A transport that refuses every send and a reply sink that refuses the
    failure notification. *)
Definition cut_off : Env :=
  {| date_now := fun _ => 0%Z;
     math_random := fun _ => 0%Q;
     sendMediaGroup := fun _ _ => Throws (Str "429");
     reply := fun _ m =>
       match m with
       | GroupFailed _ => Throws (Str "blocked")
       | _ => Returns Undefined
       end;
     unlinkSync_error := fun _ => None |}.

End Scenario.

(** ** Concrete contact files used to exercise the statements *)

Module Samples.
Import Contacts.

(** A phone number as a user writes it. *)
Definition written_number : Js.str := Js.lit "0812-3456-7890".

(** Two contacts as the parsers store them. *)
Definition two_contacts : list Contact :=
  [ {| name := Js.lit "Contact 1"; phone := Js.lit "+081234567890" |};
    {| name := Js.lit "Contact 2"; phone := Js.lit "+6281234567891" |} ].

(** A contact whose name holds a comma. *)
Definition family : list Contact :=
  [ {| name := Js.lit "Doe, Jane"; phone := Js.lit "+6281234567892" |} ].

(** A text file: a number, a line without digits, a number with blanks. *)
Definition numbers_txt : Js.str :=
  Js.lit "081234567890" ++ Js.nl ++ Js.lit "home" ++ Js.nl ++
  Js.lit " +62 812-3456-7891 ".

(** Two numbers on lines that end with a carriage return and a newline. *)
Definition numbers_crlf : Js.str :=
  Js.lit "0812 3456 7890" ++ [13%N; 10%N] ++ Js.lit "6281234567891" ++
  [13%N; 10%N].

(** One admin and one registered user. *)
Definition staff : Users.UserData :=
  {| Users.admins := [Js.lit "1001"]; Users.users := [Js.lit "2002"] |}.

End Samples.

Import RateLimiter.

Section LimiterFacts.
Variable env : Env.

Lemma waits_setTimeout site site' ms w :
  waits site (setTimeout site' ms w) =
    waits site w ++ (if decide (site' = site) then [ms] else []).
Proof.
  unfold waits. cbn. rewrite filter_app, fmap_app. f_equal.
  unfold filter; cbn. destruct (decide (site' = site)); reflexivity.
Qed.

Lemma gives_up_cases rl it w :
  (maxRetries rl <= retries it /\ gives_up env rl it w = (true, w)) \/
  (retries it < maxRetries rl /\
   gives_up env rl it w =
     ((timeout rl <? date_now env (clock_reads w) - startTime it)%Z,
      (Date_now env w).2)).
Proof.
  unfold gives_up.
  destruct (Nat.leb_spec (maxRetries rl) (retries it)); [left|right]; auto.
Qed.

Lemma on_failure_gives_up rl it rest e w :
  maxRetries rl <= S (retries it) \/
    (timeout rl < date_now env (clock_reads w) - startTime it)%Z ->
  exists w2,
    on_failure env rl it rest e w = (with_queue rest rl, w2) /\
    settled w2 = settled w ++ [(promise it, Throws e)] /\
    waits QueueBackoff w2 = waits QueueBackoff w.
Proof.
  intros Hc. unfold on_failure.
  destruct (gives_up_cases rl (with_retries (S (retries it)) it)
              (console_error (RateLimiterError e) w)) as [[Hle ->]|[Hlt ->]];
    cbn in Hle || cbn in Hlt.
  - eexists; split; [reflexivity|]. split; reflexivity.
  - destruct Hc as [Hc|Hc]; [lia|].
    cbn -[Z.ltb]. apply Z.ltb_lt in Hc. rewrite Hc.
    eexists; split; [reflexivity|]. split; reflexivity.
Qed.

Lemma on_failure_retries rl it rest e w :
  S (retries it) < maxRetries rl ->
  (date_now env (clock_reads w) - startTime it <= timeout rl)%Z ->
  exists w2,
    on_failure env rl it rest e w = (with_queue (rest ++ [retried rl it]) rl, w2) /\
    settled w2 = settled w /\
    clock_reads w2 = S (clock_reads w) /\
    waits QueueBackoff w2 =
      waits QueueBackoff w ++ [(backoffTime it * backoffMultiplier rl)%Q].
Proof.
  intros Hr Ht. unfold on_failure.
  destruct (gives_up_cases rl (with_retries (S (retries it)) it)
              (console_error (RateLimiterError e) w)) as [[Hle ->]|[Hlt ->]];
    cbn in Hle || cbn in Hlt; [lia|].
  cbn -[Z.ltb]. apply Z.ltb_ge in Ht. rewrite Ht.
  eexists; split; [reflexivity|]. split; [reflexivity|]. split; [reflexivity|].
  rewrite waits_setTimeout. reflexivity.
Qed.

(** The three ways one call of [process()] on a non-empty queue ends. *)
Lemma process_step_cons rl w it rest :
  queue rl = it :: rest ->
  process_step env rl w =
    let rl1 := with_processing true rl in
    let (o, w1) := task it (retries it) w in
    let '(rl2, w2) :=
      match o with
      | Returns v =>
          (with_queue (reset_head rl1 rest) rl1,
           settle (promise it) (Returns v) w1)
      | Throws e => on_failure env rl1 it rest e w1
      end in
    (rl2,
     setTimeout QueueInterval
       (interval rl2 + (Math_random env w2).1 * 1000)%Q (Math_random env w2).2,
     true).
Proof.
  intros H. unfold process_step. rewrite H. cbv zeta.
  destruct (task it (retries it) w) as [[v|e] w1]; [reflexivity|].
  destruct (on_failure env (with_processing true rl) it rest e w1). reflexivity.
Qed.

Lemma on_failure_shape rl it rest e w :
  exists q' w',
    on_failure env rl it rest e w = (with_queue q' rl, w') /\
    (q' = rest \/ q' = rest ++ [retried rl it]).
Proof.
  unfold on_failure.
  destruct (gives_up env rl (with_retries (S (retries it)) it)
              (console_error (RateLimiterError e) w)) as [[] w2];
    eauto.
Qed.

Lemma process_step_shape rl w it rest :
  queue rl = it :: rest ->
  exists q' w',
    process_step env rl w = (with_queue q' (with_processing true rl), w', true) /\
    (q' = reset_head rl rest \/ q' = rest \/ q' = rest ++ [retried rl it]).
Proof.
  intros H. rewrite (process_step_cons _ _ _ _ H). cbn zeta.
  destruct (task it (retries it) w) as [[v|e] w1].
  - do 2 eexists. split; [reflexivity|]. left. reflexivity.
  - destruct (on_failure_shape (with_processing true rl) it rest e w1)
      as (q' & w' & -> & Hq).
    do 2 eexists. split; [reflexivity|]. right. exact Hq.
Qed.

Lemma process_unfold n rl w :
  process env (S n) rl w =
    let '(rl1, w1, again) := process_step env rl w in
    if again then process env n rl1 w1 else (rl1, w1).
Proof. reflexivity. Qed.

(** A call of [process()] that finds the queue empty changes nothing when
    it is made again. *)
Lemma process_step_at_rest rl w rl1 w1 :
  process_step env rl w = (rl1, w1, false) ->
  (process_step env rl1 w1).1 = (rl1, w1).
Proof.
  destruct (queue rl) as [|it rest] eqn:Hq.
  - unfold process_step at 1. rewrite Hq. intros [= <- <-].
    unfold process_step. cbn [queue with_processing]. rewrite Hq. reflexivity.
  - destruct (process_step_shape rl w it rest Hq) as (q' & w' & -> & _).
    discriminate.
Qed.

(** [j + 1] calls of the chain are [j] calls followed by one more. *)
Lemma process_S_last j : forall rl w,
  process env (S j) rl w =
    (process_step env (process env j rl w).1 (process env j rl w).2).1.
Proof.
  induction j as [|j IH]; intros rl w.
  - cbn [process fst snd].
    destruct (process_step env rl w) as [[rl1 w1] []]; reflexivity.
  - rewrite (process_unfold (S j)), (process_unfold j).
    destruct (process_step env rl w) as [[rl1 w1] []] eqn:Hs.
    + apply IH.
    + cbn [fst snd]. symmetry. apply (process_step_at_rest rl w), Hs.
Qed.

Lemma promise_reset_head rl q : promise <$> reset_head rl q = promise <$> q.
Proof. destruct q; reflexivity. Qed.

Lemma reset_head_up_to_backoff rl q :
  with_backoffTime 0 <$> reset_head rl q = with_backoffTime 0 <$> q.
Proof. destruct q; reflexivity. Qed.

(** Calls of [process()] take the queue from the front, in order; on the
    way an item changes in its backoff time only. *)
Lemma process_items j : forall rl w,
  j <= length (queue rl) ->
  exists tl,
    with_backoffTime 0 <$> queue (process env j rl w).1 =
      drop j (with_backoffTime 0 <$> queue rl) ++ tl.
Proof.
  induction j as [|j IH]; intros rl w Hj.
  - exists []. cbn [process fst]. rewrite drop_0, app_nil_r. reflexivity.
  - destruct (queue rl) as [|it rest] eqn:Hq; [cbn in Hj; lia|].
    destruct (process_step_shape rl w it rest Hq) as (q' & w' & Hs & Hq').
    rewrite process_unfold, Hs.
    assert (exists x, with_backoffTime 0 <$> q' =
                        (with_backoffTime 0 <$> rest) ++ x) as [x Hx].
    { destruct Hq' as [-> | [-> | ->]].
      - exists []. rewrite reset_head_up_to_backoff, app_nil_r. reflexivity.
      - exists []. rewrite app_nil_r. reflexivity.
      - eexists. rewrite fmap_app. reflexivity. }
    destruct (IH (with_queue q' (with_processing true rl)) w') as [tl Htl].
    { cbn [queue with_queue].
      apply (f_equal length) in Hx. rewrite length_app, !length_fmap in Hx.
      cbn [length] in Hj. lia. }
    cbn [queue with_queue] in Htl. rewrite Htl, Hx. cbn [fmap list_fmap drop].
    rewrite drop_app_le by (rewrite length_fmap; cbn [length] in Hj; lia).
    rewrite <- app_assoc. eauto.
Qed.

Lemma same_up_to_backoff (x it : Item) :
  with_backoffTime 0 x = with_backoffTime 0 it ->
  x = with_backoffTime (backoffTime x) it.
Proof.
  destruct x, it. unfold with_backoffTime. cbn. intros [= -> -> -> ->].
  reflexivity.
Qed.

(** After [j] calls the [j]-th queued item is at the head. *)
Lemma served_item j rl w it :
  queue rl !! j = Some it ->
  exists b,
    head (queue (process env j rl w).1) = Some (with_backoffTime b it).
Proof.
  intros Hit. pose proof (lookup_lt_Some _ _ _ Hit) as Hj.
  destruct (process_items j rl w) as [tl Htl]; [lia|].
  assert (with_backoffTime 0 <$> head (queue (process env j rl w).1) =
          Some (with_backoffTime 0 it)) as Hh.
  { rewrite head_lookup, <- list_lookup_fmap, Htl.
    rewrite lookup_app_l by (rewrite length_drop, length_fmap; lia).
    rewrite lookup_drop, Nat.add_0_r, list_lookup_fmap, Hit. reflexivity. }
  destruct (head (queue (process env j rl w).1)) as [x|]; [|discriminate].
  change (Some (with_backoffTime 0 x) = Some (with_backoffTime 0 it)) in Hh.
  apply (inj Some) in Hh. exists (backoffTime x). f_equal.
  apply same_up_to_backoff, Hh.
Qed.

(** One call of [process()] attempts the item at the head. *)
Lemma process_step_attempts rl w it b rest :
  queue rl = with_backoffTime b it :: rest ->
  attempts (rl, w) (process_step env rl w).1 it.
Proof.
  intros Hq. unfold attempts. cbn [fst snd].
  rewrite (process_step_cons rl w _ rest Hq). cbv zeta.
  change (task (with_backoffTime b it) (retries (with_backoffTime b it)) w)
    with (task it (retries it) w).
  change (promise (with_backoffTime b it)) with (promise it).
  split; [exists b; rewrite Hq; reflexivity|].
  destruct (task it (retries it) w) as [[v|e] w1]; cbn [fst snd].
  - repeat split.
  - unfold on_failure.
    destruct (gives_up_cases (with_processing true rl)
                (with_retries (S (retries (with_backoffTime b it)))
                   (with_backoffTime b it))
                (console_error (RateLimiterError e) w1)) as [[_ ->]|[_ ->]].
    + repeat split. right. reflexivity.
    + destruct (timeout (with_processing true rl) <? _)%Z;
        repeat split; [right | left]; reflexivity.
Qed.

(** The [j + 1]-th call of the chain attempts the [j]-th queued item. *)
Lemma chain_attempts j rl w it :
  queue rl !! j = Some it ->
  attempts (process env j rl w) (process env (S j) rl w) it.
Proof.
  intros Hit. rewrite process_S_last.
  destruct (served_item j rl w it Hit) as [b Hb].
  destruct (process env j rl w) as [rlj wj]. cbn [fst snd] in Hb |- *.
  destruct (queue rlj) as [|x rest] eqn:Hq; [discriminate|].
  injection Hb as ->.
  apply (process_step_attempts rlj wj it b rest Hq).
Qed.

(** C3.  Submissions join the queue at its tail.  The chain serves the
    queue first in, first out: its [j + 1]-th call finds the [j]-th queued
    item at the head and invokes that item's task, in the world the calls
    before it left, and settles or keeps the item's promise by the way the
    task ends.  An item whose attempt fails and is retried goes to the
    tail: the following calls attempt each item that was pending behind
    it, once and in order, and only then is it attempted again, with its
    retry count advanced. *)
Theorem fifo_service_with_tail_retry
    (iv : Q) (busy : bool) (q : list Item) (w : World) :
  let calls n := process env n (limiter iv busy q) w in
  (forall tk,
     queue (enqueue env tk (limiter iv busy q) w).1.2 =
       q ++ [ {| task := tk; promise := promises w; retries := 0;
                 backoffTime := iv;
                 startTime := date_now env (clock_reads w) |} ]) /\
  (forall j it, q !! j = Some it -> attempts (calls j) (calls (S j)) it) /\
  (forall it pending e w1,
     q = it :: pending ->
     task it (retries it) w = (Throws e, w1) ->
     S (retries it) < 5 ->
     (date_now env (clock_reads w1) - startTime it <= 30000)%Z ->
     queue (calls 1).1 =
       pending ++ [ {| task := task it; promise := promise it;
                       retries := S (retries it);
                       backoffTime := backoffTime it * (3 # 2);
                       startTime := startTime it |} ] /\
     (forall j other,
        pending !! j = Some other ->
        attempts (calls (1 + j)) (calls (2 + j)) other) /\
     attempts (calls (1 + length pending)) (calls (2 + length pending))
       {| task := task it; promise := promise it;
          retries := S (retries it);
          backoffTime := backoffTime it * (3 # 2);
          startTime := startTime it |}).
Proof.
  intros calls. split; [|split].
  - intros tk. reflexivity.
  - intros j it Hit. apply chain_attempts. exact Hit.
  - intros it pending e w1 -> Htk Hr Ht.
    assert (Hstep : exists w2,
      process_step env (limiter iv busy (it :: pending)) w =
        (limiter iv true (pending ++ [retried (RateLimiter.new iv) it]), w2, true)).
    { rewrite (process_step_cons (limiter iv busy (it :: pending)) w it pending
                 eq_refl).
      cbn zeta. rewrite Htk.
      destruct (on_failure_retries
                  (with_processing true (limiter iv busy (it :: pending)))
                  it pending e w1 Hr Ht) as (w2 & -> & _).
      eexists. reflexivity. }
    destruct Hstep as [w2 Hstep].
    assert (Hsucc : forall j,
      calls (S j) =
      process env j
        (limiter iv true (pending ++ [retried (RateLimiter.new iv) it])) w2).
    { intros j. unfold calls. rewrite process_unfold, Hstep. reflexivity. }
    split; [|split].
    + rewrite (Hsucc 0). reflexivity.
    + intros j other Hj.
      change (1 + j) with (S j). change (2 + j) with (S (S j)).
      rewrite !Hsucc. apply chain_attempts.
      cbn [queue limiter with_queue]. apply lookup_app_l_Some. exact Hj.
    + change (1 + length pending) with (S (length pending)).
      change (2 + length pending) with (S (S (length pending))).
      rewrite !Hsucc. apply chain_attempts.
      cbn [queue limiter with_queue].
      rewrite lookup_app_r, Nat.sub_diag by lia. reflexivity.
Qed.

(** *** Invariants of the chain *)

Lemma stable_now R w : limiter_stable env R -> R w -> R (Date_now env w).2.
Proof. intros HR Hw. apply (HR w Hw). Qed.
Lemma stable_random R w : limiter_stable env R -> R w -> R (Math_random env w).2.
Proof. intros HR Hw. apply (HR w Hw). Qed.
Lemma stable_settle R w p o : limiter_stable env R -> R w -> R (settle p o w).
Proof. intros HR Hw. apply (HR w Hw). Qed.
Lemma stable_backoff R w ms :
  limiter_stable env R -> R w -> R (setTimeout QueueBackoff ms w).
Proof. intros HR Hw. apply (HR w Hw). Qed.
Lemma stable_interval R w ms :
  limiter_stable env R -> R w -> R (setTimeout QueueInterval ms w).
Proof. intros HR Hw. apply (HR w Hw). Qed.
Lemma stable_console R w e :
  limiter_stable env R -> R w -> R (console_error (RateLimiterError e) w).
Proof. intros HR Hw. apply (HR w Hw). Qed.

Lemma gives_up_keeps R rl it w :
  limiter_stable env R -> R w -> R (gives_up env rl it w).2.
Proof.
  intros HR Hw. unfold gives_up.
  destruct (maxRetries rl <=? retries it); [exact Hw|].
  change (R (Date_now env w).2). apply stable_now; assumption.
Qed.

Lemma on_failure_keeps R rl it rest e w :
  limiter_stable env R -> R w -> R (on_failure env rl it rest e w).2.
Proof.
  intros HR Hw. unfold on_failure.
  assert (H1 : R (console_error (RateLimiterError e) w))
    by (apply stable_console; assumption).
  pose proof (gives_up_keeps R rl (with_retries (S (retries it)) it) _ HR H1) as H2.
  destruct (gives_up env rl (with_retries (S (retries it)) it)
              (console_error (RateLimiterError e) w)) as [[] w2];
    cbn [fst snd] in H2 |- *.
  - apply stable_settle; assumption.
  - apply stable_backoff; assumption.
Qed.

Lemma process_step_keeps R rl w :
  limiter_stable env R ->
  Forall (fun it => task_keeps R (task it)) (queue rl) ->
  R w ->
  R (process_step env rl w).1.2 /\
  Forall (fun it => task_keeps R (task it)) (queue (process_step env rl w).1.1).
Proof.
  intros HR Hq Hw.
  destruct (queue rl) as [|it rest] eqn:Eq.
  - unfold process_step. rewrite Eq. cbn. rewrite Eq. auto.
  - rewrite (process_step_cons rl w it rest Eq). cbn zeta.
    apply Forall_cons in Hq as [Hit Hrest].
    pose proof (Hit (retries it) w Hw) as H1.
    destruct (task it (retries it) w) as [[v|e] w1]; cbn [fst snd] in H1.
    + cbn [fst snd]. split.
      * apply stable_interval; [assumption|].
        apply (stable_random R (settle (promise it) (Returns v) w1)); [assumption|].
        apply stable_settle; assumption.
      * destruct rest as [|nxt tl]; [constructor|].
        apply Forall_cons in Hrest as [Hn Htl]. constructor; assumption.
    + pose proof (on_failure_keeps R (with_processing true rl) it rest e w1 HR H1) as H2.
      destruct (on_failure_shape (with_processing true rl) it rest e w1)
        as (q' & w' & Hof & Hq').
      rewrite Hof in H2 |- *. cbn [fst snd] in H2 |- *. split.
      * apply stable_interval; [assumption|].
        apply (stable_random R w'); assumption.
      * destruct Hq' as [-> | ->]; [exact Hrest|].
        apply Forall_app. split; [exact Hrest|]. constructor; [exact Hit|constructor].
Qed.

Lemma process_keeps R fuel : forall rl w,
  limiter_stable env R ->
  Forall (fun it => task_keeps R (task it)) (queue rl) ->
  R w ->
  R (process env fuel rl w).2.
Proof.
  induction fuel as [|n IH]; intros rl w HR Hq Hw; [exact Hw|].
  cbn [process].
  destruct (process_step_keeps R rl w HR Hq Hw) as [H1 H2].
  destruct (process_step env rl w) as [[rl1 w1] again]. cbn in H1, H2.
  destruct again; [apply IH; assumption | exact H1].
Qed.

(** *** The chain runs out of work *)

Lemma on_failure_progress rl it rest e w :
  exists q' w',
    on_failure env rl it rest e w = (with_queue q' rl, w') /\
    (q' = rest \/
     (q' = rest ++ [retried rl it] /\ S (retries it) < maxRetries rl)).
Proof.
  unfold on_failure.
  destruct (gives_up_cases rl (with_retries (S (retries it)) it)
              (console_error (RateLimiterError e) w)) as [[Hle ->]|[Hlt ->]].
  - eauto.
  - cbn [retries with_retries] in Hlt.
    destruct (timeout rl <? _)%Z; eauto 6.
Qed.

Lemma work_reset_head rl rl0 rest :
  work (with_queue (reset_head rl0 rest) rl) = work (with_queue rest rl).
Proof. destruct rest; reflexivity. Qed.

Lemma work_snoc rl rest it :
  work (with_queue (rest ++ [it]) rl) =
    work (with_queue rest rl) + (maxRetries rl - retries it).
Proof.
  unfold work. cbn [queue with_queue maxRetries].
  rewrite sum_list_with_app. cbn. lia.
Qed.

(** One call of [process()] on a non-empty queue uses up some of the work
    and goes on. *)
Lemma process_step_progress rl w it rest :
  queue rl = it :: rest -> retries_left rl ->
  exists rl' w',
    process_step env rl w = (rl', w', true) /\
    maxRetries rl' = maxRetries rl /\
    retries_left rl' /\
    work rl' < work rl.
Proof.
  intros Hq Hleft. unfold retries_left in Hleft. rewrite Hq in Hleft.
  apply Forall_cons in Hleft as [Hit Hrest].
  assert (Hw : work rl = (maxRetries rl - retries it) + work (with_queue rest rl)).
  { unfold work. rewrite Hq. reflexivity. }
  rewrite (process_step_cons rl w it rest Hq). cbv zeta.
  destruct (task it (retries it) w) as [[v|e] w1].
  - do 2 eexists. split; [reflexivity|]. split; [reflexivity|]. split.
    + unfold retries_left. cbn [queue with_queue maxRetries with_processing].
      destruct rest as [|nxt tl]; [constructor|].
      apply Forall_cons in Hrest as [Hn Htl]. constructor; assumption.
    + rewrite Hw.
      change (work (with_queue (reset_head (with_processing true rl) rest)
                      (with_processing true rl)))
        with (work (with_queue (reset_head (with_processing true rl) rest) rl)).
      rewrite work_reset_head. lia.
  - destruct (on_failure_progress (with_processing true rl) it rest e w1)
      as (q' & w' & -> & Hq').
    do 2 eexists. split; [reflexivity|]. split; [reflexivity|].
    destruct Hq' as [-> | [-> Hlt]].
    + split; [exact Hrest|]. rewrite Hw.
      change (work (with_queue rest (with_processing true rl)))
        with (work (with_queue rest rl)). lia.
    + cbn [maxRetries with_processing] in Hlt. split.
      * unfold retries_left. cbn [queue with_queue maxRetries with_processing].
        apply Forall_app. split; [exact Hrest|].
        constructor; [cbn; lia | constructor].
      * rewrite Hw.
        change (work (with_queue (rest ++ [retried (with_processing true rl) it])
                        (with_processing true rl)))
          with (work (with_queue (rest ++ [retried rl it]) rl)).
        rewrite work_snoc. cbn [retries retried with_backoffTime with_retries]. lia.
Qed.

(** What one call of [process()] settles: at most the promise of the head,
    which then leaves the queue; no promise is lost. *)
Lemma process_step_settles rl w it rest :
  queue rl = it :: rest ->
  (forall n w0, settled (task it n w0).2 = settled w0) ->
  exists l,
    settled (process_step env rl w).1.2 = settled w ++ l /\
    l.*1 ++ (promise <$> queue (process_step env rl w).1.1) ≡ₚ
      promise <$> (it :: rest).
Proof.
  intros Hq Hblind. rewrite (process_step_cons rl w it rest Hq). cbv zeta.
  pose proof (Hblind (retries it) w) as Hs.
  destruct (task it (retries it) w) as [[v|e] w1]; cbn [fst snd] in Hs |- *.
  - exists [(promise it, Returns v)]. cbn. rewrite Hs. split; [reflexivity|].
    rewrite promise_reset_head. reflexivity.
  - destruct (decide (maxRetries (with_processing true rl) <= S (retries it) \/
                      (timeout (with_processing true rl)
                       < date_now env (clock_reads w1) - startTime it)%Z))
      as [Hc|Hc].
    + destruct (on_failure_gives_up (with_processing true rl) it rest e w1 Hc)
        as (w2 & -> & Hs2 & _).
      exists [(promise it, Throws e)]. cbn. rewrite Hs2, Hs.
      split; reflexivity.
    + destruct (on_failure_retries (with_processing true rl) it rest e w1)
        as (w2 & -> & Hs2 & _); [lia | lia |].
      exists []. cbn. rewrite Hs2, Hs, app_nil_r. split; [reflexivity|].
      rewrite fmap_app. cbn. symmetry. apply Permutation_cons_append.
Qed.

(** The tasks queued after a call of [process()] were queued before it. *)
Lemma process_step_tasks (P : Task -> Prop) rl w :
  Forall (fun it => P (task it)) (queue rl) ->
  Forall (fun it => P (task it)) (queue (process_step env rl w).1.1).
Proof.
  intros Hall. destruct (queue rl) as [|it rest] eqn:Hq.
  - unfold process_step. rewrite Hq. cbn. rewrite Hq. constructor.
  - destruct (process_step_shape rl w it rest Hq) as (q' & w' & -> & Hq').
    cbn [fst snd queue with_queue].
    apply Forall_cons in Hall as [Hit Hrest].
    destruct Hq' as [-> | [-> | ->]].
    + destruct rest as [|nxt tl]; [constructor|].
      apply Forall_cons in Hrest as [Hn Htl]. constructor; assumption.
    + exact Hrest.
    + apply Forall_app. split; [exact Hrest|].
      constructor; [exact Hit | constructor].
Qed.

(** With fuel beyond the work left, the chain ends on the empty queue with
    [processing] reset. *)
Lemma process_reaches_idle fuel : forall rl w,
  retries_left rl -> work rl < fuel ->
  queue (process env fuel rl w).1 = [] /\
  processing (process env fuel rl w).1 = false.
Proof.
  induction fuel as [|fuel IH]; intros rl w Hleft Hwork; [lia|].
  cbn [process].
  destruct (queue rl) as [|it rest] eqn:Hq.
  - unfold process_step. rewrite Hq. cbn. auto.
  - destruct (process_step_progress rl w it rest Hq Hleft)
      as (rl' & w' & -> & _ & Hleft' & Hlt).
    apply IH; [exact Hleft' | lia].
Qed.

(** On the way there every queued promise is settled, once. *)
Lemma process_settles fuel : forall rl w,
  retries_left rl ->
  Forall (fun it => forall n w0, settled (task it n w0).2 = settled w0)
    (queue rl) ->
  work rl < fuel ->
  exists l,
    settled (process env fuel rl w).2 = settled w ++ l /\
    l.*1 ≡ₚ promise <$> queue rl.
Proof.
  induction fuel as [|fuel IH]; intros rl w Hleft Hblind Hwork; [lia|].
  rewrite process_unfold.
  destruct (queue rl) as [|it rest] eqn:Hq.
  - unfold process_step. rewrite Hq. exists []. cbn. rewrite app_nil_r. done.
  - destruct (process_step_progress rl w it rest Hq Hleft)
      as (rl' & w' & Hs & _ & Hleft' & Hlt).
    destruct (process_step_settles rl w it rest Hq) as (l1 & Hs1 & Hp1).
    { apply Forall_cons in Hblind as [H _]. exact H. }
    assert (Hb' : Forall
              (fun it => forall n w0, settled (task it n w0).2 = settled w0)
              (queue (process_step env rl w).1.1)).
    { apply (process_step_tasks
               (fun tk => forall n w0, settled (tk n w0).2 = settled w0)).
      rewrite Hq. exact Hblind. }
    rewrite Hs in Hs1, Hp1, Hb' |- *. cbn [fst snd] in Hs1, Hp1, Hb'.
    destruct (IH rl' w' Hleft' Hb') as (l2 & Hs2 & Hp2); [lia|].
    exists (l1 ++ l2). rewrite Hs2, Hs1, app_assoc. split; [reflexivity|].
    rewrite fmap_app, Hp2. exact Hp1.
Qed.

Lemma work_bound rl : work rl <= length (queue rl) * maxRetries rl.
Proof.
  unfold work. induction (queue rl) as [|it q IH]; cbn; lia.
Qed.

(** [process_fuel] is enough.  A chain started on a queue whose items have
    retries left ends within that many calls, on the empty queue and with
    [processing] reset; and when the tasks settle no promise themselves,
    it has by then settled the promise of every queued item, once each. *)
Lemma process_fuel_suffices rl w :
  retries_left rl ->
  let done := process env (process_fuel rl) rl w in
  queue done.1 = [] /\
  processing done.1 = false /\
  (Forall (fun it => forall n w0, settled (task it n w0).2 = settled w0)
     (queue rl) ->
   exists l,
     settled done.2 = settled w ++ l /\
     l.*1 ≡ₚ promise <$> queue rl).
Proof.
  intros Hleft done.
  assert (work rl < process_fuel rl) as Hfuel.
  { unfold process_fuel. pose proof (work_bound rl). lia. }
  destruct (process_reaches_idle (process_fuel rl) rl w Hleft Hfuel) as [Hq Hp].
  split; [exact Hq|]. split; [exact Hp|].
  intros Hblind. apply process_settles; assumption.
Qed.

(** *** A single item on an otherwise idle limiter *)

Lemma process_idle fuel rl w :
  queue rl = [] -> 1 <= fuel ->
  process env fuel rl w = (with_processing false rl, w).
Proof.
  intros Hq Hf. destruct fuel; [lia|]. cbn [process]. unfold process_step.
  rewrite Hq. reflexivity.
Qed.

(** The chain settles the item's promise with an outcome of its task and
    leaves the limiter idle. *)
Lemma lone_chain n : forall iv busy it w fuel,
  (forall m w0, settled (task it m w0).2 = settled w0) ->
  retries it + n = 5 -> 1 <= n -> S n <= fuel ->
  exists o w',
    process env fuel (limiter iv busy [it]) w = (RateLimiter.new iv, w') /\
    settled w' = settled w ++ [(promise it, o)] /\
    (exists m w0 w1, task it m w0 = (o, w1)).
Proof.
  induction n as [|n IH]; intros iv busy it w fuel Hblind Hn H1 Hfuel; [lia|].
  destruct fuel as [|fuel]; [lia|]. cbn [process].
  rewrite (process_step_cons (limiter iv busy [it]) w it [] eq_refl).
  cbv beta iota zeta.
  pose proof (Hblind (retries it) w) as Hs.
  destruct (task it (retries it) w) as [[v|e] w1] eqn:Htk; cbn [fst snd] in Hs.
  - cbv beta iota zeta. rewrite process_idle by (reflexivity || lia).
    eexists _, _. split; [reflexivity|]. cbn. rewrite Hs. eauto 6.
  - destruct (decide (5 <= S (retries it) \/
                      (30000 < date_now env (clock_reads w1) - startTime it)%Z))
      as [Hc|Hc].
    + destruct (on_failure_gives_up (with_processing true (limiter iv busy [it]))
                  it [] e w1 Hc) as (w2 & -> & Hs2 & _).
      cbv beta iota zeta. rewrite process_idle by (reflexivity || lia).
      eexists _, _. split; [reflexivity|]. cbn. rewrite Hs2, Hs. eauto 6.
    + destruct (on_failure_retries (with_processing true (limiter iv busy [it]))
                  it [] e w1) as (w2 & -> & Hs2 & _); [cbn; lia | cbn; lia|].
      cbv beta iota zeta.
      destruct (IH iv true (retried (RateLimiter.new iv) it)
                  (setTimeout QueueInterval
                     (iv + (Math_random env w2).1 * 1000)%Q
                     (Math_random env w2).2) fuel)
        as (o & w' & Hp & Hs' & m & w0 & w3 & Ho);
        [exact Hblind | cbn; lia | lia | lia |].
      exists o, w'. split; [exact Hp|]. split.
      * rewrite Hs'. cbn. rewrite Hs2, Hs. reflexivity.
      * eauto.
Qed.

Lemma backoff_pow_shift b i :
  backoff_pow (b * (3 # 2))%Q i = backoff_pow b (S i).
Proof. induction i as [|i IH]; [reflexivity|]. cbn. rewrite IH. reflexivity. Qed.

Lemma backoff_pow_grows b i : (0 < b)%Q -> (0 < backoff_pow b i)%Q.
Proof. intros Hb. induction i as [|i IH]; cbn; [exact Hb | lra]. Qed.

(** A task that fails [k] more times and then returns, attempted alone
    while the clock stays inside the timeout window. *)
Lemma flaky_chain k : forall iv busy it w fuel v,
  queue_blind (task it) ->
  retries it + k < 5 ->
  (forall i w0, i < k -> exists e, (task it (retries it + i) w0).1 = Throws e) ->
  (forall w0, (task it (retries it + k) w0).1 = Returns v) ->
  (forall i, i < k ->
     (date_now env (clock_reads w + i) - startTime it <= 30000)%Z) ->
  k + 2 <= fuel ->
  exists w',
    process env fuel (limiter iv busy [it]) w = (RateLimiter.new iv, w') /\
    settled w' = settled w ++ [(promise it, Returns v)] /\
    waits QueueBackoff w' =
      waits QueueBackoff w ++ (backoff_pow (backoffTime it) <$> seq 1 k).
Proof.
  induction k as [|k IH]; intros iv busy it w fuel v Hblind Hr Hfail Hok Hclock Hfuel.
  - destruct fuel as [|fuel]; [lia|]. cbn [process].
    rewrite (process_step_cons (limiter iv busy [it]) w it [] eq_refl).
    cbv beta iota zeta.
    destruct (Hblind (retries it) w) as (Hs & _ & Hw).
    pose proof (Hok w) as Hv. rewrite Nat.add_0_r in Hv.
    destruct (task it (retries it) w) as [o w1]; cbn [fst snd] in *. subst o.
    cbv beta iota zeta. rewrite process_idle by (reflexivity || lia).
    eexists. split; [reflexivity|]. split.
    + cbn. rewrite Hs. reflexivity.
    + rewrite waits_setTimeout. cbn. rewrite !app_nil_r. exact Hw.
  - destruct fuel as [|fuel]; [lia|]. cbn [process].
    rewrite (process_step_cons (limiter iv busy [it]) w it [] eq_refl).
    cbv beta iota zeta.
    destruct (Hblind (retries it) w) as (Hs & Hc & Hw).
    destruct (Hfail 0 w) as [e He]; [lia|]. rewrite Nat.add_0_r in He.
    destruct (task it (retries it) w) as [o w1]; cbn [fst snd] in *. subst o.
    destruct (on_failure_retries (with_processing true (limiter iv busy [it]))
                it [] e w1) as (w2 & -> & Hs2 & Hc2 & Hw2).
    { cbn. lia. }
    { cbn. rewrite Hc. specialize (Hclock 0). rewrite Nat.add_0_r in Hclock.
      apply Hclock. lia. }
    cbv beta iota zeta.
    destruct (IH iv true (retried (RateLimiter.new iv) it)
                (setTimeout QueueInterval
                   (iv + (Math_random env w2).1 * 1000)%Q
                   (Math_random env w2).2) fuel v)
      as (w' & Hp & Hs' & Hw').
    + exact Hblind.
    + cbn. lia.
    + intros i w0 Hi. cbn. replace (S (retries it + i)) with (retries it + S i) by lia.
      apply Hfail. lia.
    + intros w0. cbn. replace (S (retries it + k)) with (retries it + S k) by lia.
      apply Hok.
    + intros i Hi. cbn. rewrite Hc2, Hc.
      replace (S (clock_reads w) + i) with (clock_reads w + S i) by lia.
      apply Hclock. lia.
    + lia.
    + exists w'. split; [exact Hp|]. split.
      * rewrite Hs'. cbn. rewrite Hs2, Hs. reflexivity.
      * rewrite Hw', waits_setTimeout. cbn [decide]. 
        change (waits QueueBackoff (Math_random env w2).2) with (waits QueueBackoff w2).
        rewrite Hw2, Hw. cbn -[backoff_pow seq]. rewrite app_nil_r, <- app_assoc.
        f_equal. cbn [seq fmap list_fmap app]. f_equal.
        rewrite <- (fmap_S_seq 1 k), <- list_fmap_compose.
        apply list_fmap_ext. intros ? i _. apply backoff_pow_shift.
Qed.

Lemma settlement_snoc w l p o :
  settled w = l ++ [(p, o)] -> settlement p w = Some o.
Proof.
  intros H. unfold settlement. rewrite H, rev_unit. cbn.
  rewrite Nat.eqb_refl. reflexivity.
Qed.

(** C6, as amended.  A task submitted to an idle limiter that fails exactly
    [k < 5] times and then returns, each failure being seen no later than
    30000 ms after the submission: the promise resolves with the task's
    result, and the [k] retries waited [interval * 1.5], [interval *
    1.5^2], ..., each 1.5 times the previous and larger when the interval is
    positive. *)
Theorem flaky_task_resolves_with_growing_backoff
    (iv : Q) (tk : Task) (k : nat) (v : value) (w : World) :
  k < 5 ->
  queue_blind tk ->
  (forall i w0, i < k -> exists e, (tk i w0).1 = Throws e) ->
  (forall w0, (tk k w0).1 = Returns v) ->
  (forall i, 1 <= i <= k ->
     (date_now env (clock_reads w + i) - date_now env (clock_reads w)
        <= 30000)%Z) ->
  let done := add env tk (RateLimiter.new iv) w in
  settlement done.1.1 done.2 = Some (Returns v) /\
  settled done.2 = settled w ++ [(done.1.1, Returns v)] /\
  done.1.2 = RateLimiter.new iv /\
  waits QueueBackoff done.2 =
    waits QueueBackoff w ++ (backoff_pow iv <$> seq 1 k) /\
  (forall i, backoff_pow iv (S i) == backoff_pow iv i * (3 # 2))%Q /\
  ((0 < iv)%Q -> forall i, (backoff_pow iv i < backoff_pow iv (S i))%Q).
Proof.
  intros Hk Hblind Hfail Hok Hclock done.
  pose (it := {| task := tk; promise := promises w; retries := 0;
                 backoffTime := iv;
                 startTime := date_now env (clock_reads w) |}).
  destruct (flaky_chain k iv false it (Date_now env (new_promise w).2).2 6 v)
    as (w' & Hp & Hs & Hw).
  - exact Hblind.
  - cbn. lia.
  - intros i w0 Hi. apply Hfail. exact Hi.
  - exact Hok.
  - intros i Hi. cbn. replace (S (clock_reads w + i)) with (clock_reads w + S i) by lia.
    apply Hclock. lia.
  - lia.
  - assert (Hdone : done = (promises w, RateLimiter.new iv, w')).
    { subst done it.
      unfold add, enqueue, process_fuel, limiter, with_queue, with_processing,
        RateLimiter.new in Hp |- *.
      cbn -[process] in Hp |- *. rewrite Hp. reflexivity. }
    rewrite Hdone. cbn [fst snd].
    split; [apply (settlement_snoc _ _ _ _ Hs)|].
    split; [exact Hs|]. split; [reflexivity|]. split; [exact Hw|].
    split.
    + intros i. cbn. reflexivity.
    + intros Hiv i. pose proof (backoff_pow_grows iv i Hiv) as Hpos.
      cbn [backoff_pow]. generalize dependent (backoff_pow iv i). intros x Hx. lra.
Qed.

(** A task that fails at every invocation, attempted alone: it is retried
    [n] times, while the retry count stays below 5 and the clock inside the
    timeout window, and rejected at the next failure, with the error of
    that last invocation. *)
Lemma failing_chain n : forall iv busy it w fuel (err : nat -> value),
  queue_blind (task it) ->
  (forall m w0, (task it m w0).1 = Throws (err m)) ->
  (forall i, i < n ->
     S (retries it + i) < 5 /\
     (date_now env (clock_reads w + i) - startTime it <= 30000)%Z) ->
  5 <= S (retries it + n) \/
    (30000 < date_now env (clock_reads w + n) - startTime it)%Z ->
  n + 2 <= fuel ->
  exists w',
    process env fuel (limiter iv busy [it]) w = (RateLimiter.new iv, w') /\
    settled w' = settled w ++ [(promise it, Throws (err (retries it + n)))] /\
    waits QueueBackoff w' =
      waits QueueBackoff w ++ (backoff_pow (backoffTime it) <$> seq 1 n).
Proof.
  induction n as [|n IH]; intros iv busy it w fuel err Hblind Hfail Hgo Hstop Hfuel.
  - destruct fuel as [|fuel]; [lia|]. rewrite process_unfold.
    rewrite (process_step_cons (limiter iv busy [it]) w it [] eq_refl).
    cbv beta iota zeta.
    destruct (Hblind (retries it) w) as (Hs & Hc & Hw).
    pose proof (Hfail (retries it) w) as He.
    destruct (task it (retries it) w) as [o w1]; cbn [fst snd] in *. subst o.
    rewrite !Nat.add_0_r in *.
    destruct (on_failure_gives_up (with_processing true (limiter iv busy [it]))
                it [] (err (retries it)) w1) as (w2 & -> & Hs2 & Hw2).
    { cbn [maxRetries timeout with_processing limiter with_queue RateLimiter.new].
      rewrite Hc. exact Hstop. }
    cbv beta iota zeta. rewrite process_idle by (reflexivity || lia).
    eexists. split; [reflexivity|]. split.
    + cbn. rewrite Hs2, Hs. reflexivity.
    + rewrite waits_setTimeout. cbn [decide].
      change (waits QueueBackoff (Math_random env w2).2)
        with (waits QueueBackoff w2).
      rewrite Hw2, Hw. cbn. rewrite !app_nil_r. reflexivity.
  - destruct fuel as [|fuel]; [lia|]. rewrite process_unfold.
    rewrite (process_step_cons (limiter iv busy [it]) w it [] eq_refl).
    cbv beta iota zeta.
    destruct (Hblind (retries it) w) as (Hs & Hc & Hw).
    pose proof (Hfail (retries it) w) as He.
    destruct (task it (retries it) w) as [o w1]; cbn [fst snd] in *. subst o.
    destruct (Hgo 0) as [Hr0 Ht0]; [lia|]. rewrite Nat.add_0_r in Hr0, Ht0.
    destruct (on_failure_retries (with_processing true (limiter iv busy [it]))
                it [] (err (retries it)) w1) as (w2 & -> & Hs2 & Hc2 & Hw2).
    { cbn. lia. }
    { cbn. rewrite Hc. exact Ht0. }
    cbv beta iota zeta.
    destruct (IH iv true (retried (RateLimiter.new iv) it)
                (setTimeout QueueInterval
                   (iv + (Math_random env w2).1 * 1000)%Q
                   (Math_random env w2).2) fuel err)
      as (w' & Hp & Hs' & Hw').
    + exact Hblind.
    + exact Hfail.
    + intros i Hi. cbn. rewrite Hc2, Hc.
      replace (S (retries it + i)) with (retries it + S i) by lia.
      replace (S (clock_reads w) + i) with (clock_reads w + S i) by lia.
      apply Hgo. lia.
    + cbn. rewrite Hc2, Hc.
      replace (S (retries it + n)) with (retries it + S n) by lia.
      replace (S (clock_reads w) + n) with (clock_reads w + S n) by lia.
      exact Hstop.
    + lia.
    + exists w'. split; [exact Hp|]. split.
      * rewrite Hs'. cbn. rewrite Hs2, Hs.
        replace (S (retries it + n)) with (retries it + S n) by lia.
        reflexivity.
      * rewrite Hw', waits_setTimeout. cbn [decide].
        change (waits QueueBackoff (Math_random env w2).2)
          with (waits QueueBackoff w2).
        rewrite Hw2, Hw. cbn -[backoff_pow seq]. rewrite app_nil_r, <- app_assoc.
        f_equal. cbn [seq fmap list_fmap app]. f_equal.
        rewrite <- (fmap_S_seq 1 n), <- list_fmap_compose.
        apply list_fmap_ext. intros ? i _. apply backoff_pow_shift.
Qed.

(** C4.  After a failed attempt of the head item, whatever else is queued,
    the promise is rejected, with the error just raised, exactly when the
    incremented retry count has reached 5 or the clock shows more than
    30000 ms since the reading taken when the item was enqueued; the item
    then leaves the queue.  Otherwise nothing is settled and the item goes
    to the tail with its retry count incremented.  So a task submitted by
    [add] to an idle limiter that fails at every attempt is attempted until
    one of the two limits is met, at the [k]-th attempt for some [k] up to
    5, and its promise is then rejected with the error of that attempt. *)
Theorem rejection_exactly_on_exhaustion (iv : Q) :
  (forall busy it rest w w1 e,
     task it (retries it) w = (Throws e, w1) ->
     let elapsed := (date_now env (clock_reads w1) - startTime it)%Z in
     let after := process_step env (limiter iv busy (it :: rest)) w in
     (5 <= S (retries it) \/ (30000 < elapsed)%Z ->
        settled after.1.2 = settled w1 ++ [(promise it, Throws e)] /\
        queue after.1.1 = rest) /\
     (~ (5 <= S (retries it) \/ (30000 < elapsed)%Z) ->
        settled after.1.2 = settled w1 /\
        queue after.1.1 =
          rest ++ [ {| task := task it; promise := promise it;
                       retries := S (retries it);
                       backoffTime := backoffTime it * (3 # 2);
                       startTime := startTime it |} ])) /\
  (forall busy tk q w0,
     startTime <$> last (queue (enqueue env tk (limiter iv busy q) w0).1.2) =
       Some (date_now env (clock_reads w0))) /\
  (forall tk (err : nat -> value) w k,
     queue_blind tk ->
     (forall n w0, (tk n w0).1 = Throws (err n)) ->
     1 <= k <= 5 ->
     (forall i, 1 <= i < k ->
        (date_now env (clock_reads w + i) - date_now env (clock_reads w)
           <= 30000)%Z) ->
     k = 5 \/
       (30000 < date_now env (clock_reads w + k)
                - date_now env (clock_reads w))%Z ->
     let done := add env tk (RateLimiter.new iv) w in
     settlement done.1.1 done.2 = Some (Throws (err (k - 1))) /\
     settled done.2 = settled w ++ [(done.1.1, Throws (err (k - 1)))] /\
     done.1.2 = RateLimiter.new iv /\
     waits QueueBackoff done.2 =
       waits QueueBackoff w ++ (backoff_pow iv <$> seq 1 (k - 1))).
Proof.
  split; [|split].
  - intros busy it rest w w1 e Htk elapsed after. subst elapsed after.
    rewrite (process_step_cons (limiter iv busy (it :: rest)) w it rest eq_refl).
    cbn zeta. rewrite Htk. split.
    + intros Hc.
      destruct (on_failure_gives_up
                  (with_processing true (limiter iv busy (it :: rest)))
                  it rest e w1 Hc) as (w2 & -> & Hs & _).
      split; [exact Hs | reflexivity].
    + intros Hc.
      destruct (on_failure_retries
                  (with_processing true (limiter iv busy (it :: rest)))
                  it rest e w1) as (w2 & -> & Hs & _).
      * cbn. lia.
      * cbn. lia.
      * split; [exact Hs | reflexivity].
  - intros busy tk q w0. cbn. rewrite last_snoc. reflexivity.
  - intros tk err w k Hblind Hfail Hk Hclock Hstop done.
    pose (it := {| task := tk; promise := promises w; retries := 0;
                   backoffTime := iv;
                   startTime := date_now env (clock_reads w) |}).
    destruct (failing_chain (k - 1) iv false it
                (Date_now env (new_promise w).2).2 6 err)
      as (w' & Hp & Hs & Hw).
    + exact Hblind.
    + exact Hfail.
    + intros i Hi. cbn. split; [lia|].
      replace (S (clock_reads w + i)) with (clock_reads w + S i) by lia.
      apply Hclock. lia.
    + cbn. replace (S (clock_reads w + (k - 1))) with (clock_reads w + k) by lia.
      destruct Hstop as [->|Ht]; [left; lia | right; exact Ht].
    + lia.
    + assert (Hdone : done = (promises w, RateLimiter.new iv, w')).
      { subst done it.
        unfold add, enqueue, process_fuel, limiter, with_queue, with_processing,
          RateLimiter.new in Hp |- *.
        cbn -[process] in Hp |- *. rewrite Hp. reflexivity. }
      rewrite Hdone. cbn [fst snd]. cbn [retries promise backoffTime it] in Hs, Hw.
      split; [apply (settlement_snoc _ _ _ _ Hs)|].
      split; [exact Hs|]. split; [reflexivity | exact Hw].
Qed.

(** After a success the item that comes to the head starts from the base
    interval again, whatever backoff its own failures had built up: when it
    fails next and is retried, the chain waits [interval * 1.5]. *)
Theorem backoff_reset_by_other_success
    (iv : Q) (busy : bool) (it nxt : Item) (rest : list Item)
    (w w1 : World) (v e : value) :
  let calls n := process env n (limiter iv busy (it :: nxt :: rest)) w in
  (task it (retries it) w).1 = Returns v ->
  task nxt (retries nxt) (calls 1).2 = (Throws e, w1) ->
  S (retries nxt) < 5 ->
  (date_now env (clock_reads w1) - startTime nxt <= 30000)%Z ->
  queue (calls 1).1 = with_backoffTime iv nxt :: rest /\
  queue (calls 2).1 =
    rest ++ [ {| task := task nxt; promise := promise nxt;
                 retries := S (retries nxt);
                 backoffTime := iv * (3 # 2);
                 startTime := startTime nxt |} ] /\
  waits QueueBackoff (calls 2).2 = waits QueueBackoff w1 ++ [iv * (3 # 2)]%Q.
Proof.
  intros calls Hok Hfail Hr Ht.
  destruct (task it (retries it) w) as [o w0] eqn:Htk. cbn [fst] in Hok. subst o.
  assert (Hstep : exists w2,
    process_step env (limiter iv busy (it :: nxt :: rest)) w =
      (limiter iv true (with_backoffTime iv nxt :: rest), w2, true)).
  { rewrite (process_step_cons (limiter iv busy (it :: nxt :: rest)) w it
               (nxt :: rest) eq_refl).
    cbn zeta. rewrite Htk. eexists. reflexivity. }
  destruct Hstep as [w2 Hstep].
  assert (Hsucc : forall j,
    calls (S j) =
      process env j (limiter iv true (with_backoffTime iv nxt :: rest)) w2).
  { intros j. unfold calls. rewrite process_unfold, Hstep. reflexivity. }
  rewrite (Hsucc 0) in Hfail. cbn [process snd] in Hfail.
  rewrite (Hsucc 1), (Hsucc 0). cbn [process fst].
  split; [reflexivity|].
  rewrite (process_step_cons (limiter iv true (with_backoffTime iv nxt :: rest))
             w2 (with_backoffTime iv nxt) rest eq_refl).
  cbn zeta.
  change (task (with_backoffTime iv nxt) (retries (with_backoffTime iv nxt)) w2)
    with (task nxt (retries nxt) w2).
  rewrite Hfail.
  destruct (on_failure_retries
              (with_processing true
                 (limiter iv true (with_backoffTime iv nxt :: rest)))
              (with_backoffTime iv nxt) rest e w1 Hr Ht)
    as (w3 & -> & _ & _ & Hw3).
  cbn [fst snd]. split; [reflexivity|].
  rewrite waits_setTimeout. cbn [decide].
  change (waits QueueBackoff (Math_random env w3).2) with (waits QueueBackoff w3).
  rewrite Hw3. cbn. rewrite app_nil_r. reflexivity.
Qed.
End LimiterFacts.

(** *** The limiter on concrete runs *)

(** C3 on two items, the first of which fails once: the first call
    attempts it and moves it behind the second item, the second call
    attempts the second item, and the third attempts the first one again,
    as its second invocation.  And on two items that each send a file, the
    transport sees the files in the order of the queue. *)
Lemma fifo_service_with_tail_retry_witness :
  attempts (Scenario.after_calls 0) (Scenario.after_calls 1)
    (Scenario.item (Scenario.flaky 1) 0 0) /\
  queue (Scenario.after_calls 1).1 =
    [Scenario.item (Scenario.flaky 0) 1 0;
     retried (RateLimiter.new 3000) (Scenario.item (Scenario.flaky 1) 0 0)] /\
  attempts (Scenario.after_calls 1) (Scenario.after_calls 2)
    (Scenario.item (Scenario.flaky 0) 1 0) /\
  attempts (Scenario.after_calls 2) (Scenario.after_calls 3)
    (retried (RateLimiter.new 3000) (Scenario.item (Scenario.flaky 1) 0 0)) /\
  settled (Scenario.after_calls 3).2 =
    [(1, Returns (Str "Success")); (0, Returns (Str "Success"))] /\
  (sends
     (process Scenario.quiet 2
        (limiter 3000 false
           [Scenario.item
              (Delivery.send_task Scenario.quiet
                 [ {| mtype := "document"; source := "1.vcf" |} ]) 0 0;
            Scenario.item
              (Delivery.send_task Scenario.quiet
                 [ {| mtype := "document"; source := "2.vcf" |} ]) 1 0])
        (initial_world ∅)).2).*1 =
    [ [ {| mtype := "document"; source := "1.vcf" |} ];
      [ {| mtype := "document"; source := "2.vcf" |} ] ].
Proof.
  pose proof (fifo_service_with_tail_retry Scenario.quiet 3000 false
                Scenario.retry_queue (initial_world ∅)) as H.
  cbv zeta in H. destruct H as (_ & H2 & H3).
  destruct (H3 (Scenario.item (Scenario.flaky 1) 0 0)
              [Scenario.item (Scenario.flaky 0) 1 0]
              (Str "busy") (initial_world ∅) eq_refl eq_refl)
    as (Hq & Hp & Hr); [cbn; lia | cbn; lia |].
  split; [apply (H2 0); reflexivity|].
  split; [exact Hq|].
  split; [apply (Hp 0); reflexivity|].
  split; [exact Hr|].
  split; vm_compute; reflexivity.
Defined.

(** C4 on a task that always fails, submitted to the idle shared limiter.
    While the clock stands still the fifth failure is final, and the
    promise is rejected with the error of the fifth attempt after four
    backoff waits.  On the clock that shows the time the waits take, the
    fourth failure comes 30375 ms after the submission and is final. *)
Lemma rejection_exactly_on_exhaustion_witness :
  settlement
    (add Scenario.quiet Scenario.failing (RateLimiter.new 3000) (initial_world ∅)).1.1
    (add Scenario.quiet Scenario.failing (RateLimiter.new 3000) (initial_world ∅)).2
    = Some (Throws (Str "busy 4")) /\
  waits QueueBackoff
    (add Scenario.quiet Scenario.failing (RateLimiter.new 3000) (initial_world ∅)).2
    = [] ++ (backoff_pow 3000 <$> seq 1 4) /\
  settlement
    (add Scenario.waiting_clock Scenario.failing (RateLimiter.new 3000)
       (initial_world ∅)).1.1
    (add Scenario.waiting_clock Scenario.failing (RateLimiter.new 3000)
       (initial_world ∅)).2
    = Some (Throws (Str "busy 3")) /\
  waits QueueBackoff
    (add Scenario.waiting_clock Scenario.failing (RateLimiter.new 3000)
       (initial_world ∅)).2
    = [] ++ (backoff_pow 3000 <$> seq 1 3).
Proof.
  assert (Hblind : queue_blind Scenario.failing) by (intros n w; cbn; auto).
  pose proof (proj2 (proj2 (rejection_exactly_on_exhaustion Scenario.quiet 3000))
                Scenario.failing (fun n => Str ("busy " +:+ pretty n))
                (initial_world ∅) 5 Hblind) as H5.
  pose proof (proj2 (proj2
                (rejection_exactly_on_exhaustion Scenario.waiting_clock 3000))
                Scenario.failing (fun n => Str ("busy " +:+ pretty n))
                (initial_world ∅) 4 Hblind) as H4.
  cbv zeta in H5, H4.
  destruct H5 as (Hs5 & _ & _ & Hw5).
  { intros n w0. reflexivity. }
  { lia. }
  { intros i Hi. cbn. lia. }
  { left. reflexivity. }
  destruct H4 as (Hs4 & _ & _ & Hw4).
  { intros n w0. reflexivity. }
  { lia. }
  { intros i Hi. assert (i = 1 \/ i = 2 \/ i = 3) as [-> | [-> | ->]] by lia;
      cbn; lia. }
  { right. cbn. lia. }
  repeat split; assumption.
Defined.

(** C6 fails as stated: on the shared limiter (interval 3000) a task that
    fails exactly four times and would then succeed is rejected at its fourth
    failure, because the three backoff waits and the three interval waits
    before it already take 30375 ms. *)
Lemma flaky_task_rejected_by_timeout :
  (forall i w, i < 4 -> (Scenario.flaky 4 i w).1 = Throws (Str "busy")) /\
  (forall w, (Scenario.flaky 4 4 w).1 = Returns (Str "Success")) /\
  settlement
    (add Scenario.waiting_clock (Scenario.flaky 4) rateLimiter (initial_world ∅)).1.1
    (add Scenario.waiting_clock (Scenario.flaky 4) rateLimiter (initial_world ∅)).2
    = Some (Throws (Str "busy")) /\
  timers
    (add Scenario.waiting_clock (Scenario.flaky 4) rateLimiter (initial_world ∅)).2
    = [(QueueBackoff, 9000 # 2); (QueueInterval, 3000 + 0 * 1000);
       (QueueBackoff, 27000 # 4); (QueueInterval, 3000 + 0 * 1000);
       (QueueBackoff, 81000 # 8); (QueueInterval, 3000 + 0 * 1000);
       (QueueInterval, 3000 + 0 * 1000)]%Q.
Proof.
  split; [|split; [|split]].
  - intros i w Hi. unfold Scenario.flaky.
    destruct (Nat.ltb_spec i 4); [reflexivity | lia].
  - intros w. reflexivity.
  - vm_compute. reflexivity.
  - vm_compute. reflexivity.
Qed.

(** The reset on the shared limiter: an item that has failed once, and
    holds a backoff of 4500 ms, comes to the head after a success; when it
    fails again the chain waits 4500 ms, not 6750.  So, of two submissions
    of which the first fails twice and the second succeeds at once, the
    first waits 4500 ms after each of its two failures. *)
Lemma backoff_reset_by_other_success_witness :
  waits QueueBackoff
    (process Scenario.quiet 2
       (limiter 3000 true
          [Scenario.item (Scenario.flaky 0) 1 0;
           retried (RateLimiter.new 3000) (Scenario.item (Scenario.flaky 2) 0 0)])
       (initial_world ∅)).2 =
    waits QueueBackoff (initial_world ∅) ++ [3000 * (3 # 2)]%Q /\
  backoffTime
    (retried (RateLimiter.new 3000) (Scenario.item (Scenario.flaky 2) 0 0)) =
    (3000 * (3 # 2))%Q /\
  waits QueueBackoff Scenario.two_submissions.2 = [9000 # 2; 9000 # 2]%Q /\
  settled Scenario.two_submissions.2 =
    [(1, Returns (Str "Success")); (0, Returns (Str "Success"))].
Proof.
  split; [|split; [reflexivity | split; vm_compute; reflexivity]].
  refine (proj2 (proj2 (backoff_reset_by_other_success Scenario.quiet 3000 true
    (Scenario.item (Scenario.flaky 0) 1 0)
    (retried (RateLimiter.new 3000) (Scenario.item (Scenario.flaky 2) 0 0)) []
    (initial_world ∅) _ (Str "Success") (Str "busy") eq_refl eq_refl _ _))).
  - cbn. lia.
  - cbn. lia.
Defined.

Lemma flaky_blind k : queue_blind (Scenario.flaky k).
Proof.
  intros n w. unfold Scenario.flaky. destruct (n <? k); cbn; auto.
Qed.

(** C6, as amended, on a task that fails twice and then succeeds, while the
    clock stands still. *)
Lemma flaky_task_resolves_witness :
  settlement
    (add Scenario.quiet (Scenario.flaky 2) (RateLimiter.new 3000) (initial_world ∅)).1.1
    (add Scenario.quiet (Scenario.flaky 2) (RateLimiter.new 3000) (initial_world ∅)).2
    = Some (Returns (Str "Success")) /\
  waits QueueBackoff
    (add Scenario.quiet (Scenario.flaky 2) (RateLimiter.new 3000) (initial_world ∅)).2
    = [] ++ (backoff_pow 3000 <$> seq 1 2).
Proof.
  refine ((fun H => conj (proj1 H) (proj1 (proj2 (proj2 (proj2 H)))))
    (flaky_task_resolves_with_growing_backoff Scenario.quiet 3000 (Scenario.flaky 2)
       2 (Str "Success") (initial_world ∅) _ (flaky_blind 2) _ _ _)).
  - lia.
  - intros i w0 Hi. exists (Str "busy"). unfold Scenario.flaky.
    destruct (Nat.ltb_spec i 2); [reflexivity | lia].
  - intros w0. reflexivity.
  - intros i Hi. cbn. lia.
Defined.

(** The chain started for the two submissions ends on the empty queue,
    with both promises settled. *)
Lemma process_fuel_suffices_witness :
  queue Scenario.two_submissions.1 = [] /\
  processing Scenario.two_submissions.1 = false /\
  exists l,
    settled Scenario.two_submissions.2 = [] ++ l /\
    l.*1 ≡ₚ [0; 1].
Proof.
  refine ((fun H => conj (proj1 H) (conj (proj1 (proj2 H)) (proj2 (proj2 H) _)))
    (process_fuel_suffices Scenario.quiet
       (limiter 3000 false
          [Scenario.item (Scenario.flaky 2) 0 0;
           Scenario.item (Scenario.flaky 0) 1 0])
       (Date_now Scenario.quiet
          (new_promise
             (Date_now Scenario.quiet (new_promise (initial_world ∅)).2).2).2).2
       _)).
  - repeat constructor; intros n w0; cbn; unfold Scenario.flaky;
      destruct (n <? _); reflexivity.
  - repeat constructor.
Defined.

(** ** Facts about the grouped sender *)

Import Delivery.

Section DeliveryFacts.
Variable env : Env.

Lemma send_task_settled media m w :
  settled (send_task env media m w).2 = settled w.
Proof.
  unfold send_task. cbn.
  destruct (sendMediaGroup env (length (sends w)) media); reflexivity.
Qed.

(** On an idle limiter the awaited promise is always settled, with an
    outcome of the task, and the limiter is idle again afterwards. *)
Lemma await_add_idle iv tk w :
  (forall m w0, settled (tk m w0).2 = settled w0) ->
  exists o w',
    await_add env tk (RateLimiter.new iv) w = Some (o, RateLimiter.new iv, w') /\
    (exists m w0 w1, tk m w0 = (o, w1)) /\
    (forall R : World -> Prop,
       limiter_stable env R -> task_keeps R tk ->
       R (Date_now env (new_promise w).2).2 -> R w').
Proof.
  intros Hblind.
  pose (it := {| RateLimiter.task := tk; RateLimiter.promise := promises w;
                 RateLimiter.retries := 0; RateLimiter.backoffTime := iv;
                 RateLimiter.startTime := date_now env (clock_reads w) |}).
  destruct (lone_chain env 5 iv false it (Date_now env (new_promise w).2).2 6)
    as (o & w' & Hp & Hs & Ho); [exact Hblind | reflexivity | lia | lia |].
  exists o, w'. split; [|split].
  - unfold await_add, RateLimiter.add, RateLimiter.enqueue, RateLimiter.process_fuel.
    subst it.
    unfold limiter, RateLimiter.with_queue, RateLimiter.with_processing,
        RateLimiter.new in Hp |- *.
    cbn -[RateLimiter.process] in Hp |- *. rewrite Hp.
    rewrite (settlement_snoc w' _ (promises w) o Hs). reflexivity.
  - exact Ho.
  - intros R HR Htk Hw.
    pose proof (process_keeps env R 6 (limiter iv false [it])
                  (Date_now env (new_promise w).2).2 HR) as Hk.
    rewrite Hp in Hk. apply Hk; [|exact Hw].
    constructor; [exact Htk | constructor].
Qed.

Lemma send_task_keeps R media :
  sending_stable env R -> task_keeps R (send_task env media).
Proof.
  intros [_ HR] n w Hw. unfold send_task.
  assert (H1 : R (setTimeout SendDelay 500 w)) by apply (HR w Hw).
  assert (H2 : R (telegram_sendMediaGroup env media (setTimeout SendDelay 500 w)).2)
    by apply (HR _ H1).
  destruct (telegram_sendMediaGroup env media (setTimeout SendDelay 500 w))
    as [[x|e] w2]; exact H2.
Qed.

Lemma retry_loop_S fuel media rc b rl w :
  retry_loop env (S fuel) media rc b rl w =
    if rc <? maxRetries then
      '(o, rl1, w1) ← await_add env (send_task env media) rl w;
      match o with
      | Returns _ => Some (true, rl1, w1)
      | Throws e =>
          retry_loop env fuel media (S rc) (b * (3 # 2))%Q rl1
            (after_rejection env rc b e w1)
      end
    else Some (false, rl, w).
Proof. reflexivity. Qed.

Lemma after_rejection_keeps R rc b e w :
  sending_stable env R -> R w -> R (after_rejection env rc b e w).
Proof.
  intros HR Hw. unfold after_rejection. cbv zeta.
  apply (proj2 HR). apply (proj1 HR). apply (proj2 HR). exact Hw.
Qed.

(** The retry loop always ends, leaves the limiter idle, and keeps what
    submitting a send keeps. *)
Lemma retry_loop_idle fuel media : forall rc b iv w,
  exists success w',
    retry_loop env fuel media rc b (RateLimiter.new iv) w =
      Some (success, RateLimiter.new iv, w') /\
    (forall R : World -> Prop, sending_stable env R -> R w -> R w').
Proof.
  induction fuel as [|fuel IH]; intros rc b iv w.
  - cbn [retry_loop]. eauto.
  - rewrite retry_loop_S. destruct (rc <? maxRetries); [|eauto].
    destruct (await_add_idle iv (send_task env media) w (send_task_settled media))
      as (o & w1 & -> & _ & Hk).
    cbn [mbind option_bind].
    assert (Hk1 : forall R : World -> Prop, sending_stable env R -> R w -> R w1).
    { intros R HR Hw. apply Hk; [apply HR | apply send_task_keeps, HR|].
      apply (proj1 HR). apply (proj2 HR). exact Hw. }
    destruct o as [x|e]; [eauto|].
    destruct (IH (S rc) (b * (3 # 2))%Q iv (after_rejection env rc b e w1))
      as (success & w' & Hl & Hk2).
    exists success, w'. split; [exact Hl|].
    intros R HR Hw. apply Hk2; [exact HR|].
    apply after_rejection_keeps; [exact HR|]. apply Hk1; assumption.
Qed.

(** *** Stable properties used below *)











(** *** One group *)

Lemma beyond_sending_stable x :
  sending_stable env (fun w => beyond_sending w = x).
Proof.
  unfold beyond_sending. split.
  - intros w Hw. repeat split; intros; try exact Hw;
      rewrite !waits_setTimeout; cbn; rewrite !app_nil_r; exact Hw.
  - intros w Hw. repeat split; intros; try exact Hw;
      rewrite !waits_setTimeout; cbn; rewrite !app_nil_r; exact Hw.
Qed.

(** The [try] block on the idle limiter: either the media group cannot be
    built, or the send is tried and reported. *)
Lemma try_group_idle files i g v w :
  exists thrown v1 w1,
    try_group env files i g v rateLimiter w =
      Some (thrown, v1, rateLimiter, w1) /\
    ((exists e, build_mediaGroup g = inl e /\
                thrown = Some e /\ v1 = v /\ w1 = w) \/
     (exists media success w0,
        build_mediaGroup g = inr media /\
        retry_loop env maxRetries media 0 3000 rateLimiter w =
          Some (success, rateLimiter, w0) /\
        beyond_sending w0 = beyond_sending w /\
        report_group env files i g v success w0 = (thrown, v1, w1))).
Proof.
  unfold try_group. destruct (build_mediaGroup g) as [e|media] eqn:Eb.
  - exists (Some e), v, w. split; [reflexivity|]. left. eauto.
  - destruct (retry_loop_idle maxRetries media 0 3000%Q 3000%Q w)
      as (success & w0 & Hl & Hk).
    unfold rateLimiter. rewrite Hl. cbn [mbind option_bind].
    destruct (report_group env files i g v success w0) as [[thrown v1] w1] eqn:Er.
    exists thrown, v1, w1. split; [reflexivity|]. right.
    exists media, success, w0. repeat split; auto.
    apply (Hk (fun x => beyond_sending x = beyond_sending w));
      [apply beyond_sending_stable | reflexivity].
Qed.

(** What the report does: it accounts for the group, and makes at most one
    call of the reply sink, whose failure is the exception it ends with. *)
Lemma report_group_cases files i g v success w thrown v1 w1 :
  report_group env files i g v success w = (thrown, v1, w1) ->
  v1 = account success g v /\
  fs_of w1 = fs_of w /\
  waits InterGroup w1 = waits InterGroup w /\
  ((replies w1 = replies w /\ thrown = None /\ success = true) \/
   (exists m,
      replies w1 = replies w ++ [(m, reply env (length (replies w)) m)] /\
      thrown = thrown_of (reply env (length (replies w)) m) /\
      m = if success
          then Progress (successCount v + length g) (length files)
          else GroupFailed (i / groupSize + 1))).
Proof.
  unfold report_group, account.
  destruct success.
  - cbn [successCount failedFiles].
    destruct (((successCount v + length g) mod 30 =? 0)
              || (length files <=? i + groupSize)).
    + unfold ctx_reply. intros [= <- <- <-]. repeat split. right. eauto.
    + intros [= <- <- <-]. repeat split. left. auto.
  - unfold ctx_reply. intros [= <- <- <-]. repeat split. right. eauto.
Qed.

(** *** The loop over the groups *)

Lemma ceil_div_lt g n : g * groupSize < n <-> g < ceil_div n groupSize.
Proof.
  unfold ceil_div, groupSize.
  pose proof (Nat.div_mod_eq n 10) as Hd.
  pose proof (Nat.mod_upper_bound n 10 ltac:(lia)) as Hm.
  destruct (Nat.eqb_spec (n mod 10) 0); lia.
Qed.

Lemma ceil_div_le n : ceil_div n groupSize <= n.
Proof.
  unfold ceil_div, groupSize.
  pose proof (Nat.div_mod_eq n 10) as Hd.
  pose proof (Nat.mod_upper_bound n 10 ltac:(lia)) as Hm.
  destruct (Nat.eqb_spec (n mod 10) 0); lia.
Qed.

(** The loop visits the groups 0, 1, ... in order and never stops early:
    an invariant kept by every iteration holds, for the number of groups,
    when the loop ends. *)
Lemma groups_loop_rule (I : nat -> Vars -> World -> Prop) files :
  (forall g v w,
     g < ceil_div (length files) groupSize -> I g v w ->
     exists v' w',
       group_iteration env files (g * groupSize) v rateLimiter w =
         Some (v', rateLimiter, w') /\
       I (S g) v' w') ->
  forall v w, I 0 v w ->
  exists v' w',
    groups_loop env (length files) files 0 v rateLimiter w =
      Some (v', rateLimiter, w') /\
    I (ceil_div (length files) groupSize) v' w'.
Proof.
  intros Hstep.
  assert (Hgen : forall fuel g v w,
    I g v w -> g <= ceil_div (length files) groupSize ->
    ceil_div (length files) groupSize - g <= fuel ->
    exists v' w',
      groups_loop env fuel files (g * groupSize) v rateLimiter w =
        Some (v', rateLimiter, w') /\
      I (ceil_div (length files) groupSize) v' w').
  { induction fuel as [|fuel IH]; intros g v w Hi Hg Hf.
    - assert (g = ceil_div (length files) groupSize) as -> by lia.
      cbn. eauto.
    - cbn [groups_loop].
      destruct (Nat.ltb_spec (g * groupSize) (length files)) as [Hlt|Hge].
      + apply ceil_div_lt in Hlt.
        destruct (Hstep g v w Hlt Hi) as (v1 & w1 & -> & Hi1).
        cbn [mbind option_bind].
        replace (g * groupSize + groupSize) with (S g * groupSize) by lia.
        apply IH; [exact Hi1 | lia | lia].
      + assert (g = ceil_div (length files) groupSize) as ->.
        { destruct (Nat.lt_ge_cases g (ceil_div (length files) groupSize)) as [H|H];
            [apply ceil_div_lt in H; lia | lia]. }
        eauto. }
  intros v w Hi.
  apply (Hgen (length files) 0 v w Hi); [lia|].
  pose proof (ceil_div_le (length files)). lia.
Qed.

(** *** Cleanup and the file system *)

Lemma cleanup_file_cases s w :
  (fs_of (cleanup_file env s w) = fs_of w /\
   (s = None \/ exists f, s = Some f /\ path f ∉ disk w)) \/
  (exists f e,
     s = Some f /\ path f ∈ disk w /\
     unlinkSync_error env (path f) = Some e /\
     disk (cleanup_file env s w) = disk w /\
     unlinks (cleanup_file env s w) = unlinks w ++ [(path f, false)]) \/
  (exists f,
     s = Some f /\ path f ∈ disk w /\
     unlinkSync_error env (path f) = None /\
     disk (cleanup_file env s w) = disk w ∖ {[path f]} /\
     unlinks (cleanup_file env s w) = unlinks w ++ [(path f, true)]).
Proof.
  destruct s as [f|]; [|left; split; [reflexivity | left; reflexivity]].
  unfold cleanup_file, existsSync, unlinkSync.
  destruct (bool_decide_reflect (path f ∈ disk w)) as [Hin|Hout].
  - destruct (unlinkSync_error env (path f)) as [e|] eqn:Ee.
    + right. left. exists f, e. repeat split; auto.
    + right. right. exists f. repeat split; auto.
  - left. split; [reflexivity|]. right. eauto.
Qed.

Lemma in_remove (p q : string) (d : gset string) :
  p ∈ d ∖ {[q]} <-> p ∈ d /\ p <> q.
Proof. rewrite elem_of_difference, elem_of_singleton. reflexivity. Qed.

Lemma cleanup_cons s l w :
  cleanup env (s :: l) w = cleanup env l (cleanup_file env s w).
Proof. reflexivity. Qed.

Lemma cleanup_app l1 l2 w :
  cleanup env (l1 ++ l2) w = cleanup env l2 (cleanup env l1 w).
Proof. unfold cleanup. apply foldl_app. Qed.

(** What the cleanup of a list of slots does to the file system. *)
Lemma cleanup_spec l : forall w,
  exists us,
    unlinks (cleanup env l w) = unlinks w ++ us /\
    disk (cleanup env l w) ⊆ disk w /\
    (forall p, p ∉ disk w -> p ∉ us.*1) /\
    (forall p, removals p us + on_disk p (disk (cleanup env l w)) = on_disk p (disk w)) /\
    (forall f, Some f ∈ l -> path f ∈ disk w -> path f ∈ us.*1) /\
    (forall f, Some f ∈ l -> unlinkSync_error env (path f) = None ->
               path f ∉ disk (cleanup env l w)).
Proof.
  induction l as [|s l IH]; intros w.
  - exists []. cbn. rewrite app_nil_r. repeat split; auto.
    + intros p _. apply not_elem_of_nil.
    + intros f Hf. apply not_elem_of_nil in Hf. contradiction.
    + intros f Hf. apply not_elem_of_nil in Hf. contradiction.
  - rewrite cleanup_cons.
    destruct (IH (cleanup_file env s w)) as (us & Hu & Hd & Hmiss & Hcount & Hatt & Hgone).
    destruct (cleanup_file_cases s w)
      as [[Hfs Hs] | [(f0 & e & -> & Hin & He & Hdk & Hul) | (f0 & -> & Hin & He & Hdk & Hul)]].
    + injection Hfs as Hdk Hul. rewrite Hul in Hu. rewrite Hdk in Hd, Hmiss, Hcount, Hatt.
      exists us. repeat split; auto.
      * intros f Hf Hp. apply elem_of_cons in Hf as [Hf|Hf]; [|eauto].
        destruct Hs as [->|(f' & -> & Hout)]; [discriminate|].
        injection Hf as <-. contradiction.
      * intros f Hf Hp. apply elem_of_cons in Hf as [Hf|Hf]; [|eauto].
        intros Hin. apply Hd in Hin.
        destruct Hs as [->|(f' & -> & Hout)]; [discriminate|].
        injection Hf as <-. contradiction.
    + rewrite Hul in Hu. rewrite Hdk in Hd, Hmiss, Hcount, Hatt.
      exists ((path f0, false) :: us). rewrite <- app_assoc in Hu.
      repeat split; auto.
      * intros p Hp. cbn. rewrite not_elem_of_cons. split; [|auto].
        intros ->. contradiction.
      * intros p. rewrite <- Hcount. unfold removals.
        rewrite filter_cons_False by congruence. reflexivity.
      * intros f Hf Hp. cbn. apply elem_of_cons in Hf as [Hf|Hf].
        -- injection Hf as <-. apply elem_of_cons. left. reflexivity.
        -- apply elem_of_cons. right. eauto.
      * intros f Hf Hp. apply elem_of_cons in Hf as [Hf|Hf]; [|eauto].
        injection Hf as <-. congruence.
    + rewrite Hul in Hu. rewrite Hdk in Hd, Hmiss, Hcount, Hatt.
      exists ((path f0, true) :: us). rewrite <- app_assoc in Hu.
      repeat split; auto.
      * intros x Hx. apply Hd, in_remove in Hx. tauto.
      * intros p Hp. cbn. rewrite not_elem_of_cons. split.
        -- intros ->. contradiction.
        -- apply Hmiss. rewrite in_remove. tauto.
      * intros p. specialize (Hcount p). unfold removals in *.
        destruct (decide (p = path f0)) as [->|Hne].
        -- rewrite filter_cons_True by reflexivity. cbn [length].
           unfold on_disk in *.
           rewrite (bool_decide_eq_true_2 _ Hin).
           rewrite (bool_decide_eq_false_2 (path f0 ∈ disk w ∖ {[path f0]})) in Hcount
             by (rewrite in_remove; tauto).
           lia.
        -- rewrite filter_cons_False by congruence.
           rewrite Hcount. unfold on_disk.
           rewrite (bool_decide_ext (p ∈ disk w ∖ {[path f0]}) (p ∈ disk w))
             by (rewrite in_remove; tauto).
           reflexivity.
      * intros f Hf Hp. cbn. apply elem_of_cons in Hf as [Hf|Hf].
        -- injection Hf as <-. apply elem_of_cons. left. reflexivity.
        -- destruct (decide (path f = path f0)) as [->|Hne].
           ++ apply elem_of_cons. left. reflexivity.
           ++ apply elem_of_cons. right. apply (Hatt f Hf).
              rewrite in_remove. tauto.
      * intros f Hf Hp. apply elem_of_cons in Hf as [Hf|Hf]; [|eauto].
        injection Hf as <-. intros Hin'. apply Hd, in_remove in Hin'. tauto.
Qed.

Lemma cleanup_file_fs s wa wb :
  fs_of wa = fs_of wb ->
  fs_of (cleanup_file env s wa) = fs_of (cleanup_file env s wb).
Proof.
  intros [= Hd Hu]. destruct s as [f|]; [|unfold fs_of; cbn; congruence].
  unfold cleanup_file, existsSync, unlinkSync. rewrite Hd.
  destruct (bool_decide (path f ∈ disk wb)); [|unfold fs_of; congruence].
  destruct (unlinkSync_error env (path f)); unfold fs_of; cbn; congruence.
Qed.

Lemma cleanup_fs l : forall wa wb,
  fs_of wa = fs_of wb -> fs_of (cleanup env l wa) = fs_of (cleanup env l wb).
Proof.
  induction l as [|s l IH]; intros wa wb H; [exact H|].
  rewrite !cleanup_cons. apply IH, cleanup_file_fs, H.
Qed.

(** Cleanup leaves the reply sink and the timers alone. *)
Lemma cleanup_file_rest s w :
  replies (cleanup_file env s w) = replies w /\
  timers (cleanup_file env s w) = timers w.
Proof.
  destruct s as [f|]; [|split; reflexivity].
  unfold cleanup_file, existsSync, unlinkSync.
  destruct (bool_decide (path f ∈ disk w)); [|split; reflexivity].
  destruct (unlinkSync_error env (path f)); split; reflexivity.
Qed.

Lemma cleanup_rest l : forall w,
  replies (cleanup env l w) = replies w /\
  timers (cleanup env l w) = timers w.
Proof.
  induction l as [|s l IH]; intros w; [split; reflexivity|].
  rewrite cleanup_cons. destruct (IH (cleanup_file env s w)) as [-> ->].
  apply cleanup_file_rest.
Qed.

(** Everything the statements below need to know about one iteration on
    the idle limiter. *)
Lemma group_iteration_spec files i v w :
  let g := slice files i (i + groupSize) in
  exists thrown v1 w1 wc,
    try_group env files i g v rateLimiter w =
      Some (thrown, v1, rateLimiter, w1) /\
    group_iteration env files i v rateLimiter w =
      Some (match thrown with None => v1 | Some _ => account false g v1 end,
            rateLimiter,
            setTimeout InterGroup 3000 (cleanup env g wc)) /\
    wc = match thrown with
         | None => w1
         | Some e => console_error (GroupSendError e) w1
         end /\
    fs_of wc = fs_of w /\
    waits InterGroup wc = waits InterGroup w /\
    ((exists e, build_mediaGroup g = inl e /\
                thrown = Some e /\ v1 = v /\ w1 = w) \/
     (exists media success w0,
        build_mediaGroup g = inr media /\
        retry_loop env maxRetries media 0 3000 rateLimiter w =
          Some (success, rateLimiter, w0) /\
        replies w0 = replies w /\
        v1 = account success g v /\
        ((replies w1 = replies w /\ thrown = None /\ success = true) \/
         (exists m,
            replies w1 = replies w ++ [(m, reply env (length (replies w)) m)] /\
            thrown = thrown_of (reply env (length (replies w)) m) /\
            m = if success
                then Progress (successCount v + length g) (length files)
                else GroupFailed (i / groupSize + 1))))).
Proof.
  intros g.
  destruct (try_group_idle files i g v w) as (thrown & v1 & w1 & Ht & Hcase).
  exists thrown, v1, w1,
    (match thrown with
     | None => w1
     | Some e => console_error (GroupSendError e) w1
     end).
  split; [exact Ht|].
  assert (Hfacts : fs_of w1 = fs_of w /\ waits InterGroup w1 = waits InterGroup w).
  { destruct Hcase as [(e & _ & _ & _ & ->) | (media & success & w0 & _ & _ & Hb & Hr)];
      [split; reflexivity|].
    apply report_group_cases in Hr as (_ & Hfs & Hwt & _).
    injection Hb as Hrep Hdisk Hunl _ Hig.
    rewrite Hfs, Hwt. unfold fs_of. rewrite Hdisk, Hunl, Hig. split; reflexivity. }
  destruct Hfacts as [Hfs Hwt].
  split; [|split; [reflexivity|split; [|split]]].
  - unfold group_iteration. cbv zeta. fold g. rewrite Ht. cbn [mbind option_bind].
    unfold close_group, catch_group, account. destruct thrown; reflexivity.
  - destruct thrown; exact Hfs.
  - destruct thrown; exact Hwt.
  - destruct Hcase as [Hc | (media & success & w0 & Hb & Hl & Hbs & Hr)];
      [left; exact Hc|].
    right. exists media, success, w0.
    injection Hbs as Hrep _ _ _ _.
    apply report_group_cases in Hr as (Hv & _ & _ & Hrs).
    rewrite Hrep in Hrs. repeat split; auto.
Qed.

(** *** The whole call *)

(** The call on the idle limiter: the loop over the groups keeps any
    invariant its iterations keep, and the summary is sent after it. *)
Lemma sendFilesInGroups_rule (I : nat -> Vars -> World -> Prop) files w :
  (forall g v w0,
     g < ceil_div (length files) groupSize -> I g v w0 ->
     exists v' w',
       group_iteration env files (g * groupSize) v rateLimiter w0 =
         Some (v', rateLimiter, w') /\
       I (S g) v' w') ->
  I 0 {| successCount := 0; failedFiles := [] |} (setTimeout WarmUp 1000 w) ->
  exists v w1 c w2,
    I (ceil_div (length files) groupSize) v w1 /\
    sendFilesInGroups env files rateLimiter w = Some (c, rateLimiter, w2) /\
    (let summary := Summary (successCount v) (length (failedFiles v))
                      (ceil_div (length files) groupSize) in
     let o := reply env (length (replies w1)) summary in
     c = match o with Returns _ => Returned v | Throws e => Thrown e end /\
     replies w2 = replies w1 ++ [(summary, o)] /\
     fs_of w2 = fs_of w1 /\
     timers w2 = timers w1).
Proof.
  intros Hstep H0.
  destruct (groups_loop_rule I files Hstep _ _ H0) as (v & w1 & Hl & Hi).
  unfold sendFilesInGroups. cbv zeta. rewrite Hl. cbn [mbind option_bind].
  unfold ctx_reply.
  destruct (reply env (length (replies w1))
              (Summary (successCount v) (length (failedFiles v))
                 (ceil_div (length files) groupSize))) as [x|e] eqn:Eo;
    do 4 eexists; (split; [exact Hi|]); (split; [reflexivity|]);
    rewrite Eo; repeat split.
Qed.

Lemma slice_group (files : list Slot) g :
  slice files (g * groupSize) (g * groupSize + groupSize) =
    take groupSize (drop (g * groupSize) files).
Proof. unfold slice. f_equal. lia. Qed.

Lemma take_next_group (files : list Slot) g :
  take (S g * groupSize) files =
    take (g * groupSize) files ++
    slice files (g * groupSize) (g * groupSize + groupSize).
Proof.
  rewrite slice_group, take_take_drop. f_equal. lia.
Qed.

Lemma take_all_groups (files : list Slot) :
  take (ceil_div (length files) groupSize * groupSize) files = files.
Proof.
  apply take_ge.
  destruct (Nat.le_gt_cases (length files)
              (ceil_div (length files) groupSize * groupSize)) as [H|H]; [exact H|].
  apply ceil_div_lt in H. lia.
Qed.

(** The file system after the call is the one the cleanup of all the files,
    in order, leaves. *)
Lemma sendFilesInGroups_fs files w :
  exists c w',
    sendFilesInGroups env files rateLimiter w = Some (c, rateLimiter, w') /\
    fs_of w' = fs_of (cleanup env files w).
Proof.
  destruct (sendFilesInGroups_rule
              (fun g _ w0 => fs_of w0 = fs_of (cleanup env (take (g * groupSize) files) w))
              files w) as (v & w1 & c & w2 & Hi & Hrun & _ & _ & Hfs & _).
  - intros g v w0 Hg Hi.
    destruct (group_iteration_spec files (g * groupSize) v w0)
      as (thrown & v1 & w1 & wc & _ & Hit & _ & Hfs & _).
    do 2 eexists. split; [exact Hit|].
    rewrite take_next_group, cleanup_app.
    change (fs_of (setTimeout InterGroup 3000 ?x)) with (fs_of x).
    apply cleanup_fs. rewrite Hfs. exact Hi.
  - reflexivity.
  - exists c, w2. split; [exact Hrun|].
    rewrite Hfs, Hi, take_all_groups. reflexivity.
Qed.

(** C2, as amended.  Whatever happens to the sends, every file reference
    whose path exists when the call starts has its deletion attempted; a
    path that is missing is skipped without any call; and unless
    [unlinkSync] itself throws on the path, the file is gone when the call
    ends and was removed exactly once. *)
Theorem every_file_cleaned_up (files : list Slot) (w : World) :
  exists c w' us,
    sendFilesInGroups env files rateLimiter w = Some (c, rateLimiter, w') /\
    unlinks w' = unlinks w ++ us /\
    forall f, Some f ∈ files ->
      (path f ∈ disk w -> (path f ∈ us.*1)) /\
      (path f ∉ disk w -> (path f ∉ us.*1) /\ (path f ∉ disk w')) /\
      (unlinkSync_error env (path f) = None ->
         (path f ∉ disk w') /\
         removals (path f) us = on_disk (path f) (disk w)).
Proof.
  destruct (sendFilesInGroups_fs files w) as (c & w' & Hrun & Hfs).
  destruct (cleanup_spec files w) as (us & Hu & Hd & Hmiss & Hcount & Hatt & Hgone).
  injection Hfs as Hdisk Hunl.
  exists c, w', us. split; [exact Hrun|]. split; [congruence|].
  intros f Hf. rewrite Hdisk. split; [|split].
  - intros Hin. apply (Hatt f Hf Hin).
  - intros Hout. split; [apply Hmiss, Hout|]. intros Hin. apply Hd in Hin. contradiction.
  - intros He. pose proof (Hgone f Hf He) as Hg. split; [exact Hg|].
    specialize (Hcount (path f)). unfold on_disk in Hcount at 1.
    rewrite bool_decide_eq_false_2 in Hcount by exact Hg. lia.
Qed.

(** *** The partition into groups and the accounting *)

Lemma groups_length files :
  length (groups files) = ceil_div (length files) groupSize.
Proof. unfold groups. rewrite length_fmap, length_seq. reflexivity. Qed.

Lemma groups_lookup files g :
  g < ceil_div (length files) groupSize ->
  groups files !! g =
    Some (slice files (g * groupSize) (g * groupSize + groupSize)).
Proof.
  intros Hg. unfold groups. rewrite list_lookup_fmap, lookup_seq_lt by exact Hg.
  reflexivity.
Qed.

Lemma groups_take_concat files g :
  g <= ceil_div (length files) groupSize ->
  concat (take g (groups files)) = take (g * groupSize) files.
Proof.
  induction g as [|g IH]; intros Hg; [reflexivity|].
  rewrite (take_S_r _ _ _ (groups_lookup files g ltac:(lia))).
  rewrite concat_app, IH by lia. cbn [concat]. rewrite app_nil_r.
  symmetry. apply take_next_group.
Qed.

Lemma groups_concat files : concat (groups files) = files.
Proof.
  rewrite <- (firstn_all (groups files)), groups_length.
  rewrite groups_take_concat by lia. apply take_all_groups.
Qed.

Lemma groups_bounded files :
  Forall (fun g => 1 <= length g <= groupSize) (groups files).
Proof.
  apply Forall_lookup. intros g grp Hl.
  assert (Hg : g < ceil_div (length files) groupSize).
  { rewrite <- groups_length. apply lookup_lt_Some in Hl. exact Hl. }
  rewrite groups_lookup in Hl by exact Hg. injection Hl as <-.
  rewrite slice_group, length_take, length_drop.
  apply ceil_div_lt in Hg. unfold groupSize in *. lia.
Qed.

Lemma tally_snoc fates : forall gs b g v,
  length fates = length gs ->
  tally (fates ++ [b]) (gs ++ [g]) v = account b g (tally fates gs v).
Proof.
  induction fates as [|a fates IH]; intros [|g0 gs] b g v Hlen;
    try discriminate; [reflexivity|].
  cbn. apply IH. cbn in Hlen. lia.
Qed.

Lemma account_total b g v :
  successCount (account b g v) + length (failedFiles (account b g v)) =
    successCount v + length (failedFiles v) + length g.
Proof. destruct b; cbn; rewrite ?length_app; lia. Qed.

Lemma tally_total fates : forall gs v,
  length fates = length gs ->
  successCount (tally fates gs v) + length (failedFiles (tally fates gs v)) =
    successCount v + length (failedFiles v) + length (concat gs).
Proof.
  induction fates as [|a fates IH]; intros [|g0 gs] v Hlen; try discriminate.
  - cbn. lia.
  - cbn [tally concat]. rewrite IH by (cbn in Hlen; lia).
    rewrite account_total, length_app. lia.
Qed.

(** C1, as amended.  When no call of the reply sink for a progress or a
    failure message throws, the files are cut into the consecutive groups of
    1 to 10 entries, in order; every group goes as a whole either to the
    success count or to the failed files; the two totals, which the summary
    reports, add up to the number of files; and the call returns them when
    the sink accepts the summary and rethrows the sink's error otherwise. *)
Theorem outcome_accounts_for_every_file (files : list Slot) (w : World) :
  (forall n m, (forall a b c, m <> Summary a b c) ->
               exists x, reply env n m = Returns x) ->
  exists c v w' fates o,
    sendFilesInGroups env files rateLimiter w = Some (c, rateLimiter, w') /\
    last (replies w') =
      Some (Summary (successCount v) (length (failedFiles v))
              (ceil_div (length files) groupSize), o) /\
    c = match o with Returns _ => Returned v | Throws e => Thrown e end /\
    concat (groups files) = files /\
    Forall (fun g => 1 <= length g <= 10) (groups files) /\
    length fates = length (groups files) /\
    v = tally fates (groups files) {| successCount := 0; failedFiles := [] |} /\
    successCount v + length (failedFiles v) = length files.
Proof.
  intros Hreply.
  pose (v0 := {| successCount := 0; failedFiles := [] |}).
  destruct (sendFilesInGroups_rule
              (fun g v _ => exists fates,
                 length fates = g /\ v = tally fates (take g (groups files)) v0)
              files w) as (v & w1 & c & w2 & Hi & Hrun & Hc & Hr & _).
  - intros g v w0 Hg (fates & Hlen & Hv).
    destruct (group_iteration_spec files (g * groupSize) v w0)
      as (thrown & v1 & w1 & wc & _ & Hit & _ & _ & _ & Hcase).
    do 2 eexists. split; [exact Hit|].
    rewrite (take_S_r _ _ _ (groups_lookup files g Hg)).
    assert (Hl : length fates = length (take g (groups files))).
    { rewrite length_take, groups_length. lia. }
    destruct Hcase as [(e & _ & -> & -> & _) |
                       (media & success & w3 & _ & _ & _ & -> & Hr)].
    + exists (fates ++ [false]). rewrite length_app. cbn. split; [lia|].
      rewrite tally_snoc by exact Hl. subst v. reflexivity.
    + assert (thrown = None) as ->.
      { destruct Hr as [(_ & -> & _) | (m & _ & -> & Hm)]; [reflexivity|].
        destruct (Hreply (length (replies w0)) m) as [x ->]; [|reflexivity].
        intros a b c0. subst m. destruct success; discriminate. }
      exists (fates ++ [success]). rewrite length_app. cbn. split; [lia|].
      rewrite tally_snoc by exact Hl. subst v. reflexivity.
  - exists []. split; reflexivity.
  - destruct Hi as (fates & Hlen & Hv).
    rewrite <- groups_length, firstn_all in Hv.
    cbv zeta in Hc, Hr.
    exists c, v, w2, fates,
      (reply env (length (replies w1))
         (Summary (successCount v) (length (failedFiles v))
            (ceil_div (length files) groupSize))).
    split; [exact Hrun|]. split; [rewrite Hr; apply last_snoc|].
    split; [exact Hc|].
    split; [apply groups_concat|]. split; [apply groups_bounded|].
    split; [rewrite groups_length; exact Hlen|]. split; [exact Hv|].
    rewrite Hv, tally_total by (rewrite groups_length; exact Hlen).
    rewrite groups_concat. reflexivity.
Qed.

(** *** Errors inside one group *)






(** C8, as amended.  For the empty list no group is processed: nothing is
    submitted, sent or deleted and no inter-group wait is made; the reply
    sink is called exactly once, with the summary of 0 successes, 0
    failures and 0 groups and no hint to retry; and the call returns
    (0, []) when the sink accepts the summary and rethrows the sink's error
    otherwise. *)
Theorem empty_list_only_sends_summary (w : World) :
  exists c w',
    sendFilesInGroups env [] rateLimiter w = Some (c, rateLimiter, w') /\
    c = match reply env (length (replies w)) (Summary 0 0 0) with
        | Returns _ => Returned {| successCount := 0; failedFiles := [] |}
        | Throws e => Thrown e
        end /\
    replies w' =
      replies w ++ [(Summary 0 0 0, reply env (length (replies w)) (Summary 0 0 0))] /\
    timers w' = timers w ++ [(WarmUp, 1000%Q)] /\
    promises w' = promises w /\
    sends w' = sends w /\
    unlinks w' = unlinks w /\
    disk w' = disk w /\
    render (Summary 0 0 0) =
      "📊 Ringkasan Pengiriman:" +:+ nl +:+
      "✅ Berhasil: 0 file" +:+ nl +:+
      "❌ Gagal: 0 file" +:+ nl +:+
      "📦 Total Grup: 0" +:+ nl.
Proof.
  unfold sendFilesInGroups, ctx_reply. cbn -[render].
  destruct (reply env (length (replies w)) (Summary 0 0 0)) as [x|e];
    do 2 eexists; (split; [reflexivity|]); repeat split.
Qed.

(** C9.  When the send of a group succeeded, the progress message is due
    and the reply sink throws on it, the group stays in the success count
    and its files are appended to the failed files as well. *)
Theorem failed_progress_reply_counts_group_twice
    (files : list Slot) (i : nat) (v : Vars) (w w0 : World)
    (media : list Media) (e : value) :
  let g := slice files i (i + groupSize) in
  build_mediaGroup g = inr media ->
  retry_loop env maxRetries media 0 3000 rateLimiter w =
    Some (true, rateLimiter, w0) ->
  (successCount v + length g) mod 30 = 0 \/ length files <= i + groupSize ->
  reply env (length (replies w0))
    (Progress (successCount v + length g) (length files)) = Throws e ->
  exists w',
    group_iteration env files i v rateLimiter w =
      Some ({| successCount := successCount v + length g;
               failedFiles := failedFiles v ++ g |},
            rateLimiter, w').
Proof.
  intros g Hb Hl Hdue Hr.
  unfold group_iteration, try_group. cbv zeta. fold g.
  rewrite Hb, Hl. cbn [mbind option_bind].
  unfold report_group. cbn [successCount failedFiles].
  assert (Hcond : ((successCount v + length g) mod 30 =? 0)
                  || (length files <=? i + groupSize) = true).
  { apply orb_true_iff. destruct Hdue as [H|H];
      [left; apply Nat.eqb_eq, H | right; apply Nat.leb_le, H]. }
  rewrite Hcond. unfold ctx_reply. rewrite Hr. cbn. eauto.
Qed.

(** C10, as amended.  When the [try] block of a group ends with an
    exception, the exception comes from the construction of the media group
    or from the reply sink refusing the one notification the block sends:
    the progress message after a successful send, or the failure
    notification after the retry loop gave up.  In each case the files of
    the group are appended to the failed files and the cleanup runs.  In
    the first two cases the reply sink has received no failure notification
    for the group; in the third it has received that very notification,
    with the group's ordinal, and the files of the group are then among the
    failed files twice. *)
Theorem group_error_outside_retry_loop
    (files : list Slot) (i : nat) (v v1 : Vars) (w w1 : World) (e : value) :
  let g := slice files i (i + groupSize) in
  try_group env files i g v rateLimiter w =
    Some (Some e, v1, rateLimiter, w1) ->
  exists w',
    group_iteration env files i v rateLimiter w =
      Some ({| successCount := successCount v1;
               failedFiles := failedFiles v1 ++ g |},
            rateLimiter, w') /\
    w' = setTimeout InterGroup 3000
           (cleanup env g (console_error (GroupSendError e) w1)) /\
    (forall f, Some f ∈ g -> unlinkSync_error env (path f) = None ->
               path f ∉ disk w') /\
    (replies w' = replies w \/
     exists m, replies w' = replies w ++ [(m, Throws e)]) /\
    ((build_mediaGroup g = inl e /\ v1 = v /\ replies w' = replies w) \/
     (exists media m,
        build_mediaGroup g = inr media /\
        reply env (length (replies w)) m = Throws e /\
        replies w' = replies w ++ [(m, Throws e)] /\
        ((m = Progress (successCount v + length g) (length files) /\
          v1 = account true g v) \/
         (m = GroupFailed (i / groupSize + 1) /\
          v1 = account false g v)))).
Proof.
  intros g Ht.
  pose (w' := setTimeout InterGroup 3000
                (cleanup env g (console_error (GroupSendError e) w1))).
  assert (Hrep : replies w' = replies w1).
  { subst w'.
    change (replies (cleanup env g (console_error (GroupSendError e) w1)) =
            replies (console_error (GroupSendError e) w1)).
    apply cleanup_rest. }
  exists w'. split; [|split; [reflexivity|split]].
  - unfold group_iteration. cbv zeta. fold g. rewrite Ht. reflexivity.
  - intros f Hf He. subst w'.
    change (disk (setTimeout InterGroup 3000 ?x)) with (disk x).
    destruct (cleanup_spec g (console_error (GroupSendError e) w1))
      as (us & _ & _ & _ & _ & _ & Hgone).
    apply (Hgone f Hf He).
  - rewrite Hrep.
    destruct (try_group_idle files i g v w) as (thrown & v1' & w1' & Ht' & Hcase).
    rewrite Ht in Ht'. injection Ht' as <- <- <-.
    destruct Hcase as [(e' & Hb & [= <-] & -> & ->) |
                       (media & success & w0 & Hb & Hl & Hbs & Hr)].
    + split; [left; reflexivity|]. left. auto.
    + injection Hbs as Hrep0 _ _ _ _.
      apply report_group_cases in Hr as (Hv & _ & _ & Hrs).
      rewrite Hrep0 in Hrs.
      destruct Hrs as [(_ & [=] & _) | (m & Hrw & Hth & Hm)].
      destruct (reply env (length (replies w)) m) as [x|e'] eqn:Er;
        [discriminate|]. injection Hth as <-.
      split; [right; eauto|]. right. exists media, m.
      repeat split; auto.
      destruct success; [left|right]; auto.
Qed.
End DeliveryFacts.

(** *** The sender on concrete runs *)

(** C1 fails as stated.  Three files are sent in one group.  When the reply
    sink throws on the summary, the call rethrows and returns no outcome.
    When it throws on the progress message, the outcome counts the three
    files both as sent and as failed: 3 + 3 is not 3. *)
Lemma failed_reply_breaks_accounting :
  (fun r => (r.1.1, replies r.2)) <$>
    sendFilesInGroups Scenario.no_summary Scenario.three_files rateLimiter
      Scenario.on_disk_3 =
    Some (Thrown (Str "blocked"),
          [(Progress 3 3, Returns Undefined);
           (Summary 3 0 1, Throws (Str "blocked"))]) /\
  (fun r => r.1.1) <$>
    sendFilesInGroups Scenario.muted Scenario.three_files rateLimiter
      Scenario.on_disk_3 =
    Some (Returned {| successCount := 3; failedFiles := Scenario.three_files |}) /\
  3 + length Scenario.three_files = 6 /\
  length Scenario.three_files = 3.
Proof. repeat split; vm_compute; reflexivity. Qed.

(** C1, as amended, on three files and a reply sink that accepts
    everything. *)
Lemma outcome_accounts_for_every_file_witness :
  exists c v w' fates o,
    sendFilesInGroups Scenario.quiet Scenario.three_files rateLimiter
      Scenario.on_disk_3 = Some (c, rateLimiter, w') /\
    last (replies w') =
      Some (Summary (successCount v) (length (failedFiles v))
              (ceil_div (length Scenario.three_files) groupSize), o) /\
    c = match o with Returns _ => Returned v | Throws e => Thrown e end /\
    concat (groups Scenario.three_files) = Scenario.three_files /\
    Forall (fun g => 1 <= length g <= 10) (groups Scenario.three_files) /\
    length fates = length (groups Scenario.three_files) /\
    v = tally fates (groups Scenario.three_files)
          {| successCount := 0; failedFiles := [] |} /\
    successCount v + length (failedFiles v) = length Scenario.three_files.
Proof.
  apply (outcome_accounts_for_every_file Scenario.quiet Scenario.three_files
           Scenario.on_disk_3).
  intros n m _. exists Undefined. reflexivity.
Defined.

(** C2 fails as stated: when [unlinkSync] throws, the error is logged and
    the call returns with the three files still on disk. *)
Lemma failed_unlink_leaves_the_file :
  (fun r => (r.1.1, elements (disk r.2), unlinks r.2, console r.2)) <$>
    sendFilesInGroups Scenario.locked Scenario.three_files rateLimiter
      Scenario.on_disk_3 =
    Some (Returned {| successCount := 3; failedFiles := [] |},
          elements (disk Scenario.on_disk_3),
          [("1.vcf", false); ("2.vcf", false); ("3.vcf", false)],
          [FileCleanupError (Str "EBUSY"); FileCleanupError (Str "EBUSY");
           FileCleanupError (Str "EBUSY")]) /\
  bool_decide ("1.vcf" ∈ disk Scenario.on_disk_3) = true.
Proof. split; vm_compute; reflexivity. Qed.

(** C2, as amended, on three files and a file system that obeys: each file
    is removed once, when the sends succeed and when they are all refused. *)
Lemma every_file_cleaned_up_witness :
  (exists c w' us,
     sendFilesInGroups Scenario.quiet Scenario.three_files rateLimiter
       Scenario.on_disk_3 = Some (c, rateLimiter, w') /\
     unlinks w' = unlinks Scenario.on_disk_3 ++ us /\
     forall f, Some f ∈ Scenario.three_files ->
       (path f ∈ disk Scenario.on_disk_3 -> (path f ∈ us.*1)) /\
       (path f ∉ disk Scenario.on_disk_3 -> (path f ∉ us.*1) /\ (path f ∉ disk w')) /\
       (unlinkSync_error Scenario.quiet (path f) = None ->
          (path f ∉ disk w') /\
          removals (path f) us = on_disk (path f) (disk Scenario.on_disk_3))) /\
  (fun r => (r.1.1, elements (disk r.2), unlinks r.2)) <$>
    sendFilesInGroups Scenario.quiet Scenario.three_files rateLimiter
      Scenario.on_disk_3 =
    Some (Returned {| successCount := 3; failedFiles := [] |},
          [], [("1.vcf", true); ("2.vcf", true); ("3.vcf", true)]) /\
  (fun r => (r.1.1, elements (disk r.2), unlinks r.2)) <$>
    sendFilesInGroups Scenario.offline Scenario.three_files rateLimiter
      Scenario.on_disk_3 =
    Some (Returned {| successCount := 0; failedFiles := Scenario.three_files |},
          [], [("1.vcf", true); ("2.vcf", true); ("3.vcf", true)]).
Proof.
  split; [|split].
  - exact (every_file_cleaned_up Scenario.quiet Scenario.three_files
             Scenario.on_disk_3).
  - vm_compute. reflexivity.
  - vm_compute. reflexivity.
Defined.



(** C8 fails as stated: when the reply sink throws on the summary, the call
    on the empty list rethrows and returns no outcome. *)
Lemma empty_list_summary_failure_is_rethrown :
  (fun r => (r.1.1, replies r.2, console r.2)) <$>
    sendFilesInGroups Scenario.deaf [] rateLimiter (initial_world ∅) =
    Some (Thrown (Str "blocked"),
          [(Summary 0 0 0, Throws (Str "blocked"))],
          [SendFilesError (Str "blocked")]).
Proof. vm_compute. reflexivity. Qed.

(** C9 on the three files, sent at once, and the sink that refuses the
    progress message: the group is counted twice, and so it is in the
    outcome the call returns. *)
Lemma failed_progress_reply_counts_group_twice_witness :
  (exists w',
     group_iteration Scenario.muted Scenario.three_files 0
       {| successCount := 0; failedFiles := [] |} rateLimiter Scenario.on_disk_3 =
       Some ({| successCount := 0 + length (slice Scenario.three_files 0 (0 + groupSize));
                failedFiles := [] ++ slice Scenario.three_files 0 (0 + groupSize) |},
             rateLimiter, w')) /\
  (fun r => (r.1.1, replies r.2)) <$>
    sendFilesInGroups Scenario.muted Scenario.three_files rateLimiter
      Scenario.on_disk_3 =
    Some (Returned {| successCount := 3; failedFiles := Scenario.three_files |},
          [(Progress 3 3, Throws (Str "blocked"));
           (Summary 3 3 1, Returns Undefined)]).
Proof.
  split; [|vm_compute; reflexivity].
  refine (failed_progress_reply_counts_group_twice Scenario.muted
            Scenario.three_files 0 {| successCount := 0; failedFiles := [] |}
            Scenario.on_disk_3 Scenario.sent_3 Scenario.three_media (Str "blocked")
            _ _ _ _).
  - reflexivity.
  - vm_compute. reflexivity.
  - right. unfold groupSize. cbn. lia.
  - reflexivity.
Defined.

(** C10 on a group with a [null] slot: the media group cannot be built. *)
Lemma group_error_outside_retry_loop_witness :
  exists w',
    group_iteration Scenario.quiet [Scenario.file "1.vcf"; None] 0
      {| successCount := 0; failedFiles := [] |} rateLimiter Scenario.on_disk_3 =
      Some ({| successCount := 0;
               failedFiles := [] ++ [Scenario.file "1.vcf"; None] |},
            rateLimiter, w') /\
    ("1.vcf" ∉ disk w') /\
    replies w' = [].
Proof.
  destruct (group_error_outside_retry_loop Scenario.quiet
              [Scenario.file "1.vcf"; None] 0
              {| successCount := 0; failedFiles := [] |}
              {| successCount := 0; failedFiles := [] |}
              Scenario.on_disk_3 Scenario.on_disk_3 null_path eq_refl)
    as (w' & Hit & _ & Hgone & _ & Hcase).
  exists w'. split; [exact Hit|]. split.
  - apply (Hgone {| path := "1.vcf"; count := None |}); [|reflexivity].
    apply elem_of_cons. left. reflexivity.
  - destruct Hcase as [(_ & _ & Hr) | (media & m & Hb & _)];
      [exact Hr | discriminate Hb].
Defined.

(** C10 fails as stated.  The sends of the three files are refused five
    times and the retry loop gives up; the reply sink then refuses the
    failure notification.  This error is raised outside the retry loop,
    while the notification is emitted: the [try] block ends with it, the
    [catch] block appends the three files a second time, and yet the
    notification that names the group, [ke-1], has been handed to the reply
    sink. *)
Lemma failure_notification_can_be_the_error :
  (fun r => (r.1.1.1, r.1.1.2, replies r.2)) <$>
    try_group Scenario.cut_off Scenario.three_files 0
      (slice Scenario.three_files 0 (0 + groupSize))
      {| successCount := 0; failedFiles := [] |} rateLimiter
      Scenario.on_disk_3 =
    Some (Some (Str "blocked"),
          {| successCount := 0; failedFiles := Scenario.three_files |},
          [(GroupFailed 1, Throws (Str "blocked"))]) /\
  (fun r => (r.1.1, replies r.2, elements (disk r.2))) <$>
    sendFilesInGroups Scenario.cut_off Scenario.three_files rateLimiter
      Scenario.on_disk_3 =
    Some (Returned {| successCount := 0;
                      failedFiles := Scenario.three_files ++ Scenario.three_files |},
          [(GroupFailed 1, Throws (Str "blocked"));
           (Summary 0 6 1, Returns Undefined)],
          []) /\
  render (GroupFailed 1) =
    "⚠️ Gagal mengirim grup file ke-1. Mencoba melanjutkan...".
Proof. repeat split; vm_compute; reflexivity. Qed.

(** ** Facts about strings *)

Section JsFacts.
Import Js.

Lemma space_not_digit (c : N) : is_space c = true -> is_digit c = false.
Proof.
  unfold is_space, is_line_terminator, is_digit.
  rewrite !orb_true_iff, !andb_true_iff, andb_false_iff, !N.eqb_eq,
    !N.leb_le, !N.leb_gt.
  lia.
Qed.

Lemma trimStart_suffix (s : str) : trimStart s `suffix_of` s.
Proof.
  induction s as [|c s IH]; cbn; [done|].
  destruct (is_space c); [by apply suffix_cons_r | done].
Qed.

Lemma trimStart_head (s : str) :
  match trimStart s with c :: _ => is_space c = false | [] => True end.
Proof.
  induction s as [|c s IH]; cbn; [done|].
  destruct (is_space c) eqn:E; [done | by rewrite E].
Qed.

Lemma trimStart_keep (c : N) (s : str) :
  is_space c = false -> trimStart (c :: s) = c :: s.
Proof. intros E. cbn. by rewrite E. Qed.

Lemma trimStart_skip (a s : str) :
  Forall (fun c => is_space c = true) a -> trimStart (a ++ s) = trimStart s.
Proof. induction 1 as [|c a E _ IH]; cbn; [done | by rewrite E]. Qed.

Lemma trimStart_idem (s : str) : trimStart (trimStart s) = trimStart s.
Proof.
  pose proof (trimStart_head s) as H.
  destruct (trimStart s) as [|c t]; [done | by apply trimStart_keep].
Qed.

Lemma trimEnd_snoc (s : str) (c : N) :
  trimEnd (s ++ [c]) = if is_space c then trimEnd s else s ++ [c].
Proof.
  unfold trimEnd. rewrite reverse_snoc.
  change (trimStart (c :: reverse s))
    with (if is_space c then trimStart (reverse s) else c :: reverse s).
  destruct (is_space c); [done|]. by rewrite reverse_cons, reverse_involutive.
Qed.

Lemma trimEnd_keep (s : str) (c : N) :
  is_space c = false -> trimEnd (s ++ [c]) = s ++ [c].
Proof. intros E. by rewrite trimEnd_snoc, E. Qed.

Lemma trimEnd_prefix (s : str) : trimEnd s `prefix_of` s.
Proof.
  unfold trimEnd. destruct (trimStart_suffix (reverse s)) as [k Hk].
  exists (reverse k).
  apply (f_equal reverse) in Hk.
  by rewrite reverse_involutive, reverse_app in Hk.
Qed.

Lemma trimEnd_last (s : str) :
  match last (trimEnd s) with Some c => is_space c = false | None => True end.
Proof.
  unfold trimEnd. pose proof (trimStart_head (reverse s)) as H.
  destruct (trimStart (reverse s)) as [|c t]; [done|].
  by rewrite reverse_cons, last_snoc.
Qed.

Lemma trimEnd_idem (s : str) : trimEnd (trimEnd s) = trimEnd s.
Proof.
  unfold trimEnd. by rewrite reverse_involutive, trimStart_idem.
Qed.

(** Stripping the end leaves a stripped start alone. *)
Lemma trimStart_trimEnd (s : str) :
  trimStart (trimEnd (trimStart s)) = trimEnd (trimStart s).
Proof.
  pose proof (trimStart_head s) as H.
  destruct (trimEnd_prefix (trimStart s)) as [k Hk].
  destruct (trimEnd (trimStart s)) as [|c t] eqn:E; [done|].
  rewrite Hk in H. cbn in H. by apply trimStart_keep.
Qed.

Lemma trim_idem (s : str) : trim (trim s) = trim s.
Proof. unfold trim. by rewrite trimStart_trimEnd, trimEnd_idem. Qed.

Lemma trim_Forall (P : N -> Prop) (s : str) : Forall P s -> Forall P (trim s).
Proof.
  intros H. unfold trim.
  destruct (trimStart_suffix s) as [k Hk].
  destruct (trimEnd_prefix (trimStart s)) as [k' Hk'].
  rewrite Hk, Hk' in H.
  by apply Forall_app in H as [_ [? _]%Forall_app].
Qed.

(** A string that neither starts nor ends with white space is its own
    trim. *)
Lemma trim_keep (s : str) :
  match s with c :: _ => is_space c = false | [] => True end ->
  match last s with Some c => is_space c = false | None => True end ->
  trim s = s.
Proof.
  intros Hh Hl. unfold trim.
  assert (trimStart s = s) as ->.
  { destruct s as [|c s]; [done | by apply trimStart_keep]. }
  destruct s as [|c s _] using rev_ind; [done|].
  rewrite last_snoc in Hl. by apply trimEnd_keep.
Qed.

Lemma trim_nil_iff (s : str) :
  trim s = [] <-> Forall (fun c => is_space c = true) s.
Proof.
  unfold trim. split.
  - intros H.
    assert (trimStart s = []) as Hs.
    { pose proof (trimStart_head s) as Hh.
      destruct (trimStart s) as [|c t] eqn:E; [done|].
      exfalso. clear E. revert c Hh H.
      induction t as [|a t IH] using rev_ind; intros c Hh H.
      - change [c] with ([] ++ [c]) in H.
        rewrite trimEnd_snoc, Hh in H. done.
      - rewrite app_comm_cons, trimEnd_snoc in H.
        destruct (is_space a); [by eapply IH | by destruct t]. }
    clear H. induction s as [|c s IH]; [done|].
    cbn in Hs. destruct (is_space c) eqn:E; [|done].
    constructor; auto.
  - intros H. rewrite <- (app_nil_r s), trimStart_skip by done. done.
Qed.

(** The trim and the digit filter commute: white space holds no digit. *)
Lemma filter_digit_trimStart (s : str) :
  filter (fun c => is_digit c) (trimStart s) = filter (fun c => is_digit c) s.
Proof.
  induction s as [|c s IH]; [done|]. cbn [trimStart].
  destruct (is_space c) eqn:E; [|done].
  rewrite filter_cons_False; [done|].
  rewrite (space_not_digit c E). intros [].
Qed.

Lemma filter_digit_trim (s : str) :
  filter (fun c => is_digit c) (trim s) = filter (fun c => is_digit c) s.
Proof.
  unfold trim, trimEnd.
  rewrite filter_reverse, filter_digit_trimStart, <- filter_reverse,
    reverse_involutive.
  apply filter_digit_trimStart.
Qed.

Lemma lit_inj (a b : string) : lit a = lit b -> a = b.
Proof.
  unfold lit. revert b. induction a as [|c a IH]; intros [|d b]; cbn; try done.
  intros [= H1 H2]. f_equal; [|by apply IH].
  rewrite <- (Ascii.ascii_N_embedding c), <- (Ascii.ascii_N_embedding d).
  by rewrite H1.
Qed.

#[global] Instance dec_inj : Inj (=) (=) dec.
Proof. intros m n H. by apply pretty_nat_inj, lit_inj. Qed.

Lemma pretty_N_char_digit (x : N) :
  is_digit (Ascii.N_of_ascii (pretty_N_char x)) = true.
Proof. by destruct x as [|[[[[]|[]|]|[[]|[]|]|]|[[[]|[]|]|[[]|[]|]|]|]]. Qed.

Lemma pretty_N_go_digits (x : N) (s : string) :
  Forall (fun c => is_digit c = true) (lit s) ->
  Forall (fun c => is_digit c = true) (lit (pretty_N_go x s)).
Proof.
  revert s. induction (N.lt_wf_0 x) as [x _ IH]; intros s Hs.
  destruct (decide (x = 0%N)) as [->|Hx]; [by rewrite pretty_N_go_0|].
  rewrite pretty_N_go_step by lia.
  apply IH; [apply N.div_lt; lia|].
  constructor; [apply pretty_N_char_digit | done].
Qed.

Lemma pretty_N_go_length (x : N) (s : string) :
  (String.length s <= String.length (pretty_N_go x s))%nat.
Proof.
  revert s. induction (N.lt_wf_0 x) as [x _ IH]; intros s.
  destruct (decide (x = 0%N)) as [->|Hx]; [by rewrite pretty_N_go_0|].
  rewrite pretty_N_go_step by lia.
  etrans; [|apply IH; apply N.div_lt; lia]. cbn. lia.
Qed.

(** A rendered number is a non-empty run of digits. *)
Lemma dec_digits (n : nat) : Forall (fun c => is_digit c = true) (dec n).
Proof.
  unfold dec, pretty, pretty_nat, pretty, pretty_N.
  destruct (decide (N.of_nat n = 0%N)).
  - repeat constructor.
  - by apply pretty_N_go_digits.
Qed.

Lemma dec_nonempty (n : nat) : dec n <> [].
Proof.
  unfold dec, pretty, pretty_nat, pretty, pretty_N.
  destruct (decide (N.of_nat n = 0%N)) as [|Hn]; [done|].
  rewrite pretty_N_go_step by lia.
  pose proof (pretty_N_go_length (N.of_nat n `div` 10)
    (String (pretty_N_char (N.of_nat n `mod` 10)) "")) as H.
  intros E. unfold lit in E. apply fmap_nil_inv in E.
  destruct (pretty_N_go _ _); [cbn in H; lia | done].
Qed.

End JsFacts.

Section SplitFacts.
Import Js.

Lemma split_from_nonempty (sep : str) (skip : nat) (s : str) :
  split_from sep skip s <> [].
Proof.
  revert skip. induction s as [|c s IH]; intros skip; cbn; [done|].
  destruct skip; [|apply IH].
  destruct (startsWith sep (c :: s)); [done|].
  by destruct (split_from sep 0 s).
Qed.

Lemma split_char_cons (c x : N) (s : str) :
  split [c] (x :: s) =
  if (x =? c)%N then [] :: split [c] s
  else match split [c] s with
       | piece :: pieces => (x :: piece) :: pieces
       | [] => [[x]]
       end.
Proof.
  unfold split. cbn. destruct (x =? c)%N; cbn; [done|].
  by destruct s.
Qed.

(** A text that holds no separator is one piece. *)
Lemma split_char_absent (c : N) (s : str) :
  Forall (fun x => x <> c) s -> split [c] s = [s].
Proof.
  induction 1 as [|x s Hx _ IH]; [done|].
  rewrite split_char_cons, IH. by apply N.eqb_neq in Hx as ->.
Qed.

Lemma split_char_app (c : N) (a s : str) :
  Forall (fun x => x <> c) a -> split [c] (a ++ c :: s) = a :: split [c] s.
Proof.
  induction 1 as [|x a Hx _ IH]; cbn [app].
  - by rewrite split_char_cons, N.eqb_refl.
  - rewrite split_char_cons, IH. by apply N.eqb_neq in Hx as ->.
Qed.

(** Splitting undoes joining, for pieces that hold no separator. *)
Lemma split_join (c : N) (pieces : list str) :
  pieces <> [] -> Forall (Forall (fun x => x <> c)) pieces ->
  split [c] (join [c] pieces) = pieces.
Proof.
  intros Hne H. induction H as [|p ps Hp Hps IH]; [done|].
  destruct ps as [|q ps].
  - by apply split_char_absent.
  - change (join [c] (p :: q :: ps)) with (p ++ c :: join [c] (q :: ps)).
    rewrite split_char_app by done. f_equal. by apply IH.
Qed.

(** The pieces are made of code units of the text. *)
Lemma split_char_Forall (P : N -> Prop) (c : N) (s : str) :
  Forall P s -> Forall (Forall P) (split [c] s).
Proof.
  induction 1 as [|x s Hx _ IH]; [by repeat constructor|].
  rewrite split_char_cons. destruct (x =? c)%N; [by constructor|].
  destruct (split [c] s) as [|p ps]; [by repeat constructor|].
  inversion_clear IH. by repeat constructor.
Qed.

Lemma startsWith_app (sep rest : str) : startsWith sep (sep ++ rest) = true.
Proof. induction sep as [|c sep IH]; [done|]. cbn. by rewrite N.eqb_refl. Qed.

Lemma split_from_skip (sep a rest : str) :
  split_from sep (length a) (a ++ rest) = split_from sep 0 rest.
Proof. induction a as [|c a IH]; [done | exact IH]. Qed.

(** A separator at the start of the text opens an empty piece. *)
Lemma split_at_separator (c : N) (sep rest : str) :
  split (c :: sep) ((c :: sep) ++ rest) = [] :: split (c :: sep) rest.
Proof.
  unfold split. pose proof (startsWith_app (c :: sep) rest) as H.
  cbn [app] in *. cbn [split_from]. rewrite H.
  replace (length (c :: sep) - 1) with (length sep) by (cbn; lia).
  by rewrite split_from_skip.
Qed.

Lemma split_miss (sep : str) (c : N) (s : str) :
  startsWith sep (c :: s) = false ->
  split sep (c :: s) = prepend [c] (split sep s).
Proof. intros H. unfold split. cbn [split_from]. by rewrite H. Qed.

Lemma prepend_cons (c : N) (a : str) (pieces : list str) :
  prepend [c] (prepend a pieces) = prepend (c :: a) pieces.
Proof. by destruct pieces. Qed.

(** Code units other than the separator's first one belong to the piece. *)
Lemma split_run (b : N) (sep a s : str) :
  Forall (fun c => c <> b) a ->
  split (b :: sep) (a ++ s) = prepend a (split (b :: sep) s).
Proof.
  induction 1 as [|c a Hc _ IH].
  - cbn [app]. pose proof (split_from_nonempty (b :: sep) 0 s) as H.
    unfold split. by destruct (split_from (b :: sep) 0 s).
  - cbn [app]. rewrite split_miss, IH; [apply prepend_cons|].
    cbn [startsWith]. by apply N.eqb_neq in Hc as ->.
Qed.

Lemma prepend_app (a b : str) (pieces : list str) :
  prepend a (prepend b pieces) = prepend (a ++ b) pieces.
Proof. destruct pieces; cbn; by rewrite ?app_assoc. Qed.

End SplitFacts.

(** ** Phone numbers (bot.js 283-294) *)

Section PhoneFacts.
Import Js Contacts.

Lemma digits_Forall (v : str) : Forall (fun c => is_digit c = true) (digits v).
Proof.
  unfold digits. apply Forall_forall. intros c [Hc _]%list_elem_of_filter.
  by apply Is_true_eq_true.
Qed.

Lemma digits_id (v : str) :
  Forall (fun c => is_digit c = true) v -> digits v = v.
Proof.
  unfold digits. induction 1 as [|c v Hc _ IH]; [done|].
  rewrite filter_cons_True by (by rewrite Hc). by rewrite IH.
Qed.

Lemma digits_app (a b : str) : digits (a ++ b) = digits a ++ digits b.
Proof. apply filter_app. Qed.

Lemma digits_trim (v : str) : digits (trim v) = digits v.
Proof. apply filter_digit_trim. Qed.

Lemma digits_none (v : str) : has_digit v = false -> digits v = [].
Proof.
  unfold has_digit, digits. induction v as [|c v IH]; [done|]. cbn [existsb].
  intros [Hc Hv]%orb_false_iff.
  rewrite filter_cons_False by (rewrite Hc; intros []). auto.
Qed.

Lemma formatPhoneNumber_Some (v p : str) :
  formatPhoneNumber v = Some p <->
  10 <= length (digits v) <= 15 /\ p = lit "+" ++ digits v.
Proof.
  unfold formatPhoneNumber. destruct v as [|c v].
  - cbn. split; [done | lia].
  - destruct (Nat.ltb_spec (length (digits (c :: v))) 10);
      destruct (Nat.ltb_spec 15 (length (digits (c :: v))));
      cbn [orb]; split; try done; try lia.
    + by intros [= <-].
    + by intros [_ ->].
Qed.

Lemma formatPhoneNumber_digits (v : str) :
  Forall (fun c => is_digit c = true) v -> 10 <= length v <= 15 ->
  formatPhoneNumber v = Some (lit "+" ++ v).
Proof.
  intros Hd Hl. apply formatPhoneNumber_Some. by rewrite digits_id.
Qed.

Lemma formatPhoneNumber_trim (v : str) :
  formatPhoneNumber (trim v) = formatPhoneNumber v.
Proof.
  destruct (formatPhoneNumber v) as [p|] eqn:E.
  - apply formatPhoneNumber_Some in E. apply formatPhoneNumber_Some.
    by rewrite digits_trim.
  - destruct (formatPhoneNumber (trim v)) as [p|] eqn:E'; [|done].
    apply formatPhoneNumber_Some in E'. rewrite digits_trim in E'.
    apply formatPhoneNumber_Some in E'. congruence.
Qed.

Lemma formatPhoneNumber_formatted (v p : str) :
  formatPhoneNumber v = Some p -> formatted p.
Proof.
  intros [Hl ->]%formatPhoneNumber_Some. apply formatPhoneNumber_Some.
  rewrite digits_app. change (digits (lit "+")) with (@nil N). cbn [app].
  by rewrite (digits_id (digits v)) by apply digits_Forall.
Qed.

Lemma formatted_inv (p : str) :
  formatted p ->
  exists ds, p = lit "+" ++ ds /\ Forall (fun c => is_digit c = true) ds /\
             10 <= length ds <= 15.
Proof.
  intros [Hl Hp]%formatPhoneNumber_Some. exists (digits p).
  split; [done|]. split; [apply digits_Forall | done].
Qed.

Lemma fmap_digits_prepend (a : str) (pieces : list str) :
  pieces <> [] ->
  digits <$> prepend a pieces = prepend (digits a) (digits <$> pieces).
Proof.
  destruct pieces as [|p ps]; [done|]. intros _.
  cbn [prepend]. rewrite !fmap_cons. cbn [prepend]. by rewrite digits_app.
Qed.

Lemma digits_space (a : str) :
  Forall (fun c => is_space c = true) a -> digits a = [].
Proof.
  unfold digits. induction 1 as [|c a Hc _ IH]; [done|].
  rewrite filter_cons_False; [done|].
  rewrite (space_not_digit c Hc). intros [].
Qed.

(** The digits of the pieces do not depend on white space around the
    text, for a separator that is not white space. *)
Lemma split_digits_after_space (c : N) (a s : str) :
  is_space c = false -> Forall (fun x => is_space x = true) a ->
  digits <$> split [c] (a ++ s) = digits <$> split [c] s.
Proof.
  intros Hc Ha. rewrite split_run.
  - pose proof (split_from_nonempty [c] 0 s) as Hne. fold (split [c] s) in Hne.
    rewrite fmap_digits_prepend, digits_space by done.
    by destruct (split [c] s).
  - eapply Forall_impl; [exact Ha|]. intros x Hx ->. congruence.
Qed.

Lemma split_digits_before_space (c : N) (s b : str) :
  is_space c = false -> Forall (fun x => is_space x = true) b ->
  digits <$> split [c] (s ++ b) = digits <$> split [c] s.
Proof.
  intros Hc Hb. induction s as [|x s IH].
  - cbn [app]. rewrite split_char_absent.
    + cbn. by rewrite digits_space.
    + eapply Forall_impl; [exact Hb|]. intros y Hy ->. congruence.
  - cbn [app]. rewrite !split_char_cons.
    destruct (x =? c)%N; [by rewrite !fmap_cons, IH|].
    change (match split [c] (s ++ b) with
            | piece :: pieces => (x :: piece) :: pieces
            | [] => [[x]]
            end) with (prepend [x] (split [c] (s ++ b))).
    change (match split [c] s with
            | piece :: pieces => (x :: piece) :: pieces
            | [] => [[x]]
            end) with (prepend [x] (split [c] s)).
    rewrite !fmap_digits_prepend, IH; [done | |];
      apply (split_from_nonempty [c] 0).
Qed.

Lemma trimStart_spaces (s : str) :
  exists a, s = a ++ trimStart s /\ Forall (fun c => is_space c = true) a.
Proof.
  induction s as [|c s (a & E & Ha)]; [by exists []|]. cbn [trimStart].
  destruct (is_space c) eqn:Hc.
  - exists (c :: a). split; [by rewrite E at 1 | by constructor].
  - by exists [].
Qed.

Lemma trimEnd_spaces (s : str) :
  exists b, s = trimEnd s ++ b /\ Forall (fun c => is_space c = true) b.
Proof.
  destruct (trimStart_spaces (reverse s)) as (a & E & Ha).
  exists (reverse a). split; [|by apply Forall_reverse].
  unfold trimEnd. apply (f_equal reverse) in E.
  by rewrite reverse_involutive, reverse_app in E.
Qed.

Lemma split_digits_trim (c : N) (s : str) :
  is_space c = false ->
  digits <$> split [c] (trim s) = digits <$> split [c] s.
Proof.
  intros Hc. destruct (trimStart_spaces s) as (a & Ea & Ha).
  destruct (trimEnd_spaces (trimStart s)) as (b & Eb & Hb).
  fold (trim s) in Eb. rewrite Ea at 2. rewrite Eb.
  by rewrite split_digits_after_space, split_digits_before_space.
Qed.

End PhoneFacts.

(** ** The parsers (bot.js 173-281) *)

Section ParserFacts.
Import Js Contacts.

Lemma omap_format_digits (lines : list str) :
  omap formatPhoneNumber lines =
  (fun d => lit "+" ++ d)
    <$> filter (fun d => 10 <= length d /\ length d <= 15) (digits <$> lines).
Proof.
  induction lines as [|l ls IH]; [done|].
  rewrite fmap_cons. cbn [omap list_omap]. fold (omap formatPhoneNumber ls).
  destruct (formatPhoneNumber l) as [p|] eqn:E.
  - apply formatPhoneNumber_Some in E as [Hl ->].
    rewrite filter_cons_True by done. by rewrite fmap_cons, IH.
  - rewrite filter_cons_False; [done|]. intros Hl.
    assert (formatPhoneNumber l = Some (lit "+" ++ digits l)) as E'
      by (by apply formatPhoneNumber_Some).
    congruence.
Qed.

Lemma numbered_app (prefix : str) (a b : list str) :
  numbered prefix (a ++ b) =
  numbered prefix a ++
  imap (fun i p => {| name := prefix ++ lit " " ++ dec (length a + i + 1);
                      phone := p |}) b.
Proof. unfold numbered. by rewrite imap_app. Qed.

Lemma numbered_length (prefix : str) (phones : list str) :
  length (numbered prefix phones) = length phones.
Proof. apply length_imap. Qed.

Lemma numbered_phones (prefix : str) (phones : list str) :
  phone <$> numbered prefix phones = phones.
Proof.
  unfold numbered. rewrite fmap_imap.
  rewrite (imap_ext _ (fun _ p => p)) by done.
  induction phones as [|p ps IH]; [done|]. cbn. f_equal.
  by rewrite <- IH at 2.
Qed.

Lemma numbered_names (prefix : str) (phones : list str) :
  name <$> numbered prefix phones =
  (fun k => prefix ++ lit " " ++ dec k) <$> seq 1 (length phones).
Proof.
  unfold numbered. rewrite fmap_imap.
  rewrite <- (imap_seq phones (fun k => prefix ++ lit " " ++ dec k) 1).
  apply imap_ext. intros i p _. cbn. by rewrite Nat.add_1_r.
Qed.

(** The loop of the parsers: the counter is one more than the number of
    contacts pushed, whatever texts are skipped. *)
Lemma foldl_push_numbered (prefix : str) (texts : list str) (phs : list str) :
  foldl (push_numbered prefix) (numbered prefix phs, S (length phs)) texts =
  (numbered prefix (phs ++ omap formatPhoneNumber texts),
   S (length (phs ++ omap formatPhoneNumber texts))).
Proof.
  revert phs. induction texts as [|t texts IH]; intros phs.
  - cbn. by rewrite app_nil_r.
  - cbn [foldl omap list_omap]. unfold push_numbered at 2.
    destruct (formatPhoneNumber t) as [p|]; [|apply IH].
    cbn [fst snd].
    replace (numbered prefix phs ++
             [{| name := prefix ++ lit " " ++ dec (S (length phs)); phone := p |}])
      with (numbered prefix (phs ++ [p])).
    + replace (S (S (length phs))) with (S (length (phs ++ [p])))
        by (rewrite length_app; cbn; lia).
      rewrite IH. by rewrite <- app_assoc.
    + rewrite numbered_app. cbn. by rewrite Nat.add_0_r, Nat.add_1_r.
Qed.

(** Texts that yield no phone can be filtered out beforehand. *)
Lemma omap_format_filter (P : str -> Prop) `{!forall l, Decision (P l)}
    (texts : list str) :
  (forall t, ~ P t -> formatPhoneNumber t = None) ->
  omap formatPhoneNumber (filter P texts) = omap formatPhoneNumber texts.
Proof.
  intros Hnone. induction texts as [|t texts IH]; [done|].
  destruct (decide (P t)) as [Ht|Ht].
  - rewrite filter_cons_True by done. cbn. by rewrite IH.
  - rewrite filter_cons_False by done. cbn. by rewrite (Hnone t Ht).
Qed.

Lemma processTxtFile_numbered (content prefix : str) :
  processTxtFile content prefix =
  numbered prefix (omap formatPhoneNumber (trim <$> split nl content)).
Proof.
  unfold processTxtFile.
  rewrite (foldl_push_numbered prefix _ []). cbn [fst app].
  f_equal. apply omap_format_filter. intros t Ht.
  destruct t as [|c t]; [done|].
  destruct (has_digit (c :: t)) eqn:E.
  - exfalso. by apply Ht.
  - destruct (formatPhoneNumber (c :: t)) as [p|] eqn:E'; [|done].
    apply formatPhoneNumber_Some in E' as [Hl _].
    rewrite (digits_none _ E) in Hl. cbn in Hl. lia.
Qed.

(** The cells of a CSV text, in reading order. *)
Lemma foldl_push_cells (prefix : str) (lines : list str) (phs : list str) :
  foldl
    (fun st line =>
       foldl (push_numbered prefix) st (trim <$> split (lit ",") line))
    (numbered prefix phs, S (length phs)) lines =
  (numbered prefix
     (phs ++ omap formatPhoneNumber
               (lines ≫= fun line => trim <$> split (lit ",") line)),
   S (length
     (phs ++ omap formatPhoneNumber
               (lines ≫= fun line => trim <$> split (lit ",") line)))).
Proof.
  revert phs. induction lines as [|l lines IH]; intros phs.
  - cbn. by rewrite app_nil_r.
  - cbn [foldl]. rewrite foldl_push_numbered, IH.
    cbn [mbind list_bind]. by rewrite omap_app, <- app_assoc.
Qed.

Lemma processCsvContent_numbered (content prefix : str) :
  processCsvContent content prefix =
  numbered prefix
    (omap formatPhoneNumber
       (filter (fun line => line <> []) (trim <$> split nl content)
          ≫= fun line => trim <$> split (lit ",") line)).
Proof.
  unfold processCsvContent.
  by rewrite (foldl_push_cells prefix _ []).
Qed.

End ParserFacts.

Section PhoneTheorems.
Import Js Contacts.

(** X3.  [formatPhoneNumber] and [isValidPhoneNumber] draw the same line:
    a value is formatted, as ['+'] followed by its digits, exactly when it is
    valid, and is [null] otherwise. *)
Theorem formatPhoneNumber_agrees_with_isValidPhoneNumber (value : str) :
  formatPhoneNumber value =
  if isValidPhoneNumber value then Some (lit "+" ++ digits value) else None.
Proof.
  unfold formatPhoneNumber, isValidPhoneNumber. destruct value as [|c v]; [done|].
  destruct (Nat.ltb_spec (length (digits (c :: v))) 10);
    destruct (Nat.ltb_spec 15 (length (digits (c :: v))));
    destruct (Nat.leb_spec 10 (length (digits (c :: v))));
    destruct (Nat.leb_spec (length (digits (c :: v))) 15);
    cbn [orb andb]; try done; lia.
Qed.

(** X4.  A formatted number is a fixed point: formatting it again returns
    it unchanged, and it is valid. *)
Theorem formatted_number_is_a_fixed_point (value p : str) :
  formatPhoneNumber value = Some p ->
  formatPhoneNumber p = Some p /\ isValidPhoneNumber p = true.
Proof.
  intros H%formatPhoneNumber_formatted. split; [done|].
  apply formatPhoneNumber_Some in H as [[H1 H2] H].
  unfold isValidPhoneNumber. destruct p as [|c p]; [done|].
  apply andb_true_iff. split; by apply Nat.leb_le.
Qed.

End PhoneTheorems.

Section ParserTheorems.
Import Js Contacts Commands.

(** X5.  The counter of [processTxtFile] and [processCsvContent] moves
    only when a contact is pushed: the names are [prefix 1], [prefix 2], ...
    without a gap, whatever lines or cells are skipped. *)
Theorem parsed_contacts_are_numbered_without_gaps (content prefix : str) :
  name <$> processTxtFile content prefix =
    (fun k => prefix ++ lit " " ++ dec k)
      <$> seq 1 (length (processTxtFile content prefix)) /\
  name <$> processCsvContent content prefix =
    (fun k => prefix ++ lit " " ++ dec k)
      <$> seq 1 (length (processCsvContent content prefix)).
Proof.
  rewrite processTxtFile_numbered, processCsvContent_numbered.
  by rewrite !numbered_length, !numbered_names.
Qed.

(** X6.  The text and CSV parsers keep exactly the fields that
    [formatPhoneNumber] accepts, in reading order: the phones of
    [processTxtFile] are the formatted lines of the content, those of
    [processCsvContent] the formatted cells of its lines; the trims and the
    filters of the parsers never change them. *)
Theorem parsers_keep_the_formattable_fields (content prefix : str) :
  phone <$> processTxtFile content prefix =
    omap formatPhoneNumber (split nl content) /\
  phone <$> processCsvContent content prefix =
    omap formatPhoneNumber
      (split nl content ≫= fun line => split (lit ",") line).
Proof.
  rewrite processTxtFile_numbered, processCsvContent_numbered.
  rewrite !numbered_phones. split.
  - induction (split nl content) as [|l ls IH]; [done|].
    cbn. by rewrite formatPhoneNumber_trim, IH.
  - induction (split nl content) as [|l ls IH]; [done|].
    rewrite fmap_cons. cbn [mbind list_bind]. rewrite omap_app, <- IH.
    assert (omap formatPhoneNumber (trim <$> split (lit ",") (trim l))
            = omap formatPhoneNumber (split (lit ",") l)) as E.
    { rewrite !omap_format_digits, <- list_fmap_compose.
      rewrite (list_fmap_ext (digits ∘ trim) digits)
        by (intros; apply digits_trim).
      change (lit ",") with [44%N]. by rewrite split_digits_trim. }
    destruct (decide (trim l = [])) as [Hl|Hl].
    + rewrite filter_cons_False by (by intros ?).
      rewrite <- E, Hl. done.
    + rewrite filter_cons_True by done. cbn [mbind list_bind].
      by rewrite omap_app, E.
Qed.

Lemma add_vcard_formatted (contacts : list Contact) (vcard : str) :
  Forall (fun c => formatted (phone c)) contacts ->
  Forall (fun c => formatted (phone c)) (add_vcard contacts vcard).
Proof.
  intros H. unfold add_vcard.
  destruct (trim vcard); [done|].
  destruct (match_TEL vcard) as [phoneMatch|]; [|done].
  destruct (formatPhoneNumber phoneMatch) as [p|] eqn:E; [|done].
  apply Forall_app. split; [done|]. constructor; [|done].
  by eapply formatPhoneNumber_formatted.
Qed.

Lemma numbered_formatted (prefix : str) (texts : list str) :
  Forall (fun c => formatted (phone c))
    (numbered prefix (omap formatPhoneNumber texts)).
Proof.
  apply (Forall_fmap phone formatted). rewrite numbered_phones.
  apply Forall_forall. intros p [t [_ Ht]]%list_elem_of_omap.
  by eapply formatPhoneNumber_formatted.
Qed.

(** X7.  Whatever the content, every contact the three parsers return
    carries a phone in the form [formatPhoneNumber] returns: a ['+'] and 10
    to 15 digits, which formats to itself. *)
Theorem parsers_return_formatted_phones (content prefix : str) :
  Forall (fun c => formatted (phone c)) (processTxtFile content prefix) /\
  Forall (fun c => formatted (phone c)) (processCsvContent content prefix) /\
  Forall (fun c => formatted (phone c)) (processVcfFile content).
Proof.
  split; [|split].
  - rewrite processTxtFile_numbered. apply numbered_formatted.
  - rewrite processCsvContent_numbered. apply numbered_formatted.
  - unfold processVcfFile.
    generalize (split (lit "BEGIN:VCARD") content). intros vcards.
    assert (Forall (fun c => formatted (phone c)) (@nil Contact)) as H by done.
    revert H. generalize (@nil Contact).
    induction vcards as [|v vs IH]; intros cs H; [done|].
    cbn. by apply IH, add_vcard_formatted.
Qed.

(** X8.  On a content without a comma the CSV parser and the text parser
    return the same contacts. *)
Theorem csv_without_commas_reads_as_text (content prefix : str) :
  Forall (fun c => c <> 44%N) content ->
  processCsvContent content prefix = processTxtFile content prefix.
Proof.
  intros H.
  rewrite processTxtFile_numbered, processCsvContent_numbered. f_equal.
  pose proof (split_char_Forall _ 10%N content H) as Hl.
  change (split [10%N] content) with (split nl content) in Hl.
  induction Hl as [|l ls Hc _ IH]; [done|].
  cbn [fmap list_fmap].
  destruct (decide (trim l = [])) as [E|E].
  - rewrite filter_cons_False by (by intros ?). rewrite IH.
    cbn. rewrite E. done.
  - rewrite filter_cons_True by done. cbn [mbind list_bind].
    rewrite omap_app, IH.
    change (lit ",") with [44%N].
    rewrite split_char_absent by (by apply trim_Forall).
    change (trim <$> [trim l]) with [trim (trim l)]. rewrite trim_idem.
    cbn. by destruct (formatPhoneNumber (trim l)).
Qed.

Lemma renumber_numbered (prefix : str) (group : list Contact) :
  renumber prefix group = numbered prefix (phone <$> group).
Proof. unfold renumber, numbered. by rewrite imap_fmap. Qed.

(** X9.  Reading back the text that [/gt] and its sibling commands write:
    for contacts with formatted phones, [processTxtFile] returns the same
    phones in the same order, named [prefix 1], [prefix 2], ... *)
Theorem txt_export_reads_back (contacts : list Contact) (prefix : str) :
  Forall (fun c => formatted (phone c)) contacts ->
  processTxtFile (txt_content contacts) prefix = renumber prefix contacts.
Proof.
  intros H. rewrite processTxtFile_numbered, renumber_numbered.
  unfold txt_content. f_equal.
  destruct contacts as [|c cs]; [done|].
  change nl with [10%N]. rewrite split_join.
  - induction H as [|x xs Hx _ IH]; [done|].
    cbn [fmap list_fmap omap list_omap]. rewrite IH.
    destruct (formatted_inv _ Hx) as (ds & Hp & Hd & Hl).
    rewrite Hp. change (substring1 (lit "+" ++ ds)) with ds.
    rewrite formatPhoneNumber_trim, formatPhoneNumber_digits by done.
    done.
  - done.
  - apply Forall_fmap. eapply Forall_impl; [exact H|].
    intros x Hx. cbn.
    destruct (formatted_inv _ Hx) as (ds & Hp & Hd & Hl).
    rewrite Hp. change (substring1 (lit "+" ++ ds)) with ds.
    eapply Forall_impl; [exact Hd|]. intros d Hdig ->. done.
Qed.

End ParserTheorems.

Lemma formatted_number_is_a_fixed_point_witness :
  Contacts.formatPhoneNumber (Js.lit "+081234567890")
    = Some (Js.lit "+081234567890") /\
  Contacts.isValidPhoneNumber (Js.lit "+081234567890") = true.
Proof.
  apply (formatted_number_is_a_fixed_point Samples.written_number).
  reflexivity.
Defined.

Lemma csv_without_commas_reads_as_text_witness :
  Contacts.processCsvContent Samples.numbers_txt Contacts.default_prefix =
  Contacts.processTxtFile Samples.numbers_txt Contacts.default_prefix.
Proof.
  apply csv_without_commas_reads_as_text.
  unfold Samples.numbers_txt. repeat constructor; discriminate.
Defined.

Lemma txt_export_reads_back_witness :
  Contacts.processTxtFile (Commands.txt_content Samples.two_contacts)
    (Js.lit "Member")
  = Commands.renumber (Js.lit "Member") Samples.two_contacts.
Proof.
  apply txt_export_reads_back. repeat constructor.
Defined.

(** ** The split of [/cv], [/pt] and [/pv] *)

Section SplitTheorems.
Import Js Contacts Commands.
Context {A : Type}.

(** The loop after [m] turns, for any sizes [q] and [r] that add up to the
    number of contacts over [k] turns. *)
Lemma split_loop_invariant (contacts : list A) (q r k m : nat) :
  k * q + r = length contacts -> r < k -> m <= k ->
  let st := foldl (split_step contacts q r) ([], 0) (seq 0 m) in
  st.2 = m * q + m `min` r /\
  concat st.1 = take st.2 contacts /\
  length <$> st.1 =
    (fun i => q + (if i <? r then 1 else 0))
      <$> seq 0 (if q =? 0 then m `min` r else m).
Proof.
  intros Hn Hr. induction m as [|m IH]; intros Hm; [by destruct (q =? 0)|].
  destruct IH as (Hi & Hc & Hl); [lia|].
  rewrite seq_S, foldl_app. change (0 + m) with m. cbn [foldl].
  set (st := foldl (split_step contacts q r) ([], 0) (seq 0 m)) in *.
  unfold split_step.
  set (g := q + (if m <? r then 1 else 0)).
  assert (g = q + 1 /\ m < r \/ g = q /\ r <= m) as Hg.
  { unfold g. destruct (Nat.ltb_spec m r); lia. }
  assert (g = q + (if m <? r then 1 else 0)) as Eg by done.
  clearbody g.
  destruct (Nat.ltb_spec 0 g) as [Hs|Hs]; cbn [fst snd].
  - split; [|split].
    + rewrite Hi. lia.
    + rewrite concat_app, Hc. cbn [concat]. rewrite app_nil_r.
      unfold Delivery.slice.
      replace (st.2 + g - st.2) with g by lia.
      apply take_take_drop.
    + rewrite fmap_app, Hl. cbn [fmap list_fmap].
      unfold Delivery.slice. rewrite length_take, length_drop.
      replace (st.2 + g - st.2) with g by lia.
      assert (st.2 + g <= length contacts) by (rewrite Hi, <- Hn; nia).
      rewrite (Nat.min_l g) by lia.
      assert ((if q =? 0 then S m `min` r else S m)
              = S (if q =? 0 then m `min` r else m)
              /\ (if q =? 0 then m `min` r else m) = m) as [-> E].
      { destruct (Nat.eqb_spec q 0); lia. }
      rewrite seq_S, fmap_app, E. cbn. by rewrite Eg.
  - assert (q = 0 /\ r <= m) as [-> Hrm] by lia.
    split; [|split]; [lia | done |].
    rewrite Hl. cbn [Nat.eqb]. by rewrite !Nat.min_r by lia.
Qed.

Lemma split_loop_concat (contacts : list A) (turns : nat) :
  1 <= turns ->
  concat (split_loop contacts turns) = contacts.
Proof.
  intros Hk. unfold split_loop.
  destruct (split_loop_invariant contacts
              (length contacts / turns) (length contacts mod turns)
              turns turns) as (Hi & Hc & _).
  - pose proof (Nat.div_mod_eq (length contacts) turns). lia.
  - apply Nat.mod_upper_bound. lia.
  - done.
  - rewrite Hc, Hi. apply take_ge.
    pose proof (Nat.div_mod_eq (length contacts) turns).
    pose proof (Nat.mod_upper_bound (length contacts) turns). nia.
Qed.

(** For a count that the loop counter reaches, the loop ends. *)
Lemma contactGroups_ends (contacts : list A) (splitCount : N) :
  (splitCount <= max_counter)%N ->
  contactGroups contacts splitCount =
    Some (split_loop contacts (N.to_nat splitCount)).
Proof.
  intros Hk. unfold contactGroups.
  destruct (N.ltb_spec max_counter splitCount); [lia | done].
Qed.

(** X10.  The split loses nothing and invents nothing: for a split count
    from 1 to 2^53 the loop ends, and the groups laid end to end are the
    contacts, in order.  For a split count above 2^53 the loop never
    ends. *)
Theorem split_groups_partition_the_contacts
    (contacts : list A) (splitCount : N) :
  ((1 <= splitCount <= max_counter)%N ->
   exists groups,
     contactGroups contacts splitCount = Some groups /\
     concat groups = contacts) /\
  ((max_counter < splitCount)%N ->
   contactGroups contacts splitCount = None).
Proof.
  split.
  - intros [H1 Hk]. eexists. split; [by apply contactGroups_ends|].
    apply split_loop_concat. lia.
  - intros Hk. unfold contactGroups.
    destruct (N.ltb_spec max_counter splitCount); [done | lia].
Qed.

(** Every group is a slice of the contacts. *)
Lemma split_loop_Forall (P : A -> Prop) (contacts : list A) (turns : nat) :
  Forall P contacts -> Forall (Forall P) (split_loop contacts turns).
Proof.
  intros H. unfold split_loop.
  generalize (length contacts / turns) (length contacts mod turns).
  intros q r.
  assert (Forall (Forall P) (@nil (list A), 0).1) as Hinit by constructor.
  revert Hinit. generalize (@nil (list A), 0). generalize (seq 0 turns).
  intros l. induction l as [|i l IH]; intros st Hst; [done|].
  cbn [foldl]. apply IH. unfold split_step.
  destruct (0 <? q + (if i <? r then 1 else 0)); [|done]. cbn [fst].
  apply Forall_app. split; [done|]. constructor; [|done].
  unfold Delivery.slice. by apply Forall_take, Forall_drop.
Qed.

Lemma split_loop_balanced (contacts : list A) (turns : nat) :
  1 <= turns ->
  length <$> split_loop contacts turns =
    (fun i => length contacts / turns +
              (if i <? length contacts mod turns then 1 else 0))
      <$> seq 0 (turns `min` length contacts) /\
  Forall (fun group => group <> []) (split_loop contacts turns).
Proof.
  intros Hk.
  pose proof (Nat.div_mod_eq (length contacts) turns) as Hdm.
  pose proof (Nat.mod_upper_bound (length contacts) turns) as Hr.
  destruct (split_loop_invariant contacts
              (length contacts / turns) (length contacts mod turns)
              turns turns) as (_ & _ & Hl); [lia | lia | done |].
  assert ((if length contacts / turns =? 0
           then turns `min` (length contacts mod turns)
           else turns) = turns `min` length contacts) as E.
  { destruct (Nat.eqb_spec (length contacts / turns) 0) as [Hq|Hq].
    - rewrite Hq in Hdm. lia.
    - assert (turns <= length contacts); [|lia].
      destruct (Nat.le_gt_cases turns (length contacts)); [done|].
      by rewrite Nat.div_small in Hq. }
  rewrite E in Hl. split; [exact Hl|].
  apply Forall_forall. intros g Hg Hnil.
  apply (list_elem_of_fmap_2 length) in Hg. rewrite Hnil in Hg.
  fold (split_loop contacts turns) in Hl. rewrite Hl in Hg.
  apply list_elem_of_fmap in Hg as (i & Hi & Hin).
  apply elem_of_seq in Hin. cbn [length] in Hi. revert Hi.
  destruct (Nat.ltb_spec i (length contacts mod turns)); intros Hi;
    [lia|].
  assert (length contacts / turns = 0) as Hq by lia.
  rewrite Hq in Hdm. lia.
Qed.

(** X11.  The split is balanced: for a split count [k] from 1 to 2^53 and
    [n] contacts it makes [min(k, n)] groups, none of them empty; the first
    [n mod k] groups hold one contact more than the others, which hold
    [n / k]. *)
Theorem split_groups_are_balanced (contacts : list A) (splitCount : N) :
  (1 <= splitCount <= max_counter)%N ->
  let k := N.to_nat splitCount in
  exists groups,
    contactGroups contacts splitCount = Some groups /\
    length <$> groups =
      (fun i => length contacts / k +
                (if i <? length contacts mod k then 1 else 0))
        <$> seq 0 (k `min` length contacts) /\
    Forall (fun group => group <> []) groups.
Proof.
  intros [H1 Hk] k. eexists. split; [by apply contactGroups_ends|].
  apply split_loop_balanced. lia.
Qed.

End SplitTheorems.

Lemma split_groups_partition_the_contacts_witness :
  (exists groups,
     Commands.contactGroups Samples.two_contacts 3 = Some groups /\
     concat groups = Samples.two_contacts) /\
  Commands.contactGroups Samples.two_contacts (2 ^ 53 + 2) = None.
Proof.
  split.
  - apply (proj1 (split_groups_partition_the_contacts Samples.two_contacts 3)).
    unfold Commands.max_counter. lia.
  - apply (proj2 (split_groups_partition_the_contacts Samples.two_contacts
                    (2 ^ 53 + 2))).
    unfold Commands.max_counter. lia.
Defined.

Lemma split_groups_are_balanced_witness :
  (exists groups,
     Commands.contactGroups (seq 0 7) 3 = Some groups /\
     length <$> groups =
       (fun i => length (seq 0 7) / 3 +
                 (if i <? length (seq 0 7) mod 3 then 1 else 0))
         <$> seq 0 (3 `min` length (seq 0 7)) /\
     Forall (fun group => group <> []) groups) /\
  (fun groups : list (list nat) => length <$> groups) <$> Commands.contactGroups (seq 0 7) 3 =
    Some [3; 2; 2] /\
  Commands.contactGroups (seq 0 7) (2 ^ 53 + 2) = None.
Proof.
  split; [|split; vm_compute; reflexivity].
  apply (split_groups_are_balanced (seq 0 7) 3).
  unfold Commands.max_counter. lia.
Defined.

(** ** File names (bot.js 317-322) *)

Section FileNameTheorems.
Import Js Contacts Commands.

Lemma filter_kept_id (P : N -> bool) (s : str) :
  Forall (fun c => P c = true) s -> filter (fun c => P c) s = s.
Proof.
  induction 1 as [|c s Hc _ IH]; [done|].
  rewrite filter_cons_True by (by rewrite Hc). by rewrite IH.
Qed.

Lemma filter_kept_Forall (P : N -> bool) (s : str) :
  Forall (fun c => P c = true) (filter (fun c => P c) s).
Proof.
  apply Forall_forall. intros c [Hc _]%list_elem_of_filter.
  by apply Is_true_eq_true.
Qed.

(** X12.  A sanitized file name holds no reserved character and no
    control character, and neither starts nor ends with white space; so
    sanitizing it again changes nothing. *)
Theorem sanitizeFileName_is_clean_and_idempotent (fileName : str) :
  Forall (fun c => is_reserved c = false) (sanitizeFileName fileName) /\
  trim (sanitizeFileName fileName) = sanitizeFileName fileName /\
  sanitizeFileName (sanitizeFileName fileName) = sanitizeFileName fileName.
Proof.
  assert (Forall (fun c => negb (is_reserved c) = true)
            (sanitizeFileName fileName)) as H.
  { apply trim_Forall, (filter_kept_Forall (fun c => negb (is_reserved c))). }
  split; [|split].
  - eapply Forall_impl; [exact H|]. intros c Hc. by apply negb_true_iff.
  - apply trim_idem.
  - unfold sanitizeFileName at 1.
    rewrite (filter_kept_id (fun c => negb (is_reserved c))) by done.
    apply trim_idem.
Qed.

Lemma digit_not_reserved (c : N) : is_digit c = true -> is_reserved c = false.
Proof.
  unfold is_digit, is_reserved.
  rewrite andb_true_iff, !orb_false_iff, !N.eqb_neq, !N.leb_le, N.leb_gt.
  lia.
Qed.

Lemma digit_not_space (c : N) : is_digit c = true -> is_space c = false.
Proof.
  intros H. destruct (is_space c) eqn:E; [|done].
  by rewrite (space_not_digit c E) in H.
Qed.

Lemma trimStart_before_word (a w : str) :
  match w with c :: _ => is_space c = false | [] => False end ->
  trimStart (a ++ w) = trimStart a ++ w.
Proof.
  intros Hw. induction a as [|c a IH]; cbn [app trimStart].
  - destruct w as [|d w]; [done|]. by apply trimStart_keep.
  - destruct (is_space c); [exact IH | done].
Qed.

Lemma trimEnd_after_word (a w : str) :
  match last w with Some c => is_space c = false | None => False end ->
  trimEnd (a ++ w) = a ++ w.
Proof.
  destruct w as [|c w _] using rev_ind; [done|].
  rewrite last_snoc. intros Hc. rewrite app_assoc. by apply trimEnd_keep.
Qed.

(** The sanitized name of a numbered file ends with the number. *)
Lemma sanitize_numbered (fileName : str) (n : nat) :
  sanitizeFileName (fileName ++ lit " " ++ dec n) =
  trimStart (filter (fun c => negb (is_reserved c)) fileName ++ lit " ") ++ dec n.
Proof.
  unfold sanitizeFileName. rewrite !filter_app.
  rewrite (filter_kept_id (fun c => negb (is_reserved c)) (dec n)).
  2:{ eapply Forall_impl; [apply dec_digits|].
      intros c Hc. by rewrite (digit_not_reserved c Hc). }
  change (filter _ (lit " ")) with (lit " ").
  pose proof (dec_digits n) as Hd. pose proof (dec_nonempty n) as Hne.
  unfold trim. rewrite app_assoc, trimStart_before_word.
  - apply trimEnd_after_word.
    destruct (dec n) as [|c w _] using rev_ind; [done|].
    rewrite last_snoc. apply Forall_app in Hd as [_ Hd].
    inversion_clear Hd. by apply digit_not_space.
  - destruct (dec n) as [|c w]; [done|].
    inversion_clear Hd. by apply digit_not_space.
Qed.

Lemma dec_N_nat (n : N) : dec_N n = dec (N.to_nat n).
Proof.
  unfold dec_N, dec. unfold pretty at 2, pretty_nat. by rewrite N2Nat.id.
Qed.

Lemma numbered_paths_NoDup {G : Type} (a b ext : str) (start : nat)
    (groups : list G) :
  NoDup ((fun i => a ++ (b ++ dec (start + i)) ++ ext)
           <$> seq 0 (length groups)).
Proof.
  apply NoDup_fmap_2; [|apply NoDup_seq].
  intros i j H. apply app_inv_head, app_inv_tail, app_inv_head in H.
  apply dec_inj in H. lia.
Qed.

(** X13.  The files one command writes never overwrite each other:
    whatever the file name and the groups, the output paths of [/pt] and of
    [/pv] are pairwise different, and so are those of [/cv] when its file
    numbers stay within 2^53. *)
Theorem output_paths_are_pairwise_different
    (contactPrefix fileName : str) (startNumber : N)
    (groups : list (list Contact)) :
  ((forall i, i < length groups ->
      (startNumber + N.of_nat i <= max_counter)%N) ->
   exists files,
     cv_files contactPrefix fileName startNumber groups = Some files /\
     length files = length groups /\
     NoDup (path <$> files)) /\
  NoDup (path <$> pt_files fileName groups) /\
  NoDup (path <$> pv_files fileName groups).
Proof.
  unfold cv_files, pt_files, pv_files.
  split; [|rewrite !fmap_imap; split].
  - intros Hsafe.
    assert (forallb (fun i => (startNumber + N.of_nat i <=? max_counter)%N)
              (seq 0 (length groups)) = true) as ->.
    { apply forallb_forall. intros i Hi. apply in_seq in Hi.
      apply N.leb_le, Hsafe. lia. }
    eexists. split; [reflexivity|]. split; [apply length_imap|].
    rewrite fmap_imap.
    rewrite (imap_ext _ (fun i _ =>
      lit "./" ++ (trimStart (filter (fun c => negb (is_reserved c)) fileName
                              ++ lit " ") ++ dec (N.to_nat startNumber + i))
      ++ lit ".vcf")).
    + rewrite imap_seq_0. apply numbered_paths_NoDup.
    + intros i g _. unfold compose. cbn [path].
      rewrite dec_N_nat, sanitize_numbered. do 4 f_equal. lia.
  - rewrite (imap_ext _ (fun i _ =>
      lit "./" ++ (trimStart (filter (fun c => negb (is_reserved c)) fileName
                              ++ lit " ") ++ dec (1 + i))
      ++ lit ".txt")).
    + rewrite imap_seq_0. apply numbered_paths_NoDup.
    + intros i g _. unfold compose. cbn [path]. by rewrite sanitize_numbered, Nat.add_1_r.
  - rewrite (imap_ext _ (fun i _ =>
      lit "./" ++ (trimStart (filter (fun c => negb (is_reserved c)) fileName
                              ++ lit " ") ++ dec (1 + i))
      ++ lit ".vcf")).
    + rewrite imap_seq_0. apply numbered_paths_NoDup.
    + intros i g _. unfold compose. cbn [path]. by rewrite sanitize_numbered, Nat.add_1_r.
Qed.

End FileNameTheorems.

(** X13 on two groups: numbered from 1, and numbered from 2^53 - 1, which
    takes the second file number to 2^53, where the numbers still
    differ. *)
Lemma output_paths_are_pairwise_different_witness :
  (exists files,
     Commands.cv_files (Js.lit "Member") (Js.lit "Group") (2 ^ 53 - 1)
       [Samples.two_contacts; Samples.family] = Some files /\
     length files = length [Samples.two_contacts; Samples.family] /\
     NoDup (Commands.path <$> files)) /\
  (fun files : list Commands.OutputFile => Commands.path <$> files) <$>
    Commands.cv_files (Js.lit "Member") (Js.lit "Group") 1
      [Samples.two_contacts; Samples.family] =
    Some [Js.lit "./Group 1.vcf"; Js.lit "./Group 2.vcf"] /\
  (fun files : list Commands.OutputFile => Commands.path <$> files) <$>
    Commands.cv_files (Js.lit "Member") (Js.lit "Group") (2 ^ 53 - 1)
      [Samples.two_contacts; Samples.family] =
    Some [Js.lit "./Group 9007199254740991.vcf";
          Js.lit "./Group 9007199254740992.vcf"].
Proof.
  split; [|split; vm_compute; reflexivity].
  apply (proj1 (output_paths_are_pairwise_different (Js.lit "Member")
                  (Js.lit "Group") (2 ^ 53 - 1)
                  [Samples.two_contacts; Samples.family])).
  intros i Hi. unfold Commands.max_counter. cbn [length] in Hi. lia.
Defined.

(** ** vCard files (bot.js 254-281, 296-314) *)

Section VcfTheorems.
Import Js Contacts Commands.

Lemma append_card_vcard (vcfContent : str) (contact : Contact) :
  append_card vcfContent contact = vcfContent ++ vcard contact.
Proof. unfold append_card, vcard. cbv zeta. by rewrite <- !app_assoc. Qed.

Lemma generateVcf_cards (contacts : list Contact) :
  generateVcf contacts = concat (vcard <$> contacts).
Proof.
  unfold generateVcf. rewrite <- (app_nil_l (concat _)).
  generalize (@nil N) at 1 2. intros acc. revert acc.
  induction contacts as [|c cs IH]; intros acc; cbn [foldl].
  - by rewrite app_nil_r.
  - rewrite IH, append_card_vcard. cbn [fmap list_fmap concat].
    by rewrite <- app_assoc.
Qed.

Lemma escape_name_one_line (n : str) :
  Forall (fun c => c <> 10%N) (escape_name n).
Proof.
  unfold escape_name. apply Forall_forall.
  intros c [Hc _]%list_elem_of_filter Heq. subst c. by cbn in Hc.
Qed.

Lemma split_line (l rest : str) :
  Forall (fun c => c <> 10%N) l ->
  split nl (l ++ nl ++ rest) = l :: split nl rest.
Proof. intros H. by apply split_char_app. Qed.

(** X14.  No name can add a line to the file: for phones without a
    newline, as the parsers store them, the text of [generateVcf] is made
    of exactly five lines per contact, each ended by a newline. *)
Theorem generateVcf_writes_five_lines_per_contact (contacts : list Contact) :
  Forall (fun c => Forall (fun u => u <> 10%N) (phone c)) contacts ->
  split nl (generateVcf contacts) = (contacts ≫= vcard_lines) ++ [[]].
Proof.
  intros H. rewrite generateVcf_cards.
  induction H as [|c cs Hc _ IH]; [done|].
  cbn [fmap list_fmap concat mbind list_bind]. unfold vcard at 1.
  rewrite <- !app_assoc.
  rewrite split_line by (by repeat constructor).
  rewrite split_line by (by repeat constructor).
  rewrite (app_assoc (lit "FN:")).
  rewrite split_line
    by (apply Forall_app; split;
        [by repeat constructor | apply escape_name_one_line]).
  rewrite (app_assoc (lit "TEL;TYPE=CELL:")).
  rewrite split_line
    by (apply Forall_app; split; [by repeat constructor | done]).
  rewrite split_line by (by repeat constructor).
  by rewrite IH.
Qed.

End VcfTheorems.

Lemma generateVcf_writes_five_lines_per_contact_witness :
  Js.split Js.nl (Contacts.generateVcf Samples.two_contacts) =
  (Samples.two_contacts ≫= vcard_lines) ++ [[]].
Proof.
  apply generateVcf_writes_five_lines_per_contact.
  repeat constructor; discriminate.
Defined.

Section VcfRoundTrip.
Import Js Contacts Commands.

Lemma readable_inv (c : N) :
  readable c = true ->
  is_control c = false /\ is_line_terminator c = false /\
  c <> 58%N /\ c <> 10%N.
Proof.
  unfold readable. intros H.
  apply andb_true_iff in H as [H H1]. apply andb_true_iff in H as [Hc Hl].
  apply negb_true_iff in Hc, Hl, H1. apply N.eqb_neq in H1.
  repeat split; try done. intros ->. done.
Qed.

Lemma plain_inv (c : N) :
  plain c = true ->
  readable c = true /\ c <> 92%N /\ c <> 44%N /\ c <> 59%N.
Proof.
  unfold plain. intros [Hr Hs]%andb_true_iff. apply negb_true_iff in Hs.
  apply orb_false_iff in Hs as [Hs H3]. apply orb_false_iff in Hs as [H1 H2].
  apply N.eqb_neq in H1, H2, H3. done.
Qed.

Lemma plain_readable_name (n : str) : plain_name n -> readable_name n.
Proof.
  intros (Hne & Htrim & H). split; [done|]. split; [done|].
  eapply Forall_impl; [exact H|]. by intros c [? _]%plain_inv.
Qed.

(** On a readable name the last two [replace] calls change nothing. *)
Lemma escape_name_readable (n : str) :
  Forall (fun c => readable c = true) n ->
  escape_name n =
  n ≫= (fun c => if (c =? 92)%N || (c =? 44)%N || (c =? 59)%N
                  then [92%N; c] else [c]).
Proof.
  unfold escape_name. induction 1 as [|c n Hc _ IH]; [done|].
  apply readable_inv in Hc as (Hctl & _ & _ & H10).
  cbn [mbind list_bind]. rewrite fmap_app, filter_app, IH. f_equal.
  apply N.eqb_neq in H10.
  destruct ((c =? 92)%N || (c =? 44)%N || (c =? 59)%N);
    cbn [fmap list_fmap]; rewrite H10.
  - change (92 =? 10)%N with false. cbv iota.
    rewrite filter_cons_True by done.
    by rewrite filter_cons_True by (by rewrite Hctl).
  - by rewrite filter_cons_True by (by rewrite Hctl).
Qed.

Lemma escape_name_plain (n : str) :
  Forall (fun c => plain c = true) n -> escape_name n = n.
Proof.
  intros H. rewrite escape_name_readable.
  - induction H as [|c n Hc _ IH]; [done|].
    apply plain_inv in Hc as (_ & H1 & H2 & H3).
    cbn [mbind list_bind]. apply N.eqb_neq in H1, H2, H3.
    rewrite H1, H2, H3. cbn [orb app]. by rewrite IH.
  - eapply Forall_impl; [exact H|]. by intros c [? _]%plain_inv.
Qed.

Lemma trim_fixed_ends (n : str) :
  trim n = n ->
  match n with c :: _ => is_space c = false | [] => True end /\
  match last n with Some c => is_space c = false | None => True end.
Proof.
  intros H. split.
  - pose proof (trimStart_trimEnd n) as E. fold (trim n) in E.
    rewrite H in E. pose proof (trimStart_head n) as Hh.
    by rewrite E in Hh.
  - pose proof (trimEnd_last (trimStart n)) as Hl. fold (trim n) in Hl.
    by rewrite H in Hl.
Qed.

(** The escaped form of a readable name is a readable name. *)
Lemma escape_name_readable_name (n : str) :
  readable_name n -> readable_name (escape_name n).
Proof.
  intros (Hne & Htrim & H). rewrite escape_name_readable by done.
  destruct (trim_fixed_ends n Htrim) as [Hhead Hlast].
  split; [|split].
  - destruct n as [|c n]; [done|]. cbn [mbind list_bind].
    by destruct ((c =? 92)%N || (c =? 44)%N || (c =? 59)%N).
  - apply trim_keep.
    + destruct n as [|c n]; [done|]. cbn [mbind list_bind].
      by destruct ((c =? 92)%N || (c =? 44)%N || (c =? 59)%N).
    + destruct n as [|c n _] using rev_ind; [done|].
      rewrite last_snoc in Hlast. rewrite bind_app. cbn [mbind list_bind].
      rewrite app_nil_r.
      destruct ((c =? 92)%N || (c =? 44)%N || (c =? 59)%N).
      * change [92%N; c] with ([92%N] ++ [c]).
        by rewrite app_assoc, last_snoc.
      * by rewrite last_snoc.
  - clear Hne Htrim Hhead Hlast.
    induction H as [|c n Hc _ IH]; [done|]. cbn [mbind list_bind].
    apply Forall_app. split; [|done].
    destruct ((c =? 92)%N || (c =? 44)%N || (c =? 59)%N);
      by repeat constructor.
Qed.

Lemma rest_of_line_app (a z : str) :
  Forall (fun c => is_line_terminator c = false) a ->
  rest_of_line (a ++ 10%N :: z) = a.
Proof.
  induction 1 as [|c a Hc _ IH]; [done|].
  cbn [app rest_of_line]. by rewrite Hc, IH.
Qed.

Lemma after_colon_skip (a z : str) :
  Forall (fun c => c <> 58%N) a -> after_colon (a ++ z) = after_colon z.
Proof.
  induction 1 as [|c a Hc _ IH]; [done|].
  cbn [app after_colon]. by apply N.eqb_neq in Hc as ->.
Qed.

(** The literals of the source, as code units. *)
Ltac eval_lits :=
  repeat match goal with
  | |- context [lit ?s] =>
      let v := eval vm_compute in (lit s) in change (lit s) with v
  end.

Lemma match_FN_skip (c : N) (s : str) :
  (canon c =? 70)%N = false -> match_FN (c :: s) = match_FN s.
Proof.
  intros H. cbn [match_FN]. eval_lits. cbn [ci_startsWith]. by rewrite H.
Qed.

Lemma match_TEL_skip (c : N) (s : str) :
  (canon c =? 84)%N = false -> match_TEL (c :: s) = match_TEL s.
Proof.
  intros H. cbn [match_TEL]. eval_lits. cbn [ci_startsWith]. by rewrite H.
Qed.

Lemma card_body_flat (n p : str) :
  card_body n p =
  (nl ++ lit "VERSION:3.0" ++ nl ++ lit "FN:") ++
  n ++ 10%N :: lit "TEL;TYPE=CELL:" ++ p ++ 10%N :: lit "END:VCARD" ++ nl.
Proof. unfold card_body, nl. rewrite <- !app_assoc. done. Qed.

Lemma match_FN_card (n p : str) :
  Forall (fun c => is_line_terminator c = false) n ->
  match_FN (card_body n p) = Some n.
Proof.
  intros Hn. rewrite card_body_flat. unfold nl. eval_lits. cbn [app].
  rewrite !match_FN_skip by reflexivity.
  cbn [match_FN]. eval_lits. cbn [ci_startsWith drop].
  change ((canon 70 =? 70)%N && ((canon 78 =? 78)%N && ((canon 58 =? 58)%N && true)))
    with true. cbv iota.
  by rewrite drop_0, rest_of_line_app.
Qed.

(** From any place in a name without a colon, the first colon is the one
    before the phone. *)
Lemma after_colon_card (k : nat) (n p z : str) :
  Forall (fun c => c <> 58%N) n ->
  Forall (fun c => is_line_terminator c = false) p ->
  k <= length n + 3 ->
  after_colon (drop k (n ++ 10%N :: lit "TEL;TYPE=CELL:" ++ p ++ 10%N :: z))
  = Some p.
Proof.
  intros Hn Hp Hk. eval_lits. rewrite drop_app.
  rewrite after_colon_skip
    by (apply Forall_drop; exact Hn).
  assert (k - length n <= 3) as Hk' by lia.
  destruct (k - length n) as [|[|[|[|?]]]]; [| | | |lia];
    cbn [drop app after_colon]; cbn -[rest_of_line];
    by rewrite rest_of_line_app.
Qed.

Lemma match_TEL_name (n p z : str) :
  Forall (fun c => c <> 58%N) n ->
  Forall (fun c => is_line_terminator c = false) p ->
  match_TEL (n ++ 10%N :: lit "TEL;TYPE=CELL:" ++ p ++ 10%N :: z) = Some p.
Proof.
  intros Hn Hp. induction Hn as [|c n Hc Hn IH].
  - cbn [app]. rewrite match_TEL_skip by reflexivity.
    cbn [match_TEL]. eval_lits. cbn [ci_startsWith drop app].
    change ((canon 84 =? 84)%N && ((canon 69 =? 69)%N && ((canon 76 =? 76)%N && true)))
      with true. cbv iota.
    cbn -[rest_of_line]. by rewrite rest_of_line_app.
  - cbn [app match_TEL].
    destruct (ci_startsWith (lit "TEL") _); [|exact IH].
    pose proof (after_colon_card 3 (c :: n) p z) as H.
    rewrite <- app_comm_cons in H. rewrite H; [done | by constructor | done |].
    cbn. lia.
Qed.

Lemma match_TEL_card (n p : str) :
  Forall (fun c => c <> 58%N) n ->
  Forall (fun c => is_line_terminator c = false) p ->
  match_TEL (card_body n p) = Some p.
Proof.
  intros Hn Hp. rewrite card_body_flat. unfold nl. eval_lits. cbn [app].
  rewrite !match_TEL_skip by reflexivity.
  pose proof (match_TEL_name n p (lit "END:VCARD" ++ [10%N])) as H.
  revert H. eval_lits. cbn [app]. auto.
Qed.

(** Nor does a separator start in a name without a colon that the line of
    the phone follows. *)
Lemma split_name (n t : str) :
  Forall (fun c => c <> 58%N) n ->
  take 5 t = [10%N; 84%N; 69%N; 76%N; 59%N] ->
  split (lit "BEGIN:VCARD") (n ++ t) = prepend n (split (lit "BEGIN:VCARD") t).
Proof.
  intros Hn Ht. induction Hn as [|c n Hc Hn IH].
  - cbn [app]. pose proof (split_from_nonempty (lit "BEGIN:VCARD") 0 t) as H.
    unfold split. by destruct (split_from _ 0 _).
  - cbn [app]. rewrite split_miss, IH; [apply prepend_cons|].
    apply not_true_iff_false. intros H.
    rewrite <- (take_drop 5 t), Ht in H. revert H. eval_lits. intros H.
    destruct n as [|a1 [|a2 [|a3 [|a4 [|a5 n]]]]]; cbn [app startsWith] in H;
      repeat (apply andb_true_iff in H as [? H]);
      repeat match goal with
             | E : (_ =? _)%N = true |- _ => apply N.eqb_eq in E
             end;
      try discriminate.
    do 4 apply Forall_cons in Hn as [_ Hn].
    apply Forall_cons in Hn as [Hn _]. done.
Qed.

Lemma vcard_body (c : Contact) :
  vcard c = lit "BEGIN:VCARD" ++ card_body (escape_name (name c)) (phone c).
Proof. unfold vcard, card_body. by rewrite <- !app_assoc. Qed.

(** A card's body holds no separator, whatever follows it. *)
Lemma split_card_body (n d rest : str) :
  Forall (fun c => c <> 58%N) n ->
  Forall (fun c => is_digit c = true) d ->
  split (lit "BEGIN:VCARD") (card_body n (43%N :: d) ++ rest) =
  prepend (card_body n (43%N :: d)) (split (lit "BEGIN:VCARD") rest).
Proof.
  intros Hn Hd.
  set (pre := nl ++ lit "VERSION:3.0" ++ nl ++ lit "FN:").
  set (mid := 10%N :: lit "TEL;TYPE=CELL:" ++ [43%N]).
  set (post := 10%N :: lit "END:VCARD" ++ nl).
  assert (card_body n (43%N :: d) = pre ++ n ++ mid ++ d ++ post) as ->.
  { rewrite card_body_flat. subst pre mid post. cbn [app].
    by rewrite <- !app_assoc. }
  rewrite <- !prepend_app, <- !app_assoc.
  change (lit "BEGIN:VCARD") with (66%N :: lit "EGIN:VCARD").
  rewrite (split_run 66 _ pre) by (by repeat constructor).
  change (66%N :: lit "EGIN:VCARD") with (lit "BEGIN:VCARD").
  rewrite (split_name n) by done.
  change (lit "BEGIN:VCARD") with (66%N :: lit "EGIN:VCARD").
  rewrite (split_run 66 _ mid) by (by repeat constructor).
  rewrite (split_run 66 _ d).
  2:{ eapply Forall_impl; [exact Hd|]. by intros u Hu ->. }
  by rewrite (split_run 66 _ post) by (by repeat constructor).
Qed.

(** The pieces of a generated file: an empty one, then the cards without
    their first line's text. *)
Lemma split_cards (contacts : list Contact) :
  Forall (fun c => Forall (fun u => u <> 58%N) (escape_name (name c)) /\
                   exists d, phone c = 43%N :: d /\
                             Forall (fun u => is_digit u = true) d) contacts ->
  split (lit "BEGIN:VCARD") (generateVcf contacts) =
  match contacts with
  | [] => [[]]
  | _ => [] :: ((fun c => card_body (escape_name (name c)) (phone c))
                  <$> contacts)
  end.
Proof.
  intros H. rewrite generateVcf_cards.
  induction H as [|c cs (Hn & d & Hp & Hd) Hcs IH]; [done|].
  cbn [fmap list_fmap concat]. rewrite vcard_body, <- app_assoc.
  change (lit "BEGIN:VCARD") with (66%N :: lit "EGIN:VCARD") at 1 2.
  rewrite split_at_separator. f_equal.
  change (66%N :: lit "EGIN:VCARD") with (lit "BEGIN:VCARD").
  rewrite Hp, split_card_body, IH by done.
  destruct cs; cbn [prepend fmap list_fmap]; by rewrite app_nil_r.
Qed.

Lemma trim_card_body (n p : str) : trim (card_body n p) <> [].
Proof.
  intros H%trim_nil_iff. rewrite card_body_flat in H.
  unfold nl in H. revert H. eval_lits. cbn [app]. intros H.
  apply Forall_cons in H as [_ H]. apply Forall_cons in H as [H _]. done.
Qed.

(** What [processVcfFile] reads in the body of a card. *)
Lemma add_vcard_card (contacts : list Contact) (n p : str) :
  readable_name n -> formatted p ->
  add_vcard contacts (card_body n p)
  = contacts ++ [ {| name := n; phone := p |} ].
Proof.
  intros (Hne & Htrim & Hplain) Hp.
  destruct (formatted_inv p Hp) as (d & -> & Hd & Hl).
  assert (Forall (fun c => is_line_terminator c = false) (lit "+" ++ d)) as Hpl.
  { constructor; [done|]. eapply Forall_impl; [exact Hd|].
    intros c Hc. unfold is_digit in Hc. unfold is_line_terminator.
    apply andb_true_iff in Hc as [H1%N.leb_le H2%N.leb_le].
    rewrite !orb_false_iff, !N.eqb_neq. lia. }
  unfold add_vcard.
  pose proof (trim_card_body n (lit "+" ++ d)) as Hbody.
  destruct (trim (card_body n (lit "+" ++ d))); [done|].
  rewrite match_TEL_card, match_FN_card, Hp; cycle 1.
  - eapply Forall_impl; [exact Hplain|]. by intros c (_ & ? & _)%readable_inv.
  - eapply Forall_impl; [exact Hplain|].
    by intros c (_ & _ & ? & _)%readable_inv.
  - done.
  - cbn [fmap option_fmap option_map]. rewrite Htrim. by destruct n.
Qed.

Lemma foldl_add_vcard (acc contacts : list Contact) :
  Forall (fun c => readable_name (name c) /\ formatted (phone c)) contacts ->
  foldl add_vcard acc
    ((fun c => card_body (escape_name (name c)) (phone c)) <$> contacts)
  = acc ++ (escaped <$> contacts).
Proof.
  intros H. revert acc.
  induction H as [|c cs [Hn Hp] _ IH]; intros acc; [by rewrite app_nil_r|].
  cbn [fmap list_fmap foldl].
  rewrite add_vcard_card, IH, <- app_assoc;
    [done | by apply escape_name_readable_name | done].
Qed.

(** What [processVcfFile] reads in a generated file. *)
Lemma read_back_escaped (contacts : list Contact) :
  Forall (fun c => readable_name (name c) /\ formatted (phone c)) contacts ->
  processVcfFile (generateVcf contacts) = escaped <$> contacts.
Proof.
  intros H. unfold processVcfFile. rewrite split_cards.
  - destruct contacts as [|c cs]; [done|].
    cbn [foldl]. change (add_vcard [] []) with (@nil Contact).
    by rewrite foldl_add_vcard.
  - eapply Forall_impl; [exact H|]. intros c [Hn Hp]. split.
    + destruct (escape_name_readable_name _ Hn) as (_ & _ & Hr).
      eapply Forall_impl; [exact Hr|].
      by intros u (_ & _ & ? & _)%readable_inv.
    + destruct (formatted_inv _ Hp) as (d & Hd & ? & _). by exists d.
Qed.

Lemma escaped_plain (contacts : list Contact) :
  Forall (fun c => plain_name (name c) /\ formatted (phone c)) contacts ->
  escaped <$> contacts = contacts /\
  Forall (fun c => readable_name (name c) /\ formatted (phone c)) contacts.
Proof.
  intros H. split.
  - induction H as [|c cs [(_ & _ & Hn) _] _ IH]; [done|].
    rewrite fmap_cons, IH. unfold escaped.
    rewrite escape_name_plain by done. by destruct c.
  - eapply Forall_impl; [exact H|].
    intros c [Hn Hp]. split; [by apply plain_readable_name | done].
Qed.

(** X15.  Reading back a generated vCard file: for contacts whose names
    are plain and whose phones are formatted, [processVcfFile] returns
    exactly the contacts [generateVcf] was given. *)
Theorem vcf_export_reads_back (contacts : list Contact) :
  Forall (fun c => plain_name (name c) /\ formatted (phone c)) contacts ->
  processVcfFile (generateVcf contacts) = contacts.
Proof.
  intros [E H]%escaped_plain. by rewrite read_back_escaped, E.
Qed.

(** X16.  The reader does not undo the escaping of the writer: for names
    that may hold backslashes, commas and semicolons, the contacts come
    back under their escaped names, with the same phones. *)
Theorem vcf_names_read_back_escaped (contacts : list Contact) :
  Forall (fun c => readable_name (name c) /\ formatted (phone c)) contacts ->
  processVcfFile (generateVcf contacts) = escaped <$> contacts.
Proof. apply read_back_escaped. Qed.

Lemma plain_digit (c : N) : is_digit c = true -> plain c = true.
Proof.
  unfold is_digit, plain, readable, is_control, is_line_terminator.
  rewrite !andb_true_iff, !negb_true_iff, !orb_false_iff, andb_false_iff,
    !N.eqb_neq, !N.leb_le, !N.leb_gt.
  lia.
Qed.

(** The names the parsers give with a plain prefix are plain. *)
Lemma numbered_plain (prefix : str) (phones : list str) :
  plain_name prefix ->
  Forall (fun c => plain_name (name c)) (numbered prefix phones).
Proof.
  intros (Hne & Htrim & Hplain). apply Forall_forall.
  intros c (i & p & -> & _)%elem_of_lookup_imap. cbn [name].
  pose proof (dec_digits (i + 1)) as Hd.
  pose proof (dec_nonempty (i + 1)) as Hn.
  split; [by destruct prefix|]. split.
  - apply trim_keep.
    + destruct prefix as [|a prefix]; [done|]. cbn [app].
      pose proof (trimStart_head (a :: prefix)) as H.
      pose proof (trimStart_trimEnd (a :: prefix)) as H'.
      fold (trim (a :: prefix)) in H'. rewrite Htrim in H'.
      cbn [trimStart] in H'. destruct (is_space a) eqn:E; [|done].
      exfalso. pose proof (trimStart_suffix prefix) as Hs.
      apply suffix_length in Hs. rewrite H' in Hs. cbn in Hs. lia.
    + rewrite !app_assoc.
      destruct (dec (i + 1)) as [|d ds _] using rev_ind; [done|].
      rewrite app_assoc, last_snoc. apply digit_not_space.
      apply Forall_app in Hd as [_ Hd]. by inversion_clear Hd.
  - apply Forall_app. split; [done|]. constructor; [done|].
    eapply Forall_impl; [exact Hd|]. apply plain_digit.
Qed.

(** X17.  A text file read with the default prefix, exported with [/gv]
    and read again as a vCard file gives the same contacts, names and
    phones, whatever the text holds. *)
Theorem text_contacts_survive_the_vcf_export (content : str) :
  processVcfFile (generateVcf (processTxtFile content default_prefix))
  = processTxtFile content default_prefix.
Proof.
  assert (Forall (fun c => plain_name (name c) /\ formatted (phone c))
            (processTxtFile content default_prefix)) as H.
  { rewrite processTxtFile_numbered. apply Forall_and. split.
    - apply numbered_plain. split; [done|]. split; [done|].
      by repeat constructor.
    - apply numbered_formatted. }
  apply escaped_plain in H as [E H]. by rewrite read_back_escaped, E.
Qed.

End VcfRoundTrip.

Lemma vcf_export_reads_back_witness :
  Contacts.processVcfFile (Contacts.generateVcf Samples.two_contacts)
  = Samples.two_contacts.
Proof.
  apply vcf_export_reads_back.
  repeat constructor; try discriminate.
Defined.

Lemma vcf_names_read_back_escaped_witness :
  Contacts.processVcfFile (Contacts.generateVcf Samples.family) =
  escaped <$> Samples.family.
Proof.
  apply vcf_names_read_back_escaped.
  repeat constructor; try discriminate.
Defined.

(** ** [/an] and [/anc] *)

Section GroupTheorems.
Import Js Contacts Commands.

Lemma renumber_phones (prefix : str) (group : list Contact) :
  phone <$> renumber prefix group = phone <$> group.
Proof. by rewrite renumber_numbered, numbered_phones. Qed.

(** X18.  The two groups of [/an] are consecutive and disjoint blocks:
    when the command goes through, the file holds the phones of the first
    [adminCount + navyCount] contacts, each once and in order; and it goes
    through exactly when both counts are at least 1 and the contacts
    suffice. *)
Theorem an_dual_takes_the_first_contacts
    (adminPrefix navyPrefix : str) (adminCount navyCount : nat)
    (contacts : list Contact) :
  match an_dual adminPrefix adminCount navyPrefix navyCount contacts with
  | Some allContacts =>
      1 <= adminCount /\ 1 <= navyCount /\
      adminCount + navyCount <= length contacts /\
      phone <$> allContacts = phone <$> take (adminCount + navyCount) contacts
  | None =>
      adminCount < 1 \/ navyCount < 1 \/
      length contacts < adminCount + navyCount
  end.
Proof.
  unfold an_dual.
  destruct (Nat.ltb_spec adminCount 1); cbn [orb]; [lia|].
  destruct (Nat.ltb_spec navyCount 1); cbn [orb]; [lia|].
  destruct (Nat.ltb_spec (length contacts) (adminCount + navyCount));
    cbv iota; [lia|].
  repeat split; try lia.
  rewrite fmap_app, !renumber_phones, <- fmap_app. f_equal.
  unfold Delivery.slice. rewrite drop_0, Nat.sub_0_r.
  replace (adminCount + navyCount - adminCount) with navyCount by lia.
  apply take_take_drop.
Qed.

Lemma split_lines_nonempty (s : str) : split_lines s <> [].
Proof.
  induction s as [|c s IH]; [done|]. cbn [split_lines].
  destruct (c =? 10)%N; [done|].
  destruct ((c =? 13)%N && startsWith nl s); [done|].
  by destruct (split_lines s).
Qed.

(** The carriage return of a separator holds no digit. *)
Lemma split_lines_digits (s : str) :
  digits <$> split_lines s = digits <$> split nl s.
Proof.
  unfold nl. induction s as [|c s IH]; [done|].
  rewrite split_char_cons. cbn [split_lines].
  change (match split [10%N] s with
          | piece :: pieces => (c :: piece) :: pieces
          | [] => [[c]]
          end) with (prepend [c] (split [10%N] s)).
  change (match split_lines s with
          | piece :: pieces => (c :: piece) :: pieces
          | [] => [[c]]
          end) with (prepend [c] (split_lines s)).
  pose proof (split_lines_nonempty s) as Hl.
  pose proof (split_from_nonempty [10%N] 0 s) as Hs.
  fold (split [10%N] s) in Hs.
  destruct (c =? 10)%N; [by rewrite !fmap_cons, IH|].
  rewrite (fmap_digits_prepend [c] (split [10%N] s)) by done.
  destruct (N.eqb_spec c 13) as [->|Hc]; cbn [andb].
  - destruct (startsWith nl s).
    + rewrite IH. change (digits [13%N]) with (@nil N).
      by destruct (split [10%N] s).
    + by rewrite fmap_digits_prepend, IH.
  - by rewrite fmap_digits_prepend, IH.
Qed.

Lemma split_lines_Forall (P : N -> Prop) (s : str) :
  Forall P s -> Forall (Forall P) (split_lines s).
Proof.
  induction 1 as [|c s Hc _ IH]; [by repeat constructor|].
  cbn [split_lines]. destruct (c =? 10)%N; [by constructor|].
  destruct ((c =? 13)%N && startsWith nl s); [done|].
  destruct (split_lines s) as [|p ps]; [by repeat constructor|].
  inversion_clear IH. by repeat constructor.
Qed.

Lemma kept_without_plus (n : str) :
  Forall (fun c => c <> 43%N) n ->
  filter (fun c => is_digit c || (c =? 43)%N) n = digits n.
Proof.
  unfold digits. induction 1 as [|c n Hc _ IH]; [done|].
  apply N.eqb_neq in Hc. destruct (is_digit c) eqn:E.
  - rewrite !filter_cons_True by (by rewrite ?E). by rewrite IH.
  - rewrite !filter_cons_False by (rewrite ?E, ?Hc; intros []). done.
Qed.

Lemma anc_numbers_without_plus (text : str) :
  Forall (fun c => c <> 43%N) text ->
  anc_numbers text =
  filter (fun d => 10 <= length d /\ length d <= 15)
    (digits <$> split_lines text).
Proof.
  intros H%split_lines_Forall. unfold anc_numbers.
  induction H as [|p ps Hp _ IH]; [done|].
  rewrite !fmap_cons. destruct (decide (trim p = [])) as [E|E].
  - rewrite (filter_cons_False _ (trim p)) by (by intros ?).
    rewrite IH, (filter_cons_False _ (digits p)); [done|].
    rewrite <- digits_trim, E. cbn. lia.
  - rewrite (filter_cons_True _ (trim p)) by done.
    rewrite fmap_cons, kept_without_plus by (by apply trim_Forall).
    rewrite digits_trim.
    destruct (decide (10 <= length (digits p) /\ length (digits p) <= 15)).
    + rewrite !(filter_cons_True _ (digits p)) by done. by rewrite IH.
    + rewrite !(filter_cons_False _ (digits p)) by done. by rewrite IH.
Qed.

(** X19.  On a text without a plus sign, the dialogue of [/anc] keeps
    the numbers [processTxtFile] would keep and writes the contacts it
    would return for the same name. *)
Theorem anc_reads_plain_numbers_like_processTxtFile (text contactName : str) :
  Forall (fun c => c <> 43%N) text ->
  anc_contacts (anc_numbers text) contactName
  = processTxtFile text contactName.
Proof.
  intros Hplus. rewrite processTxtFile_numbered, omap_format_digits.
  rewrite <- list_fmap_compose.
  rewrite (list_fmap_ext (digits ∘ trim) digits) by (intros; apply digits_trim).
  rewrite <- split_lines_digits, <- anc_numbers_without_plus by done.
  unfold anc_contacts, numbered. rewrite imap_fmap. apply imap_ext.
  intros i num Hnum. unfold compose. f_equal.
  change (lit "+") with [43%N].
  rewrite anc_numbers_without_plus in Hnum by done.
  apply list_elem_of_lookup_2, list_elem_of_filter in Hnum as [_ Hnum].
  apply list_elem_of_fmap in Hnum as (l & -> & _).
  pose proof (digits_Forall l) as Hd.
  destruct (digits l) as [|d ds]; [done|].
  inversion_clear Hd. cbn [startsWith].
  by destruct (N.eqb_spec d 43) as [->|_].
Qed.

End GroupTheorems.

Lemma anc_reads_plain_numbers_like_processTxtFile_witness :
  Commands.anc_contacts (Commands.anc_numbers Samples.numbers_crlf)
    (Js.lit "Admin")
  = Contacts.processTxtFile Samples.numbers_crlf (Js.lit "Admin").
Proof.
  apply anc_reads_plain_numbers_like_processTxtFile.
  unfold Samples.numbers_crlf. repeat constructor; discriminate.
Defined.

(** ** User management *)

Section UserTheorems.
Import Js Users.

Lemma list_find_new (userId : str) (l : list str) :
  userId ∉ l ->
  list_find (fun u => u = userId) (l ++ [userId]) = Some (length l, userId).
Proof.
  intros H. rewrite list_find_app_r.
  - cbn. by rewrite decide_True.
  - apply list_find_None, Forall_forall. by intros u Hu ->.
Qed.

(** X20.  [/remove] undoes [/add]: when an admin adds an id that was not
    registered and then removes it, the user data is what it was before. *)
Theorem remove_undoes_add (userData : UserData) (from_id : nat)
    (add_text remove_text userId : str) :
  isAdmin userData from_id = true ->
  match_user_id (lit "/add") add_text = Some userId ->
  match_user_id (lit "/remove") remove_text = Some userId ->
  userId ∉ users userData ->
  add true userData from_id add_text =
    (Added userId,
     {| admins := admins userData; users := users userData ++ [userId] |}) /\
  remove true (add true userData from_id add_text).2 from_id remove_text =
    (Removed userId, userData).
Proof.
  intros Hadmin Hadd Hremove Hnew.
  assert (add true userData from_id add_text =
          (Added userId,
           {| admins := admins userData;
              users := users userData ++ [userId] |})) as E.
  { unfold add. rewrite Hadmin, Hadd. cbn [negb].
    by rewrite bool_decide_eq_false_2. }
  split; [exact E|]. rewrite E. cbn [snd]. unfold remove.
  unfold isAdmin in *. cbn [admins users]. rewrite Hadmin, Hremove.
  cbn [negb]. rewrite list_find_new by done.
  replace (delete (length (users userData)) (users userData ++ [userId]))
    with (users userData).
  - by destruct userData.
  - by rewrite delete_middle, app_nil_r.
Qed.

(** X21.  A user list without duplicates stays so under both commands,
    whoever sends them and whether or not the file can be written; when
    [/add] answers that it added an id, the id is in the list, and when
    [/remove] answers that it removed an id, the id is gone. *)
Theorem user_list_stays_duplicate_free (write_ok : bool)
    (userData : UserData) (from_id : nat) (add_text remove_text : str) :
  NoDup (users userData) ->
  NoDup (users (add write_ok userData from_id add_text).2) /\
  NoDup (users (remove write_ok userData from_id remove_text).2) /\
  (forall userId,
     (add write_ok userData from_id add_text).1 = Added userId ->
     userId ∈ users (add write_ok userData from_id add_text).2) /\
  (forall userId,
     (remove write_ok userData from_id remove_text).1 = Removed userId ->
     userId ∉ users (remove write_ok userData from_id remove_text).2).
Proof.
  intros Hnodup. split; [|split; [|split]].
  - unfold add. destruct (isAdmin userData from_id); [|done]. cbn [negb].
    destruct (match_user_id (lit "/add") add_text) as [userId|]; [|done].
    destruct (decide (userId ∈ users userData)) as [Hin|Hin].
    + by rewrite bool_decide_eq_true_2.
    + rewrite bool_decide_eq_false_2 by done. cbn [negb].
      assert (NoDup (users userData ++ [userId])).
      { apply NoDup_app. split; [done|]. split; [|apply NoDup_singleton].
        intros u Hu ->%list_elem_of_singleton. done. }
      by destruct write_ok.
  - unfold remove. destruct (isAdmin userData from_id); [|done]. cbn [negb].
    destruct (match_user_id (lit "/remove") remove_text) as [userId|];
      [|done].
    destruct (list_find _ _) as [[index u]|]; [|done].
    assert (NoDup (delete index (users userData)))
      by (eapply sublist_NoDup; [done | apply sublist_delete]).
    by destruct write_ok.
  - intros userId. unfold add.
    destruct (isAdmin userData from_id); [|done]. cbn [negb].
    destruct (match_user_id (lit "/add") add_text) as [userId'|]; [|done].
    destruct (bool_decide (userId' ∈ users userData)); [done|]. cbn [negb].
    destruct write_ok; [|done]. cbn [fst snd users]. intros [= <-].
    apply elem_of_app. right. by apply list_elem_of_singleton.
  - intros userId. unfold remove.
    destruct (isAdmin userData from_id); [|done]. cbn [negb].
    destruct (match_user_id (lit "/remove") remove_text) as [userId'|];
      [|done].
    destruct (list_find _ _) as [[index u]|] eqn:E; [|done].
    apply list_find_Some in E as (Hlook & -> & _).
    destruct write_ok; [|done]. cbn [fst snd users]. intros [= <-].
    rewrite delete_take_drop. intros [Hin|Hin]%elem_of_app.
    + apply list_elem_of_lookup in Hin as [j Hj].
      pose proof (lookup_lt_Some _ _ _ Hj) as Hlt.
      rewrite length_take in Hlt.
      rewrite lookup_take_lt in Hj by lia.
      pose proof (NoDup_lookup _ _ _ _ Hnodup Hj Hlook). lia.
    + apply list_elem_of_lookup in Hin as [j Hj].
      rewrite lookup_drop in Hj.
      pose proof (NoDup_lookup _ _ _ _ Hnodup Hj Hlook). lia.
Qed.

End UserTheorems.

Lemma remove_undoes_add_witness :
  Users.add true Samples.staff 1001 (Js.lit "/add 3003") =
    (Users.Added (Js.lit "3003"),
     {| Users.admins := Users.admins Samples.staff;
        Users.users := Users.users Samples.staff ++ [Js.lit "3003"] |}) /\
  Users.remove true
    (Users.add true Samples.staff 1001 (Js.lit "/add 3003")).2
    1001 (Js.lit "/remove  3003 please")
  = (Users.Removed (Js.lit "3003"), Samples.staff).
Proof.
  apply remove_undoes_add; [reflexivity | reflexivity | reflexivity |].
  intros H%list_elem_of_singleton. discriminate H.
Defined.

Lemma user_list_stays_duplicate_free_witness :
  NoDup (Users.users
    (Users.add true Samples.staff 1001 (Js.lit "/add 3003")).2) /\
  NoDup (Users.users
    (Users.remove true Samples.staff 1001 (Js.lit "/remove 2002")).2) /\
  (forall userId,
     (Users.add true Samples.staff 1001 (Js.lit "/add 3003")).1
       = Users.Added userId ->
     userId ∈ Users.users
       (Users.add true Samples.staff 1001 (Js.lit "/add 3003")).2) /\
  (forall userId,
     (Users.remove true Samples.staff 1001 (Js.lit "/remove 2002")).1
       = Users.Removed userId ->
     userId ∉ Users.users
       (Users.remove true Samples.staff 1001 (Js.lit "/remove 2002")).2).
Proof.
  apply user_list_stays_duplicate_free.
  apply NoDup_singleton.
Defined.

(** ** Split files read back *)

Section SplitFilesTheorems.
Import Js Contacts Commands.

(** X22.  [/pv] loses no contact: for a split count from 1 to 2^53 and
    contacts with plain names and formatted phones, the split ends, and
    the files written for its groups, read back with [processVcfFile] and
    laid end to end, give the contacts of the session, names and phones, in
    order. *)
Theorem pv_files_read_back (fileName : str) (contacts : list Contact)
    (splitCount : N) :
  (1 <= splitCount <= max_counter)%N ->
  Forall (fun c => plain_name (name c) /\ formatted (phone c)) contacts ->
  exists groups,
    contactGroups contacts splitCount = Some groups /\
    concat ((fun f => processVcfFile (content f)) <$> pv_files fileName groups)
    = contacts.
Proof.
  intros [H1 Hk] H. eexists. split; [by apply contactGroups_ends|].
  assert (1 <= N.to_nat splitCount) as Hk' by lia.
  rewrite <- (split_loop_concat contacts (N.to_nat splitCount) Hk') at 2.
  f_equal. unfold pv_files. rewrite fmap_imap.
  rewrite (imap_ext _ (fun _ group => group)).
  - generalize (split_loop contacts (N.to_nat splitCount)). intros gs.
    change (fun (_ : nat) (group : list Contact) => group) with (@const _ nat (@id (list Contact))).
    rewrite imap_const. apply list_fmap_id.
  - intros i g Hg. unfold compose. cbn [content].
    rewrite (list_fmap_ext _ id g) by (by intros ? [] ?).
    rewrite list_fmap_id.
    pose proof (split_loop_Forall _ contacts (N.to_nat splitCount) H) as Hall.
    eapply Forall_lookup_1 in Hall; [|exact Hg].
    apply escaped_plain in Hall as [E Hall]. by rewrite read_back_escaped, E.
Qed.

End SplitFilesTheorems.

Lemma pv_files_read_back_witness :
  exists groups,
    Commands.contactGroups Samples.two_contacts 2 = Some groups /\
    concat ((fun f => Contacts.processVcfFile (Commands.content f))
              <$> Commands.pv_files (Js.lit "part") groups)
    = Samples.two_contacts.
Proof.
  apply pv_files_read_back; [unfold Commands.max_counter; lia|].
  repeat constructor; try discriminate.
Defined.
